(** * The early-boot physical range allocator of [src/balloc.c]

    The allocator keeps two sets of address ranges, [memory_map] (every
    range ever reported) and [free_ranges] (what is still unallocated), as
    search trees whose nodes come from a static pool of
    [BALLOC_MAX_RANGES] slots.  This development embeds the C code as Rocq
    functions over an explicit state and proves what the specification says
    about it. *)

From Stdlib Require Import ZArith List Lia Bool Arith Permutation Sorted.
Import ListNotations.
Local Open Scope Z_scope.

(** ** Machine integers

    [unsigned long long], [uintptr_t] and [size_t] are 64-bit unsigned
    integers on the target (x86-64, LP64).  They are represented by [Z];
    every addition that the C code performs is reduced by [wrap64]. *)

Definition wrap64 (x : Z) : Z := x mod 2 ^ 64.

(** ** Range nodes and the static pool *)

(** [struct memory_node]: the two bounds of the half-open range
    [[begin, end)].  The link field (a union of the tree link and the list
    link) is represented by the position of the slot in a tree or in the
    free list. *)
Record memory_node := mk_node { begin : Z; end_ : Z }.

Definition BALLOC_MAX_RANGES : nat := 128.

(** ** Search trees

    A pointer to a node of [balloc_nodes] is the index of its slot.  A
    tree is given by its shape; a node of the tree holds the slot it
    stands for, the bounds are read from the node array. *)
Inductive rb_color := RB_RED | RB_BLACK.

Inductive rb_node : Type :=
| rb_null
| rb_fork (color : rb_color) (left : rb_node) (slot : nat) (right : rb_node).

(** The order in which [rb_leftmost] followed by repeated [rb_next] visits
    the nodes. *)
Fixpoint rb_inorder (t : rb_node) : list nat :=
  match t with
  | rb_null => []
  | rb_fork _ l n r => rb_inorder l ++ n :: rb_inorder r
  end.

Definition seq_erase (n : nat) (l : list nat) : list nat :=
  filter (fun m => negb (Nat.eqb m n)) l.

Fixpoint seq_next (n : nat) (l : list nat) : option nat :=
  match l with
  | [] => None
  | m :: l' => if Nat.eqb m n then hd_error l' else seq_next n l'
  end.

Fixpoint seq_prev (n : nat) (l : list nat) : option nat :=
  match l with
  | [] => None
  | m :: l' =>
      match l' with
      | [] => None
      | k :: _ => if Nat.eqb k n then Some m else seq_prev n l'
      end
  end.

Fixpoint seq_from (n : nat) (l : list nat) : list nat :=
  match l with
  | [] => []
  | m :: l' => if Nat.eqb m n then l else seq_from n l'
  end.

(** Modelled from the spec: the tree library ([rb_insert], [rb_erase],
    [rb_next], [rb_prev], [rb_leftmost], [rb_rightmost] of rbtree.c) is not
    part of the sources at hand.  The specification describes it as a
    balanced binary search tree "supporting neighbor traversal": inserting
    rebalances the tree around a node that [rb_link] has already attached,
    erasing unlinks one node, and neither changes the order of the other
    nodes.  The two mutators are therefore taken as parameters, together
    with the law that fixes their effect on the in-order sequence; how they
    recolour and rotate is left open. *)
Record rbtree_lib := {
  rb_insert : nat -> rb_node -> rb_node;
  rb_erase : nat -> rb_node -> rb_node;
  rb_insert_inorder : forall n t, rb_inorder (rb_insert n t) = rb_inorder t;
  rb_erase_inorder :
    forall n t, rb_inorder (rb_erase n t) = seq_erase n (rb_inorder t)
}.

(** Modelled from the spec: in-order neighbours and extremes. *)
Definition rb_next (n : nat) (t : rb_node) : option nat :=
  seq_next n (rb_inorder t).

Definition rb_prev (n : nat) (t : rb_node) : option nat :=
  seq_prev n (rb_inorder t).

Definition rb_leftmost (t : rb_node) : option nat := hd_error (rb_inorder t).

Definition rb_rightmost (t : rb_node) : option nat :=
  match rev (rb_inorder t) with
  | [] => None
  | n :: _ => Some n
  end.

(** The descent of [__balloc_add_range]:
    [while ( *plink) { ... if (node->begin < from) plink = &parent->right;
    else plink = &parent->left; }], followed by [rb_link], which hangs the
    new node at the empty link that the loop stopped at. *)
Fixpoint rb_link_descent (nodes : nat -> memory_node) (from : Z) (new : nat)
  (plink : rb_node) : rb_node :=
  match plink with
  | rb_null => rb_fork RB_RED rb_null new rb_null
  | rb_fork c l n r =>
      if begin (nodes n) <? from
      then rb_fork c l n (rb_link_descent nodes from new r)
      else rb_fork c (rb_link_descent nodes from new l) n r
  end.

(** The descent shared by [__balloc_remove_range] and [__balloc_alloc]:
    [while (link) { if (node->end > from) { link = link->left; ptr = node; }
    else link = link->right; }]. *)
Fixpoint rb_first_above (nodes : nat -> memory_node) (from : Z)
  (link : rb_node) (ptr : option nat) : option nat :=
  match link with
  | rb_null => ptr
  | rb_fork _ l n r =>
      if from <? end_ (nodes n)
      then rb_first_above nodes from l (Some n)
      else rb_first_above nodes from r ptr
  end.

(** ** The allocator state *)

Record balloc_state := mk_state {
  balloc_nodes : nat -> memory_node;
  balloc_free_list : list nat;
  free_ranges : rb_node;
  memory_map : rb_node
}.

(** The [struct rb_tree *tree] argument of the range mutators is always
    [&free_ranges] or [&memory_map]. *)
Inductive tree_ref := Free_ranges | Memory_map.

Definition get_tree (tr : tree_ref) (s : balloc_state) : rb_node :=
  match tr with
  | Free_ranges => free_ranges s
  | Memory_map => memory_map s
  end.

Definition set_tree (tr : tree_ref) (t : rb_node) (s : balloc_state)
  : balloc_state :=
  match tr with
  | Free_ranges =>
      mk_state (balloc_nodes s) (balloc_free_list s) t (memory_map s)
  | Memory_map =>
      mk_state (balloc_nodes s) (balloc_free_list s) (free_ranges s) t
  end.

Definition other_tree (tr : tree_ref) : tree_ref :=
  match tr with
  | Free_ranges => Memory_map
  | Memory_map => Free_ranges
  end.

Definition set_node (n : nat) (m : memory_node) (s : balloc_state)
  : balloc_state :=
  mk_state (fun k => if Nat.eqb k n then m else balloc_nodes s k)
           (balloc_free_list s) (free_ranges s) (memory_map s).

(** What a call produces: a result, the fatal halt of [BUG_ON], or a use
    of a node that is no longer linked into the tree it is looked up in
    (the C code would follow stale links there). *)
Inductive outcome (A : Type) : Type :=
| Done (a : A)
| Bug
| Stuck.

Arguments Done {A} a.
Arguments Bug {A}.
Arguments Stuck {A}.

Definition bind {A B : Type} (m : outcome A) (k : A -> outcome B)
  : outcome B :=
  match m with
  | Done a => k a
  | Bug => Bug
  | Stuck => Stuck
  end.

Notation "x <- m ;; k" := (bind m (fun x => k))
  (at level 61, m at next level, right associativity).

(** [balloc_alloc_node]: [BUG_ON(list_empty(&balloc_free_list))], then the
    first entry of the list is unlinked and returned. *)
Definition balloc_alloc_node (s : balloc_state) : outcome (nat * balloc_state) :=
  match balloc_free_list s with
  | [] => Bug
  | node :: rest =>
      Done (node, mk_state (balloc_nodes s) rest (free_ranges s) (memory_map s))
  end.

(** [balloc_free_node]: [list_add] puts the node at the head of the list. *)
Definition balloc_free_node (node : nat) (s : balloc_state) : balloc_state :=
  mk_state (balloc_nodes s) (node :: balloc_free_list s)
           (free_ranges s) (memory_map s).

(** The in-order traversal of a set, as [__balloc_dump_ranges] prints it:
    one [(begin, end)] pair per stored range. *)
Definition __balloc_dump_ranges (nodes : nat -> memory_node) (t : rb_node)
  : list (Z * Z) :=
  map (fun n => (begin (nodes n), end_ (nodes n))) (rb_inorder t).

Definition balloc_dump_ranges (s : balloc_state)
  : list (Z * Z) * list (Z * Z) :=
  (__balloc_dump_ranges (balloc_nodes s) (memory_map s),
   __balloc_dump_ranges (balloc_nodes s) (free_ranges s)).

Section Balloc.

Variable R : rbtree_lib.

(** The first merge of [__balloc_add_range]:
    [if (prev && prev->end >= new->begin) { new->begin = prev->begin;
    if (prev->end > new->end) new->end = prev->end; rb_erase(prev);
    balloc_free_node(prev); }]. *)
Definition absorb_prev (tr : tree_ref) (new : nat) (s : balloc_state)
  : balloc_state :=
  match rb_prev new (get_tree tr s) with
  | None => s
  | Some prev =>
      let p := balloc_nodes s prev in
      let n := balloc_nodes s new in
      if begin n <=? end_ p then
        let s1 := set_node new (mk_node (begin p) (end_ n)) s in
        let s2 :=
          if end_ (balloc_nodes s1 new) <? end_ (balloc_nodes s1 prev)
          then set_node new (mk_node (begin (balloc_nodes s1 new))
                                     (end_ (balloc_nodes s1 prev))) s1
          else s1 in
        let s3 := set_tree tr (rb_erase R prev (get_tree tr s2)) s2 in
        balloc_free_node prev s3
      else s
  end.

(** The second merge:
    [if (next && next->begin <= new->end) { new->end = next->end;
    rb_erase(next); balloc_free_node(next); }]. *)
Definition absorb_next (tr : tree_ref) (new : nat) (s : balloc_state)
  : balloc_state :=
  match rb_next new (get_tree tr s) with
  | None => s
  | Some next =>
      let x := balloc_nodes s next in
      let n := balloc_nodes s new in
      if begin x <=? end_ n then
        let s1 := set_node new (mk_node (begin n) (end_ x)) s in
        let s2 := set_tree tr (rb_erase R next (get_tree tr s1)) s1 in
        balloc_free_node next s2
      else s
  end.

Definition __balloc_add_range (tr : tree_ref) (from to : Z) (s : balloc_state)
  : outcome balloc_state :=
  let linked := rb_link_descent (balloc_nodes s) from in
  r <- balloc_alloc_node s ;;
  let '(new, s1) := r in
  let s2 := set_node new (mk_node from to) s1 in
  let s3 := set_tree tr (rb_insert R new (linked new (get_tree tr s2))) s2 in
  let s4 := absorb_prev tr new s3 in
  Done (absorb_next tr new s4).

(** The block that the loop body of [__balloc_remove_range] and the
    success branch of [__balloc_alloc] have in common, entered when [ptr]
    has been erased from the tree: what the range of [ptr] has below [x]
    and what it has from [y] on are added again, then the node goes back
    to the pool.  Both callers below spell the block out as the C code
    does; [carve] names it so that one lemma serves both. *)
Definition carve (tr : tree_ref) (ptr : nat) (x y : Z) (s1 : balloc_state)
  : outcome balloc_state :=
  s2 <- (if begin (balloc_nodes s1 ptr) <? x
         then __balloc_add_range tr (begin (balloc_nodes s1 ptr)) x s1
         else Done s1) ;;
  s3 <- (if y <? end_ (balloc_nodes s2 ptr)
         then __balloc_add_range tr y (end_ (balloc_nodes s2 ptr)) s2
         else Done s2) ;;
  Done (balloc_free_node ptr s3).

(** The walk of [__balloc_remove_range], [while (ptr && ptr->begin < to)].
    [fuel] bounds the number of iterations by the number of nodes the tree
    had when the walk started. *)
Fixpoint remove_walk (fuel : nat) (tr : tree_ref) (from to : Z)
  (ptr : option nat) (s : balloc_state) : outcome balloc_state :=
  match ptr with
  | None => Done s
  | Some p =>
      if begin (balloc_nodes s p) <? to then
        match fuel with
        | O => Stuck
        | S fuel' =>
            if existsb (Nat.eqb p) (rb_inorder (get_tree tr s)) then
              let next := rb_next p (get_tree tr s) in
              let s1 := set_tree tr (rb_erase R p (get_tree tr s)) s in
              s2 <- (if begin (balloc_nodes s1 p) <? from
                     then __balloc_add_range tr (begin (balloc_nodes s1 p)) from s1
                     else Done s1) ;;
              s3 <- (if to <? end_ (balloc_nodes s2 p)
                     then __balloc_add_range tr to (end_ (balloc_nodes s2 p)) s2
                     else Done s2) ;;
              remove_walk fuel' tr from to next (balloc_free_node p s3)
            else Stuck
        end
      else Done s
  end.

Definition __balloc_remove_range (tr : tree_ref) (from to : Z)
  (s : balloc_state) : outcome balloc_state :=
  let ptr := rb_first_above (balloc_nodes s) from (get_tree tr s) None in
  remove_walk (length (rb_inorder (get_tree tr s))) tr from to ptr s.

(** The search loop of [__balloc_alloc].  The tree is not changed while
    the loop runs, so the nodes that [rb_next] yields one after the other
    are the in-order sequence from the first candidate on.  The result is
    the node that satisfies the request and the address found in it. *)
Fixpoint alloc_walk (nodes : nat -> memory_node) (size align from to : Z)
  (cands : list nat) : option (nat * Z) :=
  match cands with
  | [] => None
  | p :: rest =>
      if begin (nodes p) <? to then
        let b := if from <? begin (nodes p) then begin (nodes p) else from in
        let e := if end_ (nodes p) <? to then end_ (nodes p) else to in
        let mask := wrap64 (align - 1) in
        let addr := Z.land (wrap64 (b + mask)) (wrap64 (Z.lnot mask)) in
        if wrap64 (addr + size) <=? e
        then Some (p, addr)
        else alloc_walk nodes size align from to rest
      else None
  end.

Definition alloc_search (size align from to : Z) (s : balloc_state)
  : option (nat * Z) :=
  match rb_first_above (balloc_nodes s) from (free_ranges s) None with
  | None => None
  | Some p =>
      alloc_walk (balloc_nodes s) size align from to
                 (seq_from p (rb_inorder (free_ranges s)))
  end.

Definition __balloc_alloc (size align from to : Z) (s : balloc_state)
  : outcome (Z * balloc_state) :=
  match alloc_search size align from to s with
  | Some (p, addr) =>
      let s1 := set_tree Free_ranges (rb_erase R p (free_ranges s)) s in
      s2 <- (if begin (balloc_nodes s1 p) <? addr
             then __balloc_add_range Free_ranges (begin (balloc_nodes s1 p)) addr s1
             else Done s1) ;;
      s3 <- (if wrap64 (addr + size) <? end_ (balloc_nodes s2 p)
             then __balloc_add_range Free_ranges (wrap64 (addr + size))
                                     (end_ (balloc_nodes s2 p)) s2
             else Done s2) ;;
      Done (addr, balloc_free_node p s3)
  | None => Done (to, s)
  end.

Definition balloc_alloc (size from to : Z) (s : balloc_state)
  : outcome (Z * balloc_state) :=
  let align := 64 in
  let align := if size <=? 32 then 32 else align in
  let align := if size <=? 16 then 16 else align in
  let align := if size <=? 8 then 8 else align in
  __balloc_alloc size align from to s.

Definition balloc_free (b e : Z) (s : balloc_state) : outcome balloc_state :=
  __balloc_add_range Free_ranges b e s.

End Balloc.

(** ** Bootstrap *)

(** [struct mboot_mmap_entry]: the fields of one entry of the boot memory
    map ([entry_size] is the C field [size], and so on). *)
Record mboot_mmap_entry := mk_entry {
  entry_size : Z;
  entry_addr : Z;
  entry_length : Z;
  entry_type : Z
}.

(** [struct mboot_info], with the buffer that [mmap_addr] and [mmap_size]
    delimit given by the entries that the two scanning loops of
    [balloc_parse_mmap] find in it. *)
Record mboot_info := mk_info {
  flags : Z;
  mmap : list mboot_mmap_entry
}.

(** The state of the statically allocated objects when the kernel starts:
    all of them are zero. *)
Definition boot_state : balloc_state :=
  mk_state (fun _ => mk_node 0 0) [] rb_null rb_null.

(** [balloc_setup_nodes]: [list_init], then every slot of [balloc_nodes]
    is put on the free list, slot 0 first. *)
Definition balloc_setup_nodes (s : balloc_state) : balloc_state :=
  fold_left (fun st i => balloc_free_node i st) (seq 0 BALLOC_MAX_RANGES)
            (mk_state (balloc_nodes s) [] (free_ranges s) (memory_map s)).

Section Bootstrap.

Variable R : rbtree_lib.

(** First loop of [balloc_parse_mmap]: every entry goes into both sets. *)
Fixpoint add_entries (entries : list mboot_mmap_entry) (s : balloc_state)
  : outcome balloc_state :=
  match entries with
  | [] => Done s
  | entry :: rest =>
      let rbegin := entry_addr entry in
      let rend := wrap64 (rbegin + entry_length entry) in
      s1 <- __balloc_add_range R Memory_map rbegin rend s ;;
      s2 <- __balloc_add_range R Free_ranges rbegin rend s1 ;;
      add_entries rest s2
  end.

(** Second loop: [if (entry->type != 1) __balloc_remove_range(...)]. *)
Fixpoint remove_busy_entries (entries : list mboot_mmap_entry)
  (s : balloc_state) : outcome balloc_state :=
  match entries with
  | [] => Done s
  | entry :: rest =>
      let rbegin := entry_addr entry in
      let rend := wrap64 (rbegin + entry_length entry) in
      s1 <- (if entry_type entry =? 1 then Done s
             else __balloc_remove_range R Free_ranges rbegin rend s) ;;
      remove_busy_entries rest s1
  end.

(** [balloc_parse_mmap].  [text_phys_begin] and [bss_phys_end] are the
    bounds of the kernel image, [init_module] is what [initramfs(info)]
    returns. *)
Definition balloc_parse_mmap (info : mboot_info)
  (text_phys_begin bss_phys_end : Z) (init_module : Z * Z) (s : balloc_state)
  : outcome balloc_state :=
  if Z.land (flags info) (Z.shiftl 1 6) =? 0 then Bug
  else
    let kbegin := text_phys_begin in
    let kend := bss_phys_end in
    s1 <- add_entries (mmap info) s ;;
    s2 <- __balloc_add_range R Memory_map kbegin kend s1 ;;
    s3 <- __balloc_add_range R Free_ranges kbegin kend s2 ;;
    s4 <- remove_busy_entries (mmap info) s3 ;;
    s5 <- __balloc_remove_range R Free_ranges (fst init_module)
                                (snd init_module) s4 ;;
    __balloc_remove_range R Free_ranges kbegin kend s5.

(** [balloc_memory]: the end of the right-most range of [memory_map]. *)
Definition balloc_memory (s : balloc_state) : outcome Z :=
  match rb_rightmost (memory_map s) with
  | Some node => Done (end_ (balloc_nodes s node))
  | None => Stuck
  end.

(** [balloc_setup], run on the state the kernel starts in.  The dump that
    closes it prints [balloc_dump_ranges] of the final state and changes
    nothing. *)
Definition balloc_setup (info : mboot_info)
  (text_phys_begin bss_phys_end : Z) (init_module : Z * Z) (s : balloc_state)
  : outcome balloc_state :=
  balloc_parse_mmap info text_phys_begin bss_phys_end init_module
                    (balloc_setup_nodes s).

End Bootstrap.

(** ** A tree library without rebalancing

    The simplest functions that satisfy [rbtree_lib]: [rb_insert] leaves
    the linked node where it is and [rb_erase] hangs the right subtree of
    the erased node below the right-most node of its left subtree.  They
    serve to run the allocator on concrete inputs. *)
Fixpoint rb_graft (l r : rb_node) : rb_node :=
  match l with
  | rb_null => r
  | rb_fork c a n b => rb_fork c a n (rb_graft b r)
  end.

Fixpoint rb_unlink (x : nat) (t : rb_node) : rb_node :=
  match t with
  | rb_null => rb_null
  | rb_fork c l n r =>
      if Nat.eqb n x then rb_graft (rb_unlink x l) (rb_unlink x r)
      else rb_fork c (rb_unlink x l) n (rb_unlink x r)
  end.

Definition plain_tree : rbtree_lib.
Proof.
  refine {| rb_insert := fun _ t => t; rb_erase := rb_unlink |}.
  - reflexivity.
  - assert (G : forall l r, rb_inorder (rb_graft l r)
                            = rb_inorder l ++ rb_inorder r).
    { induction l as [|c a IHa n b IHb]; intros r; simpl.
      - reflexivity.
      - rewrite IHb, <- app_assoc. reflexivity. }
    unfold seq_erase. intros x t.
    induction t as [|c l IHl n r IHr]; simpl.
    + reflexivity.
    + rewrite filter_app. simpl.
      destruct (Nat.eqb n x); simpl.
      * rewrite G, IHl, IHr. reflexivity.
      * rewrite IHl, IHr. reflexivity.
Defined.

(** ** Interval sets as lists of ranges *)

(** The addresses a list of ranges covers. *)
Definition covers (l : list (Z * Z)) (x : Z) : Prop :=
  exists r, In r l /\ fst r <= x < snd r.

Definition coversb (l : list (Z * Z)) (x : Z) : bool :=
  existsb (fun r => (fst r <=? x) && (x <? snd r)) l.

(** Every earlier range ends strictly below the begin of every later one:
    the ranges neither overlap nor touch, and they are listed by
    increasing begin. *)
Fixpoint separated (l : list (Z * Z)) : Prop :=
  match l with
  | [] => True
  | r :: l' => Forall (fun r' => snd r < fst r') l' /\ separated l'
  end.

(** The invariant of an interval set: non-empty ranges, pairwise disjoint
    and non-adjacent, in increasing order. *)
Definition interval_set (l : list (Z * Z)) : Prop :=
  Forall (fun r => fst r < snd r) l /\ separated l.

(** The same with empty ranges [[a, a)] allowed. *)
Definition ordered_set (l : list (Z * Z)) : Prop :=
  Forall (fun r => fst r <= snd r) l /\ separated l.

(** The ranges stored in one of the two sets of a state. *)
Definition set_ranges (s : balloc_state) (tr : tree_ref) : list (Z * Z) :=
  __balloc_dump_ranges (balloc_nodes s) (get_tree tr s).

Definition covered (s : balloc_state) (tr : tree_ref) (x : Z) : Prop :=
  covers (set_ranges s tr) x.

(** Where the nodes of the pool are. *)
Definition all_nodes (s : balloc_state) : list nat :=
  rb_inorder (free_ranges s) ++ rb_inorder (memory_map s)
  ++ balloc_free_list s.

(** Every slot of the pool is in exactly one place: linked into one of the
    trees or on the free list. *)
Definition pool_invariant (s : balloc_state) : Prop :=
  Permutation (all_nodes s) (seq 0 BALLOC_MAX_RANGES).

(** ** The operations seen on the in-order sequence

    A set is viewed as the list of its nodes in order, each with its slot
    and its range.  [v_add] is [__balloc_add_range] on that list: the new
    node goes before the first node whose begin is not below [from], then
    absorbs its predecessor and its successor as the code does.  The
    second component lists the slots given back to the pool, the last one
    freed first. *)
Abbreviation vnode := (nat * (Z * Z))%type (only parsing).

Definition vbegin (x : vnode) : Z := fst (snd x).
Definition vend (x : vnode) : Z := snd (snd x).

Definition view_of (nodes : nat -> memory_node) (l : list nat) : list vnode :=
  map (fun n => (n, (begin (nodes n), end_ (nodes n)))) l.

Definition set_view (s : balloc_state) (tr : tree_ref) : list vnode :=
  view_of (balloc_nodes s) (rb_inorder (get_tree tr s)).

Fixpoint v_split (from : Z) (v : list vnode) : list vnode * list vnode :=
  match v with
  | [] => ([], [])
  | x :: v' =>
      if vbegin x <? from
      then (x :: fst (v_split from v'), snd (v_split from v'))
      else ([], v)
  end.

(** The two merges, on the nodes before and after the new one; [nr] is
    the range the new node holds when the merge is tried. *)
Definition v_absorb_prev (a : list vnode) (nr : Z * Z)
  : list vnode * (Z * Z) * list nat :=
  match rev a with
  | [] => (a, nr, [])
  | p :: ra =>
      if fst nr <=? vend p
      then (rev ra,
            (vbegin p, if snd nr <? vend p then vend p else snd nr),
            [fst p])
      else (a, nr, [])
  end.

Definition v_absorb_next (b : list vnode) (nr : Z * Z)
  : list vnode * (Z * Z) * list nat :=
  match b with
  | [] => (b, nr, [])
  | q :: b1 =>
      if vbegin q <=? snd nr
      then (b1, (fst nr, vend q), [fst q])
      else (b, nr, [])
  end.

Definition v_add (v : list vnode) (new : nat) (from to : Z)
  : list vnode * list nat :=
  let '(a', nr1, f1) := v_absorb_prev (fst (v_split from v)) (from, to) in
  let '(b', nr2, f2) := v_absorb_next (snd (v_split from v)) nr1 in
  (a' ++ (new, nr2) :: b', f2 ++ f1).

(** What [__balloc_remove_range] leaves of one stored range. *)
Definition cut (from to : Z) (r : Z * Z) : list (Z * Z) :=
  if (from <? snd r) && (fst r <? to)
  then (if fst r <? from then [(fst r, from)] else [])
       ++ (if to <? snd r then [(to, snd r)] else [])
  else [r].

Definition cut_list (from to : Z) (l : list (Z * Z)) : list (Z * Z) :=
  if from =? to then l else flat_map (cut from to) l.

(** ** Sequences of calls *)

(** A call of one of the two range mutators on a given set, and whether
    its arguments meet what the mutator requires. *)
Inductive set_op :=
| Op_add_range (from to : Z)
| Op_remove_range (from to : Z).

Definition set_op_ok (o : set_op) : Prop :=
  match o with
  | Op_add_range from to => from < to
  | Op_remove_range from to => from <= to
  end.

Definition apply_set_op (R : rbtree_lib) (tr : tree_ref) (o : set_op)
  (s : balloc_state) : outcome balloc_state :=
  match o with
  | Op_add_range from to => __balloc_add_range R tr from to s
  | Op_remove_range from to => __balloc_remove_range R tr from to s
  end.

Fixpoint run_set_ops (R : rbtree_lib) (tr : tree_ref) (ops : list set_op)
  (s : balloc_state) : outcome balloc_state :=
  match ops with
  | [] => Done s
  | o :: rest => s1 <- apply_set_op R tr o s ;; run_set_ops R tr rest s1
  end.

(** The operations that other parts of the kernel call once the allocator
    is set up, with arbitrary arguments. *)
Inductive balloc_call :=
| Call_add_range (tr : tree_ref) (from to : Z)
| Call_remove_range (tr : tree_ref) (from to : Z)
| Call_alloc (size align from to : Z)
| Call_balloc_alloc (size from to : Z)
| Call_balloc_free (b e : Z).

Definition do_call (R : rbtree_lib) (c : balloc_call) (s : balloc_state)
  : outcome balloc_state :=
  match c with
  | Call_add_range tr from to => __balloc_add_range R tr from to s
  | Call_remove_range tr from to => __balloc_remove_range R tr from to s
  | Call_alloc size align from to =>
      r <- __balloc_alloc R size align from to s ;; Done (snd r)
  | Call_balloc_alloc size from to =>
      r <- balloc_alloc R size from to s ;; Done (snd r)
  | Call_balloc_free b e => balloc_free R b e s
  end.

(** The states at the boundaries of operations: the pool has just been
    initialised, [balloc_setup] has completed, or a later call has
    completed. *)
Inductive at_boundary (R : rbtree_lib) : balloc_state -> Prop :=
| boundary_nodes : at_boundary R (balloc_setup_nodes boot_state)
| boundary_setup (info : mboot_info) (kbegin kend : Z) (im : Z * Z)
    (s : balloc_state) :
    balloc_setup R info kbegin kend im boot_state = Done s ->
    at_boundary R s
| boundary_call (c : balloc_call) (s s' : balloc_state) :
    at_boundary R s -> do_call R c s = Done s' -> at_boundary R s'.

(** ** What the claims speak about *)

(** [align] is a power of two. *)
Definition power_of_two (align : Z) : Prop :=
  exists k, 0 <= k /\ align = 2 ^ k.

(** None of the sums that [__balloc_alloc] forms from a request can leave
    the 64-bit range. *)
Definition request_fits (size align from to : Z) : Prop :=
  0 <= from /\ 0 <= to
  /\ from + align + size <= 2 ^ 64 /\ to + align + size <= 2 ^ 64.

(** [a] is an address at which the request could be served from the
    ranges [l]. *)
Definition feasible (l : list (Z * Z)) (size align from to a : Z) : Prop :=
  (align | a) /\ from <= a /\ a + size <= to
  /\ forall x, a <= x < a + size -> covers l x.

(** An entry of the boot memory map describes a range of 64-bit
    addresses. *)
Definition entry_fits (e : mboot_mmap_entry) : Prop :=
  0 <= entry_addr e /\ 0 <= entry_length e
  /\ entry_addr e + entry_length e < 2 ^ 64.

(** [x] lies in a map entry that is not available, in the boot module or
    in the kernel image. *)
Definition busy (info : mboot_info) (kbegin kend : Z) (im : Z * Z) (x : Z)
  : Prop :=
  (exists e, In e (mmap info) /\ entry_type e <> 1
             /\ entry_addr e <= x < entry_addr e + entry_length e)
  \/ fst im <= x < snd im
  \/ kbegin <= x < kend.

(** A state in which [free_ranges] holds the single range [[b, e)] in the
    slot that the first allocation after [balloc_setup_nodes] takes, and
    [memory_map] is empty. *)
Definition single_range (b e : Z) : balloc_state :=
  mk_state (fun n => if Nat.eqb n 127 then mk_node b e else mk_node 0 0)
           (rev (seq 0 127))
           (rb_fork RB_BLACK rb_null 127 rb_null)
           rb_null.

(** The pieces of one iteration of the search loop of [__balloc_alloc],
    named for the proofs: the clipped bounds [b] and [e] of a candidate,
    the address [(b + mask) & ~mask], and the test [addr + size <= e]. *)
Definition clip_begin (nodes : nat -> memory_node) (from : Z) (p : nat) : Z :=
  if from <? begin (nodes p) then begin (nodes p) else from.

Definition clip_end (nodes : nat -> memory_node) (to : Z) (p : nat) : Z :=
  if end_ (nodes p) <? to then end_ (nodes p) else to.

Definition aligned_addr (align b : Z) : Z :=
  Z.land (wrap64 (b + wrap64 (align - 1)))
         (wrap64 (Z.lnot (wrap64 (align - 1)))).

Definition alloc_test (nodes : nat -> memory_node) (size align from to : Z)
  (p : nat) : bool :=
  wrap64 (aligned_addr align (clip_begin nodes from p) + size)
  <=? clip_end nodes to p.

(** A boolean test that the slots of a list are pairwise different. *)
Fixpoint distinct (l : list nat) : bool :=
  match l with
  | [] => true
  | n :: l' => negb (existsb (Nat.eqb n) l') && distinct l'
  end.

(** ** Basic facts: sequences of slots *)

Lemma seq_erase_notin (n : nat) (l : list nat) :
  ~ In n l -> seq_erase n l = l.
Proof.
  unfold seq_erase. induction l as [|m l IH]; simpl; intros H.
  - reflexivity.
  - destruct (Nat.eqb_spec m n) as [->|Hne]; simpl.
    + exfalso. apply H. now left.
    + f_equal. apply IH. intros Hin. apply H. now right.
Qed.

Lemma seq_erase_app (n : nat) (a b : list nat) :
  seq_erase n (a ++ b) = seq_erase n a ++ seq_erase n b.
Proof. unfold seq_erase. apply filter_app. Qed.

Lemma seq_erase_mid (n : nat) (a b : list nat) :
  ~ In n a -> ~ In n b -> seq_erase n (a ++ n :: b) = a ++ b.
Proof.
  intros Ha Hb. rewrite seq_erase_app. rewrite (seq_erase_notin n a Ha).
  unfold seq_erase at 1. simpl. rewrite Nat.eqb_refl. simpl.
  fold (seq_erase n b). now rewrite (seq_erase_notin n b Hb).
Qed.

Lemma seq_erase_incl (n m : nat) (l : list nat) :
  In m (seq_erase n l) -> In m l /\ m <> n.
Proof.
  unfold seq_erase. rewrite filter_In. intros [H1 H2]. split; [exact H1|].
  destruct (Nat.eqb_spec m n); [discriminate|assumption].
Qed.

Lemma seq_erase_perm (n : nat) (l : list nat) :
  In n l -> NoDup l -> Permutation (n :: seq_erase n l) l.
Proof.
  intros Hin Hnd. apply in_split in Hin. destruct Hin as (a & b & ->).
  apply NoDup_remove_2 in Hnd.
  rewrite seq_erase_mid.
  - apply Permutation_middle.
  - intros H. apply Hnd. apply in_or_app. now left.
  - intros H. apply Hnd. apply in_or_app. now right.
Qed.

Lemma seq_next_mid (n : nat) (a b : list nat) :
  ~ In n a -> seq_next n (a ++ n :: b) = hd_error b.
Proof.
  induction a as [|m a IH]; simpl; intros H.
  - now rewrite Nat.eqb_refl.
  - destruct (Nat.eqb_spec m n) as [->|Hne].
    + exfalso. apply H. now left.
    + apply IH. intros Hin. apply H. now right.
Qed.

Lemma seq_next_in (n p : nat) (l : list nat) :
  seq_next n l = Some p -> In p l.
Proof.
  induction l as [|m l IH]; simpl; [discriminate|].
  destruct (Nat.eqb m n).
  - destruct l; simpl; [discriminate|]. intros [= ->]. right. now left.
  - intros H. right. now apply IH.
Qed.

Lemma seq_prev_in (n p : nat) (l : list nat) :
  seq_prev n l = Some p -> In p l.
Proof.
  induction l as [|m l IH]; simpl; [discriminate|].
  destruct l as [|k l]; [discriminate|].
  destruct (Nat.eqb k n).
  - intros [= ->]. now left.
  - intros H. right. now apply IH.
Qed.

Lemma seq_prev_head (n : nat) (b : list nat) :
  ~ In n b -> seq_prev n (n :: b) = None.
Proof.
  assert (G : forall l m, ~ In n l -> seq_prev n (m :: l) = None).
  { induction l as [|k l IH]; intros m H; simpl; [reflexivity|].
    destruct (Nat.eqb_spec k n) as [->|Hne].
    - exfalso. apply H. now left.
    - apply IH. intros Hin. apply H. now right. }
  apply G.
Qed.

Lemma seq_prev_mid (n p : nat) (a b : list nat) :
  ~ In n a -> p <> n -> seq_prev n (a ++ p :: n :: b) = Some p.
Proof.
  induction a as [|m a IH]; intros Ha Hp.
  - simpl. now rewrite Nat.eqb_refl.
  - change ((m :: a) ++ p :: n :: b) with (m :: (a ++ p :: n :: b)).
    assert (Hm : m <> n) by (intros ->; apply Ha; now left).
    assert (Ha' : ~ In n a) by (intros Hin; apply Ha; now right).
    specialize (IH Ha' Hp).
    destruct a as [|k a]; simpl in *.
    + destruct (Nat.eqb_spec p n); [contradiction|].
      now rewrite Nat.eqb_refl.
    + destruct (Nat.eqb_spec k n) as [->|Hk].
      * exfalso. apply Ha'. now left.
      * exact IH.
Qed.

Lemma seq_from_mid (n : nat) (a b : list nat) :
  ~ In n a -> seq_from n (a ++ n :: b) = n :: b.
Proof.
  induction a as [|m a IH]; simpl; intros H.
  - now rewrite Nat.eqb_refl.
  - destruct (Nat.eqb_spec m n) as [->|Hne].
    + exfalso. apply H. now left.
    + apply IH. intros Hin. apply H. now right.
Qed.

Lemma seq_from_notin (n : nat) (l : list nat) :
  ~ In n l -> seq_from n l = [].
Proof.
  induction l as [|m l IH]; simpl; intros H; [reflexivity|].
  destruct (Nat.eqb_spec m n) as [->|Hne].
  - exfalso. apply H. now left.
  - apply IH. intros Hin. apply H. now right.
Qed.

Lemma existsb_eqb_in (p : nat) (l : list nat) :
  existsb (Nat.eqb p) l = true <-> In p l.
Proof.
  rewrite existsb_exists. split.
  - intros (x & Hin & Heq). apply Nat.eqb_eq in Heq. now subst.
  - intros Hin. exists p. split; [assumption|apply Nat.eqb_refl].
Qed.

(** ** Basic facts: lists of ranges *)

Lemma separated_app (l1 l2 : list (Z * Z)) :
  separated (l1 ++ l2) <->
  separated l1 /\ separated l2
  /\ Forall (fun a => Forall (fun b => snd a < fst b) l2) l1.
Proof.
  induction l1 as [|r l1 IH]; simpl.
  - split; [intros H; repeat split; auto|tauto].
  - rewrite Forall_app, IH. split.
    + intros [[H1 H2] (H3 & H4 & H5)]. repeat split; auto.
    + intros [[H1 H3] [H4 H5]]. inversion H5; subst. repeat split; auto.
Qed.

Lemma ordered_set_app (l1 l2 : list (Z * Z)) :
  ordered_set (l1 ++ l2) <->
  ordered_set l1 /\ ordered_set l2
  /\ Forall (fun a => Forall (fun b => snd a < fst b) l2) l1.
Proof.
  unfold ordered_set. rewrite Forall_app, separated_app. tauto.
Qed.

Lemma interval_set_ordered (l : list (Z * Z)) :
  interval_set l -> ordered_set l.
Proof.
  intros [H1 H2]. split; [|exact H2].
  eapply Forall_impl; [|exact H1]. simpl. intros r Hr. lia.
Qed.

Lemma ordered_set_cons (r : Z * Z) (l : list (Z * Z)) :
  ordered_set (r :: l) <->
  fst r <= snd r /\ Forall (fun b => snd r < fst b) l /\ ordered_set l.
Proof.
  unfold ordered_set. simpl. rewrite Forall_cons_iff. tauto.
Qed.

Lemma ordered_set_nil : ordered_set [].
Proof. split; constructor. Qed.

(** In an ordered set the begins and the ends increase along the list. *)
Lemma ordered_set_before (l1 l2 : list (Z * Z)) (r : Z * Z) :
  ordered_set (l1 ++ r :: l2) ->
  Forall (fun a => fst a <= snd a /\ snd a < fst r) l1.
Proof.
  rewrite ordered_set_app. intros ([H1 _] & _ & H3).
  rewrite Forall_forall in *. intros a Ha. split.
  - now apply H1.
  - specialize (H3 a Ha). now inversion H3.
Qed.

Lemma ordered_set_after (l1 l2 : list (Z * Z)) (r : Z * Z) :
  ordered_set (l1 ++ r :: l2) ->
  fst r <= snd r /\ Forall (fun b => snd r < fst b /\ fst b <= snd b) l2.
Proof.
  rewrite ordered_set_app, ordered_set_cons.
  intros (_ & (H1 & H2 & [H3 _]) & _). split; [exact H1|].
  rewrite Forall_forall in *. intros b Hb. split; auto.
Qed.

Lemma covers_app (l1 l2 : list (Z * Z)) (x : Z) :
  covers (l1 ++ l2) x <-> covers l1 x \/ covers l2 x.
Proof.
  unfold covers. split.
  - intros (r & Hin & Hr). apply in_app_or in Hin.
    destruct Hin; [left|right]; exists r; auto.
  - intros [(r & Hin & Hr)|(r & Hin & Hr)]; exists r; split; auto;
      apply in_or_app; auto.
Qed.

Lemma covers_cons (r : Z * Z) (l : list (Z * Z)) (x : Z) :
  covers (r :: l) x <-> fst r <= x < snd r \/ covers l x.
Proof.
  unfold covers. simpl. split.
  - intros (r' & [<-|Hin] & Hr); [now left|right; eauto].
  - intros [H|(r' & Hin & Hr)]; eauto.
Qed.

Lemma covers_nil (x : Z) : ~ covers [] x.
Proof. intros (r & [] & _). Qed.

Lemma coversb_covers (l : list (Z * Z)) (x : Z) :
  coversb l x = true <-> covers l x.
Proof.
  unfold coversb, covers. rewrite existsb_exists.
  split; intros (r & Hin & H); exists r; split; auto.
  - apply andb_true_iff in H. lia.
  - apply andb_true_iff. lia.
Qed.

(** ** Basic facts: views *)

Lemma view_of_app (nd : nat -> memory_node) (a b : list nat) :
  view_of nd (a ++ b) = view_of nd a ++ view_of nd b.
Proof. apply map_app. Qed.

Lemma view_of_ids (nd : nat -> memory_node) (l : list nat) :
  map fst (view_of nd l) = l.
Proof.
  unfold view_of. rewrite map_map. simpl. apply map_id.
Qed.

Lemma view_of_ranges (nd : nat -> memory_node) (t : rb_node) :
  map snd (view_of nd (rb_inorder t)) = __balloc_dump_ranges nd t.
Proof.
  unfold view_of, __balloc_dump_ranges. rewrite map_map. reflexivity.
Qed.

Lemma set_view_ranges (s : balloc_state) (tr : tree_ref) :
  map snd (set_view s tr) = set_ranges s tr.
Proof. apply view_of_ranges. Qed.

Lemma set_view_ids (s : balloc_state) (tr : tree_ref) :
  map fst (set_view s tr) = rb_inorder (get_tree tr s).
Proof. apply view_of_ids. Qed.

Lemma view_of_ext (nd nd' : nat -> memory_node) (l : list nat) :
  (forall n, In n l -> nd' n = nd n) -> view_of nd' l = view_of nd l.
Proof.
  intros H. unfold view_of. apply map_ext_in. intros n Hn.
  now rewrite (H n Hn).
Qed.

Lemma view_of_split (nd : nat -> memory_node) (l : list nat)
  (a b : list vnode) :
  view_of nd l = a ++ b ->
  l = map fst a ++ map fst b
  /\ a = view_of nd (map fst a) /\ b = view_of nd (map fst b).
Proof.
  revert a. induction l as [|n l IH]; intros a H.
  - symmetry in H. apply app_eq_nil in H. destruct H as [-> ->]. auto.
  - destruct a as [|x a].
    + simpl in H. subst b. simpl. rewrite view_of_ids. auto.
    + simpl in H. injection H as Hx H. subst x.
      destruct (IH _ H) as (E1 & E2 & E3). simpl.
      rewrite <- E1, <- E2. auto.
Qed.

Lemma v_split_app (from : Z) (v : list vnode) :
  fst (v_split from v) ++ snd (v_split from v) = v.
Proof.
  induction v as [|x v IH]; simpl; [reflexivity|].
  destruct (vbegin x <? from); simpl; [now rewrite IH|reflexivity].
Qed.

Lemma v_split_all (from : Z) (x y : list vnode) :
  Forall (fun n => vbegin n < from) x ->
  v_split from (x ++ y)
  = (x ++ fst (v_split from y), snd (v_split from y)).
Proof.
  induction x as [|n x IH]; simpl; intros H.
  - now destruct (v_split from y).
  - inversion H; subst.
    destruct (Z.ltb_spec (vbegin n) from); [|lia].
    now rewrite IH.
Qed.

Lemma v_split_stop (from : Z) (x y : list vnode) (n : vnode) :
  from <= vbegin n ->
  v_split from (x ++ n :: y)
  = (fst (v_split from x), snd (v_split from x) ++ n :: y).
Proof.
  intros Hn. induction x as [|m x IH]; simpl.
  - destruct (Z.ltb_spec (vbegin n) from); [lia|reflexivity].
  - destruct (vbegin m <? from); [|reflexivity].
    now rewrite IH.
Qed.

Lemma v_split_exact (from : Z) (a b : list vnode) :
  Forall (fun n => vbegin n < from) a ->
  Forall (fun n => from <= vbegin n) b ->
  v_split from (a ++ b) = (a, b).
Proof.
  intros Ha Hb. rewrite (v_split_all from a b Ha).
  destruct b as [|n b]; simpl.
  - now rewrite app_nil_r.
  - inversion Hb; subst.
    destruct (Z.ltb_spec (vbegin n) from); [lia|].
    simpl. now rewrite app_nil_r.
Qed.

(** ** The two descents on an ordered tree *)

Lemma link_descent_split (nd : nat -> memory_node) (from : Z) (new : nat)
  (t : rb_node) :
  exists a b,
    rb_inorder t = a ++ b
    /\ rb_inorder (rb_link_descent nd from new t) = a ++ new :: b.
Proof.
  induction t as [|c l IHl n r IHr]; simpl.
  - exists [], []. auto.
  - destruct (begin (nd n) <? from); simpl.
    + destruct IHr as (a & b & E1 & E2).
      exists (rb_inorder l ++ n :: a), b. rewrite E1, E2.
      rewrite <- !app_assoc. auto.
    + destruct IHl as (a & b & E1 & E2).
      exists a, (b ++ n :: rb_inorder r). rewrite E1, E2.
      rewrite <- !app_assoc. auto.
Qed.

Lemma link_descent_view (nd : nat -> memory_node) (from : Z) (new : nat)
  (t : rb_node) :
  ordered_set (__balloc_dump_ranges nd t) ->
  rb_inorder (rb_link_descent nd from new t)
  = map fst (fst (v_split from (view_of nd (rb_inorder t))))
    ++ new :: map fst (snd (v_split from (view_of nd (rb_inorder t)))).
Proof.
  rewrite <- view_of_ranges.
  induction t as [|c l IHl n r IHr]; simpl; intros Hord.
  - reflexivity.
  - rewrite view_of_app in *. simpl in *. rewrite map_app in Hord.
    simpl in Hord.
    destruct (Z.ltb_spec (begin (nd n)) from) as [Hlt|Hge]; simpl.
    + pose proof (ordered_set_before _ _ _ Hord) as Hb.
      apply ordered_set_app in Hord. destruct Hord as (_ & Hr & _).
      apply ordered_set_cons in Hr. destruct Hr as (_ & _ & Hr).
      rewrite (IHr Hr).
      change (view_of nd (rb_inorder l)
              ++ (n, (begin (nd n), end_ (nd n))) :: view_of nd (rb_inorder r))
        with (view_of nd (rb_inorder l)
              ++ [(n, (begin (nd n), end_ (nd n)))]
              ++ view_of nd (rb_inorder r)).
      rewrite app_assoc. rewrite v_split_all.
      * simpl. rewrite !map_app. simpl. rewrite view_of_ids.
        rewrite <- !app_assoc. reflexivity.
      * apply Forall_app. split.
        -- rewrite Forall_forall in *. intros x Hx.
           assert (Hx' : In (snd x) (map snd (view_of nd (rb_inorder l))))
             by now apply in_map.
           specialize (Hb _ Hx'). simpl in Hb. unfold vbegin. lia.
        -- constructor; [exact Hlt|constructor].
    + apply ordered_set_app in Hord. destruct Hord as (Hl & _ & _).
      rewrite (IHl Hl). rewrite v_split_stop by exact Hge. simpl.
      rewrite !map_app. simpl. rewrite view_of_ids.
      rewrite <- !app_assoc. reflexivity.
Qed.

Lemma find_app {A : Type} (f : A -> bool) (q k : list A) :
  find f (q ++ k)
  = match find f q with
    | Some p => Some p
    | None => find f k
    end.
Proof.
  induction q as [|m q IH]; simpl; [reflexivity|].
  destruct (f m); [reflexivity|exact IH].
Qed.

Lemma find_none_all {A : Type} (f : A -> bool) (q : list A) :
  Forall (fun x => f x = false) q -> find f q = None.
Proof.
  induction 1 as [|m q Hm _ IH]; simpl; [reflexivity|].
  now rewrite Hm.
Qed.

Lemma first_above_find (nd : nat -> memory_node) (from : Z) (t : rb_node)
  (ptr : option nat) :
  ordered_set (__balloc_dump_ranges nd t) ->
  rb_first_above nd from t ptr
  = match find (fun n => from <? end_ (nd n)) (rb_inorder t) with
    | Some p => Some p
    | None => ptr
    end.
Proof.
  rewrite <- view_of_ranges. revert ptr.
  induction t as [|c l IHl n r IHr]; simpl; intros ptr Hord.
  - reflexivity.
  - rewrite view_of_app, map_app in Hord. simpl in Hord.
    assert (Hl : ordered_set (map snd (view_of nd (rb_inorder l)))).
    { apply ordered_set_app in Hord. tauto. }
    assert (Hr : ordered_set (map snd (view_of nd (rb_inorder r)))).
    { apply ordered_set_app in Hord. destruct Hord as (_ & Hr & _).
      apply ordered_set_cons in Hr. tauto. }
    rewrite find_app. simpl.
    destruct (Z.ltb_spec from (end_ (nd n))) as [Hlt|Hge].
    + rewrite (IHl _ Hl).
      now destruct (find (fun n => from <? end_ (nd n)) (rb_inorder l)).
    + rewrite (IHr _ Hr).
      pose proof (ordered_set_before _ _ _ Hord) as Hb. simpl in Hb.
      pose proof (proj1 (ordered_set_after _ _ _ Hord)) as Hn. simpl in Hn.
      rewrite (find_none_all (fun n => from <? end_ (nd n)) (rb_inorder l)).
      * reflexivity.
      * unfold view_of in Hb. rewrite map_map in Hb.
        rewrite Forall_map in Hb. simpl in Hb.
        eapply Forall_impl; [|exact Hb]. simpl. intros m Hm.
        apply Z.ltb_ge. lia.
Qed.

(** ** Basic facts: the state *)

Lemma get_set_tree (tr : tree_ref) (t : rb_node) (s : balloc_state) :
  get_tree tr (set_tree tr t s) = t.
Proof. now destruct tr. Qed.

Lemma get_set_tree_other (tr : tree_ref) (t : rb_node) (s : balloc_state) :
  get_tree (other_tree tr) (set_tree tr t s) = get_tree (other_tree tr) s.
Proof. now destruct tr. Qed.

Lemma nodes_set_tree (tr : tree_ref) (t : rb_node) (s : balloc_state) :
  balloc_nodes (set_tree tr t s) = balloc_nodes s.
Proof. now destruct tr. Qed.

Lemma free_list_set_tree (tr : tree_ref) (t : rb_node) (s : balloc_state) :
  balloc_free_list (set_tree tr t s) = balloc_free_list s.
Proof. now destruct tr. Qed.

Lemma get_tree_set_node (tr : tree_ref) (n : nat) (m : memory_node)
  (s : balloc_state) :
  get_tree tr (set_node n m s) = get_tree tr s.
Proof. now destruct tr. Qed.

Lemma get_tree_free_node (tr : tree_ref) (n : nat) (s : balloc_state) :
  get_tree tr (balloc_free_node n s) = get_tree tr s.
Proof. now destruct tr. Qed.

Lemma nodes_set_node_same (n : nat) (m : memory_node) (s : balloc_state) :
  balloc_nodes (set_node n m s) n = m.
Proof. simpl. now rewrite Nat.eqb_refl. Qed.

Lemma nodes_set_node_other (n k : nat) (m : memory_node) (s : balloc_state) :
  k <> n -> balloc_nodes (set_node n m s) k = balloc_nodes s k.
Proof. intros H. simpl. now destruct (Nat.eqb_spec k n). Qed.

Lemma all_nodes_of (tr : tree_ref) (s : balloc_state) :
  Permutation (all_nodes s)
    (rb_inorder (get_tree tr s)
     ++ rb_inorder (get_tree (other_tree tr) s) ++ balloc_free_list s).
Proof.
  destruct tr; simpl; unfold all_nodes.
  - reflexivity.
  - apply Permutation_app_swap_app.
Qed.

Lemma all_nodes_tree_nodup (tr : tree_ref) (s : balloc_state) :
  NoDup (all_nodes s) -> NoDup (rb_inorder (get_tree tr s)).
Proof.
  intros H. rewrite (all_nodes_of tr) in H.
  now apply NoDup_app_remove_r in H.
Qed.

(** ** The pool: every mutator moves nodes between the three places and
    neither loses nor duplicates one *)

Section Pool.

Variable R : rbtree_lib.

Lemma absorb_prev_nodes (tr : tree_ref) (new : nat) (s : balloc_state) :
  NoDup (all_nodes s) ->
  Permutation (all_nodes (absorb_prev R tr new s)) (all_nodes s).
Proof.
  intros Hnd. unfold absorb_prev, rb_prev.
  destruct (seq_prev new (rb_inorder (get_tree tr s))) as [prev|] eqn:Ep;
    [|reflexivity].
  destruct (_ <=? _); [|reflexivity].
  apply seq_prev_in in Ep.
  match goal with
  | |- Permutation (all_nodes (balloc_free_node prev (set_tree tr _ ?s2))) _ =>
      assert (Ht : forall tr', get_tree tr' s2 = get_tree tr' s)
        by (intros tr'; destruct (_ <? _);
            now rewrite ?get_tree_set_node);
      assert (Hf : balloc_free_list s2 = balloc_free_list s)
        by (now destruct (_ <? _));
      generalize dependent s2
  end.
  intros s2 Ht Hf.
  rewrite (all_nodes_of tr), (all_nodes_of tr s).
  rewrite !get_tree_free_node, get_set_tree, get_set_tree_other.
  simpl. rewrite free_list_set_tree, rb_erase_inorder, !Ht, Hf.
  rewrite <- (seq_erase_perm prev (rb_inorder (get_tree tr s))) at 2;
    [|exact Ep|now apply all_nodes_tree_nodup].
  simpl. rewrite <- Permutation_middle.
  rewrite (Permutation_app_comm (seq_erase _ _)). simpl.
  apply perm_skip. apply Permutation_app_comm.
Qed.

Lemma absorb_next_nodes (tr : tree_ref) (new : nat) (s : balloc_state) :
  NoDup (all_nodes s) ->
  Permutation (all_nodes (absorb_next R tr new s)) (all_nodes s).
Proof.
  intros Hnd. unfold absorb_next, rb_next.
  destruct (seq_next new (rb_inorder (get_tree tr s))) as [next|] eqn:Ep;
    [|reflexivity].
  destruct (_ <=? _); [|reflexivity].
  apply seq_next_in in Ep.
  rewrite (all_nodes_of tr), (all_nodes_of tr s).
  rewrite !get_tree_free_node, get_set_tree, get_set_tree_other.
  simpl. rewrite free_list_set_tree, rb_erase_inorder.
  rewrite !get_tree_set_node. simpl.
  rewrite <- (seq_erase_perm next (rb_inorder (get_tree tr s))) at 2;
    [|exact Ep|now apply all_nodes_tree_nodup].
  simpl. rewrite <- Permutation_middle.
  rewrite (Permutation_app_comm (seq_erase _ _)). simpl.
  apply perm_skip. apply Permutation_app_comm.
Qed.

Lemma add_range_nodes (tr : tree_ref) (from to : Z) (s s' : balloc_state) :
  NoDup (all_nodes s) ->
  __balloc_add_range R tr from to s = Done s' ->
  Permutation (all_nodes s') (all_nodes s).
Proof.
  intros Hnd. unfold __balloc_add_range, balloc_alloc_node.
  destruct (balloc_free_list s) as [|new fl] eqn:Ef; simpl; [discriminate|].
  intros [= <-].
  match goal with
  | |- Permutation (all_nodes (absorb_next R tr new (absorb_prev R tr new ?s3))) _ =>
      assert (H3 : Permutation (all_nodes s3) (all_nodes s)); [|
        assert (N3 : NoDup (all_nodes s3))
          by (eapply Permutation_NoDup; [symmetry; exact H3|exact Hnd]);
        generalize dependent s3]
  end.
  - rewrite (all_nodes_of tr), (all_nodes_of tr s).
    rewrite get_set_tree, get_set_tree_other, free_list_set_tree.
    rewrite rb_insert_inorder, !get_tree_set_node. simpl.
    destruct (link_descent_split (balloc_nodes s) from new
                (get_tree tr (mk_state (balloc_nodes s) fl (free_ranges s)
                                       (memory_map s))))
      as (a & b & E1 & E2).
    rewrite E2. rewrite Ef.
    replace (get_tree tr s) with (get_tree tr
      (mk_state (balloc_nodes s) fl (free_ranges s) (memory_map s)))
      by now destruct tr.
    rewrite E1.
    replace (get_tree (other_tree tr)
               (mk_state (balloc_nodes s) fl (free_ranges s) (memory_map s)))
      with (get_tree (other_tree tr) s) by now destruct tr.
    rewrite <- !app_assoc. apply Permutation_app_head. simpl.
    apply perm_trans with (new :: b ++ rb_inorder (get_tree (other_tree tr) s) ++ fl).
    + reflexivity.
    + rewrite app_assoc. rewrite (app_assoc b).
      apply Permutation_middle.
  - intros s3 H3 N3.
    rewrite absorb_next_nodes.
    + rewrite absorb_prev_nodes; assumption.
    + eapply Permutation_NoDup; [symmetry; apply absorb_prev_nodes|];
        assumption.
Qed.

End Pool.

(** ** [__balloc_add_range] on the view of an ordered set *)

Lemma view_of_eq (nd : nat -> memory_node) (l : list nat) (v : list vnode) :
  view_of nd l = v <->
  l = map fst v
  /\ Forall (fun x => snd x = (begin (nd (fst x)), end_ (nd (fst x)))) v.
Proof.
  split.
  - intros <-. rewrite view_of_ids. split; [reflexivity|].
    unfold view_of. rewrite Forall_map. simpl.
    apply Forall_forall. reflexivity.
  - intros [-> H]. unfold view_of. rewrite map_map.
    induction H as [|x v Hx _ IH]; simpl; [reflexivity|].
    rewrite IH, <- Hx. now destruct x.
Qed.

Lemma rev_eq_cons {A : Type} (a ra : list A) (p : A) :
  rev a = p :: ra -> a = rev ra ++ [p].
Proof.
  intros H. rewrite <- (rev_involutive a), H. reflexivity.
Qed.

Lemma v_absorb_prev_cases (a a' : list vnode) (nr nr1 : Z * Z)
  (f1 : list nat) :
  v_absorb_prev a nr = (a', nr1, f1) ->
  (a' = a /\ nr1 = nr /\ f1 = []
   /\ forall a0 p, a = a0 ++ [p] -> vend p < fst nr)
  \/ (exists p, a = a' ++ [p] /\ fst nr <= vend p /\ f1 = [fst p]
       /\ nr1 = (vbegin p, Z.max (snd nr) (vend p))).
Proof.
  unfold v_absorb_prev. destruct (rev a) as [|p ra] eqn:Er.
  - intros [= <- <- <-]. left. repeat split; auto.
    intros a0 p ->. rewrite rev_app_distr in Er. discriminate.
  - apply rev_eq_cons in Er.
    destruct (Z.leb_spec (fst nr) (vend p)).
    + intros [= <- <- <-]. right. exists p. repeat split; auto.
      f_equal. destruct (Z.ltb_spec (snd nr) (vend p)); lia.
    + intros [= <- <- <-]. left. repeat split; auto.
      intros a0 p0 E. rewrite E in Er. apply app_inj_tail in Er.
      destruct Er as [_ ->]. assumption.
Qed.

Lemma v_absorb_next_cases (b b' : list vnode) (nr nr2 : Z * Z)
  (f2 : list nat) :
  v_absorb_next b nr = (b', nr2, f2) ->
  (b' = b /\ nr2 = nr /\ f2 = []
   /\ match b with [] => True | q :: _ => snd nr < vbegin q end)
  \/ (exists q, b = q :: b' /\ vbegin q <= snd nr /\ f2 = [fst q]
       /\ nr2 = (fst nr, vend q)).
Proof.
  unfold v_absorb_next. destruct b as [|q b1].
  - intros [= <- <- <-]. now left.
  - destruct (Z.leb_spec (vbegin q) (snd nr)).
    + intros [= <- <- <-]. right. exists q. repeat split; auto.
    + intros [= <- <- <-]. left. repeat split; auto.
Qed.

Section AddView.

Variable R : rbtree_lib.

Lemma absorb_prev_view (tr : tree_ref) (new : nat) (s : balloc_state)
  (a b a' : list vnode) (nr nr1 : Z * Z) (f1 : list nat) :
  set_view s tr = a ++ (new, nr) :: b ->
  NoDup (map fst (a ++ (new, nr) :: b)) ->
  v_absorb_prev a nr = (a', nr1, f1) ->
  set_view (absorb_prev R tr new s) tr = a' ++ (new, nr1) :: b
  /\ balloc_free_list (absorb_prev R tr new s) = f1 ++ balloc_free_list s
  /\ get_tree (other_tree tr) (absorb_prev R tr new s)
     = get_tree (other_tree tr) s
  /\ (forall n, n <> new ->
        balloc_nodes (absorb_prev R tr new s) n = balloc_nodes s n).
Proof.
  intros Hv Hnd Hab.
  pose proof Hv as Hv'. apply view_of_eq in Hv'. destruct Hv' as [Hids Hdat].
  rewrite map_app in Hids, Hnd. simpl in Hids, Hnd.
  assert (Hna : ~ In new (map fst a)).
  { apply NoDup_remove_2 in Hnd. intros H. apply Hnd, in_or_app. now left. }
  assert (Hnb : ~ In new (map fst b)).
  { apply NoDup_remove_2 in Hnd. intros H. apply Hnd, in_or_app. now right. }
  unfold absorb_prev, rb_prev. rewrite Hids.
  unfold v_absorb_prev in Hab.
  destruct (rev a) as [|p ra] eqn:Er.
  - assert (a = []) by (destruct a; [reflexivity|];
      apply (f_equal (@length _)) in Er; rewrite length_rev in Er;
      discriminate).
    subst a. injection Hab as <- <- <-. cbn [map app].
    rewrite seq_prev_head by exact Hnb. auto.
  - apply rev_eq_cons in Er. subst a.
    rewrite map_app in *. cbn [map app] in *.
    rewrite <- app_assoc in *. cbn [map app] in *.
    assert (Hpn : fst p <> new).
    { intros E. apply Hna. apply in_or_app. right. now left. }
    rewrite seq_prev_mid;
      [|intros H; apply Hna; apply in_or_app; now left|exact Hpn].
    apply Forall_app in Hdat. destruct Hdat as [Hda Hdp].
    inversion Hdp as [|? ? Ep Hdb]; subst.
    inversion Hdb as [|? ? En Hdb']; subst. cbn [fst snd] in En.
    assert (Evp : end_ (balloc_nodes s (fst p)) = vend p)
      by (unfold vend; now rewrite Ep).
    assert (Ebp : begin (balloc_nodes s (fst p)) = vbegin p)
      by (unfold vbegin; now rewrite Ep).
    assert (Ebn : begin (balloc_nodes s new) = fst nr) by now rewrite En.
    assert (Een : end_ (balloc_nodes s new) = snd nr) by now rewrite En.
    rewrite Ebn, Evp.
    destruct (fst nr <=? vend p);
      [|injection Hab as <- <- <-; rewrite <- app_assoc; repeat split; auto].
    injection Hab as <- <- <-.
    rewrite nodes_set_node_same. rewrite nodes_set_node_other by exact Hpn.
    simpl end_. rewrite Een, Evp, Ebp.
    cbn [begin end_].
    match goal with
    | |- context [rb_erase R (fst p) (get_tree tr ?X)] => set (s2 := X)
    end.
    assert (Ht : forall tr', get_tree tr' s2 = get_tree tr' s)
      by (intros tr'; unfold s2; destruct (_ <? _);
          now rewrite ?get_tree_set_node).
    assert (Hf : balloc_free_list s2 = balloc_free_list s)
      by (unfold s2; now destruct (_ <? _)).
    assert (Hn : forall n, n <> new -> balloc_nodes s2 n = balloc_nodes s n).
    { intros n Hn. unfold s2. destruct (_ <? _);
        now rewrite ?nodes_set_node_other by exact Hn. }
    assert (Hnew : balloc_nodes s2 new
                   = mk_node (vbegin p)
                       (if snd nr <? vend p then vend p else snd nr)).
    { unfold s2. destruct (_ <? _); now rewrite nodes_set_node_same. }
    clearbody s2.
    split; [|split; [|split]].
    + unfold set_view. apply view_of_eq.
      rewrite get_tree_free_node, get_set_tree, rb_erase_inorder, Ht, Hids.
      split.
      * rewrite map_app. cbn [map fst].
        apply NoDup_remove_2 in Hnd.
        apply seq_erase_mid.
        -- intros H. apply Hnd. apply in_or_app. now left.
        -- intros H. apply Hnd. apply in_or_app. now right.
      * cbn [balloc_nodes balloc_free_node]. rewrite nodes_set_tree.
        apply Forall_app. split; [|constructor].
        -- rewrite Forall_forall in *. intros x Hx.
           rewrite Hn; [now apply Hda|].
           intros E. apply Hna. apply in_or_app. left.
           rewrite <- E. now apply in_map.
        -- cbn [fst snd]. now rewrite Hnew.
        -- rewrite Forall_forall in *. intros x Hx.
           rewrite Hn; [now apply Hdb'|].
           intros E. apply Hnb. rewrite <- E. now apply in_map.
    + simpl. now rewrite free_list_set_tree, Hf.
    + now rewrite get_tree_free_node, get_set_tree_other, Ht.
    + intros n Hn'. simpl. rewrite nodes_set_tree. now apply Hn.
Qed.

Lemma absorb_next_view (tr : tree_ref) (new : nat) (s : balloc_state)
  (a b b' : list vnode) (nr nr2 : Z * Z) (f2 : list nat) :
  set_view s tr = a ++ (new, nr) :: b ->
  NoDup (map fst (a ++ (new, nr) :: b)) ->
  v_absorb_next b nr = (b', nr2, f2) ->
  set_view (absorb_next R tr new s) tr = a ++ (new, nr2) :: b'
  /\ balloc_free_list (absorb_next R tr new s) = f2 ++ balloc_free_list s
  /\ get_tree (other_tree tr) (absorb_next R tr new s)
     = get_tree (other_tree tr) s
  /\ (forall n, n <> new ->
        balloc_nodes (absorb_next R tr new s) n = balloc_nodes s n).
Proof.
  intros Hv Hnd Hab.
  pose proof Hv as Hv'. apply view_of_eq in Hv'. destruct Hv' as [Hids Hdat].
  rewrite map_app in Hids, Hnd. cbn [map fst] in Hids, Hnd.
  assert (Hna : ~ In new (map fst a)).
  { apply NoDup_remove_2 in Hnd. intros H. apply Hnd, in_or_app. now left. }
  assert (Hnb : ~ In new (map fst b)).
  { apply NoDup_remove_2 in Hnd. intros H. apply Hnd, in_or_app. now right. }
  unfold absorb_next, rb_next. rewrite Hids.
  rewrite seq_next_mid by exact Hna.
  unfold v_absorb_next in Hab.
  destruct b as [|q b1].
  - injection Hab as <- <- <-. cbn [map hd_error]. auto.
  - cbn [map hd_error] in *.
    assert (Hqn : fst q <> new) by (intros E; apply Hnb; now left).
    apply Forall_app in Hdat. destruct Hdat as [Hda Hdb].
    apply Forall_cons_iff in Hdb. destruct Hdb as [En Hdq].
    cbn [fst snd] in En.
    apply Forall_cons_iff in Hdq. destruct Hdq as [Eq Hdb1].
    assert (Ebq : begin (balloc_nodes s (fst q)) = vbegin q)
      by (unfold vbegin; now rewrite Eq).
    assert (Evq : end_ (balloc_nodes s (fst q)) = vend q)
      by (unfold vend; now rewrite Eq).
    assert (Ebn : begin (balloc_nodes s new) = fst nr) by now rewrite En.
    assert (Een : end_ (balloc_nodes s new) = snd nr) by now rewrite En.
    rewrite Ebq, Een, Ebn, Evq.
    destruct (vbegin q <=? snd nr);
      [|injection Hab as <- <- <-; repeat split; auto].
    injection Hab as <- <- <-.
    split; [|split; [|split]].
    + unfold set_view. apply view_of_eq.
      rewrite get_tree_free_node, get_set_tree, rb_erase_inorder,
        get_tree_set_node, Hids.
      split.
      * rewrite map_app. cbn [map fst].
        change (map fst a ++ new :: fst q :: map fst b1)
          with (map fst a ++ [new] ++ fst q :: map fst b1).
        change (map fst a ++ new :: map fst b1)
          with (map fst a ++ [new] ++ map fst b1).
        rewrite !app_assoc.
        change (map fst a ++ new :: fst q :: map fst b1)
          with (map fst a ++ [new] ++ fst q :: map fst b1) in Hnd.
        rewrite app_assoc in Hnd. apply NoDup_remove_2 in Hnd.
        apply seq_erase_mid.
        -- intros H. apply Hnd. apply in_or_app. now left.
        -- intros H. apply Hnd. apply in_or_app. now right.
      * cbn [balloc_nodes balloc_free_node]. rewrite nodes_set_tree.
        apply Forall_app. split; [|constructor].
        -- rewrite Forall_forall in *. intros x Hx.
           rewrite nodes_set_node_other; [now apply Hda|].
           intros E. apply Hna. rewrite <- E. now apply in_map.
        -- cbn [fst snd]. now rewrite nodes_set_node_same.
        -- rewrite Forall_forall in *. intros x Hx.
           rewrite nodes_set_node_other; [now apply Hdb1|].
           intros E. apply Hnb. right. rewrite <- E. now apply in_map.
    + simpl. now rewrite free_list_set_tree.
    + now rewrite get_tree_free_node, get_set_tree_other, get_tree_set_node.
    + intros n Hn'. cbn [balloc_nodes balloc_free_node].
      rewrite nodes_set_tree. now apply nodes_set_node_other.
Qed.

Lemma add_range_view (tr : tree_ref) (from to : Z) (s s' : balloc_state) :
  NoDup (all_nodes s) ->
  ordered_set (set_ranges s tr) ->
  __balloc_add_range R tr from to s = Done s' ->
  exists new fl,
    balloc_free_list s = new :: fl
    /\ set_view s' tr = fst (v_add (set_view s tr) new from to)
    /\ balloc_free_list s' = snd (v_add (set_view s tr) new from to) ++ fl
    /\ get_tree (other_tree tr) s' = get_tree (other_tree tr) s
    /\ (forall n, n <> new -> balloc_nodes s' n = balloc_nodes s n).
Proof.
  intros Hnd Hord. unfold __balloc_add_range, balloc_alloc_node.
  destruct (balloc_free_list s) as [|new fl] eqn:Ef; [discriminate|].
  cbn [bind]. intros [= <-]. exists new, fl. split; [reflexivity|].
  assert (Hnew : ~ In new (rb_inorder (get_tree tr s))).
  { rewrite (all_nodes_of tr), Ef in Hnd. rewrite app_assoc in Hnd.
    apply NoDup_remove_2 in Hnd. rewrite app_nil_r in Hnd || idtac.
    intros H. apply Hnd. apply in_or_app. left. apply in_or_app. now left. }
  pose proof (all_nodes_tree_nodup tr s Hnd) as Hnt.
  set (s1 := mk_state (balloc_nodes s) fl (free_ranges s) (memory_map s)).
  assert (Ht1 : forall tr', get_tree tr' s1 = get_tree tr' s)
    by (now intros []).
  set (s2 := set_node new (mk_node from to) s1).
  set (s3 := set_tree tr (rb_insert R new
               (rb_link_descent (balloc_nodes s) from new (get_tree tr s2)))
               s2).
  unfold v_add.
  pose proof (v_split_app from (set_view s tr)) as Hsp.
  destruct (v_split from (set_view s tr)) as [a b] eqn:Esp.
  cbn [fst snd] in Hsp.
  pose proof (view_of_split _ _ _ _ (eq_sym Hsp)) as (Hids & Ha & Hb).
  assert (Hv3 : set_view s3 tr = a ++ (new, (from, to)) :: b).
  { unfold set_view. apply view_of_eq. split.
    - unfold s3. rewrite get_set_tree, rb_insert_inorder.
      unfold s2. rewrite get_tree_set_node, Ht1.
      rewrite link_descent_view by exact Hord.
      fold (set_view s tr). rewrite Esp. cbn [fst snd].
      rewrite map_app. reflexivity.
    - unfold s3. rewrite nodes_set_tree. unfold s2.
      apply Forall_app. split; [|constructor].
      + rewrite Ha. unfold view_of. rewrite Forall_map. cbn [fst snd].
        apply Forall_forall. intros n Hn.
        rewrite nodes_set_node_other; [reflexivity|].
        intros ->. apply Hnew. rewrite Hids. apply in_or_app. now left.
      + cbn [fst snd]. now rewrite nodes_set_node_same.
      + rewrite Hb. unfold view_of. rewrite Forall_map. cbn [fst snd].
        apply Forall_forall. intros n Hn.
        rewrite nodes_set_node_other; [reflexivity|].
        intros ->. apply Hnew. rewrite Hids. apply in_or_app. now right. }
  assert (Hnd3 : NoDup (map fst (a ++ (new, (from, to)) :: b))).
  { rewrite map_app. cbn [map fst]. apply NoDup_Add with (a := new)
      (l := map fst a ++ map fst b).
    - apply Add_app.
    - split.
      + now rewrite <- Hids.
      + now rewrite <- Hids. }
  cbn [fst snd].
  destruct (v_absorb_prev a (from, to)) as [[a' nr1] f1] eqn:Ep.
  destruct (v_absorb_next b nr1) as [[b' nr2] f2] eqn:En.
  cbn [fst snd].
  destruct (absorb_prev_view tr new s3 a b a' (from, to) nr1 f1 Hv3 Hnd3 Ep)
    as (Hv4 & Hf4 & Ho4 & Hn4).
  assert (Hnd4 : NoDup (map fst (a' ++ (new, nr1) :: b))).
  { destruct (v_absorb_prev_cases _ _ _ _ _ Ep) as [[-> _]|(p & H)].
    - rewrite map_app in *. exact Hnd3.
    - destruct H as (-> & _).
      rewrite !map_app in *. cbn [map fst] in *.
      rewrite <- app_assoc in Hnd3. cbn [app] in Hnd3.
      now apply NoDup_remove_1 in Hnd3. }
  destruct (absorb_next_view tr new _ a' b b' nr1 nr2 f2 Hv4 Hnd4 En)
    as (Hv5 & Hf5 & Ho5 & Hn5).
  split; [exact Hv5|]. split; [|split].
  - rewrite Hf5, Hf4. unfold s3. rewrite free_list_set_tree.
    unfold s2. cbn. now rewrite app_assoc.
  - rewrite Ho5, Ho4. unfold s3. rewrite get_set_tree_other.
    unfold s2. now rewrite get_tree_set_node, Ht1.
  - intros n Hn. rewrite Hn5, Hn4 by exact Hn.
    unfold s3. rewrite nodes_set_tree. unfold s2.
    now rewrite nodes_set_node_other.
Qed.

End AddView.

(** ** What [v_add] does to an ordered view *)

Lemma ordered_view_app (a b : list vnode) :
  ordered_set (map snd (a ++ b)) <->
  ordered_set (map snd a) /\ ordered_set (map snd b)
  /\ Forall (fun x => Forall (fun y => vend x < vbegin y) b) a.
Proof.
  rewrite map_app, ordered_set_app. rewrite Forall_map.
  assert (E : forall x : vnode,
             Forall (fun b0 => snd (snd x) < fst b0) (map snd b)
             <-> Forall (fun y => vend x < vbegin y) b).
  { intros x. rewrite Forall_map. reflexivity. }
  split; intros (H1 & H2 & H3); (split; [exact H1|split; [exact H2|]]);
    (eapply Forall_impl; [|exact H3]); intros x Hx; now apply E.
Qed.

Lemma ordered_view_cons (x : vnode) (v : list vnode) :
  ordered_set (map snd (x :: v)) <->
  vbegin x <= vend x /\ Forall (fun y => vend x < vbegin y) v
  /\ ordered_set (map snd v).
Proof.
  cbn [map]. rewrite ordered_set_cons, Forall_map. reflexivity.
Qed.

Lemma ordered_view_proper (v : list vnode) :
  ordered_set (map snd v) -> Forall (fun x => vbegin x <= vend x) v.
Proof.
  intros [H _]. now rewrite Forall_map in H.
Qed.

Lemma v_split_spec (from : Z) (v : list vnode) :
  ordered_set (map snd v) ->
  Forall (fun x => vbegin x < from) (fst (v_split from v))
  /\ Forall (fun x => from <= vbegin x) (snd (v_split from v)).
Proof.
  induction v as [|x v IH]; cbn [v_split]; intros Hord.
  - split; constructor.
  - apply ordered_view_cons in Hord. destruct Hord as (Hx & Hxv & Hv).
    destruct (Z.ltb_spec (vbegin x) from); cbn [fst snd].
    + destruct (IH Hv). split; [constructor|]; assumption.
    + split; [constructor|]. constructor; [assumption|].
      eapply Forall_impl; [|exact Hxv]. cbn beta. intros y Hy. lia.
Qed.

(** The shape of the result: the nodes before and after the new one, and
    whether the neighbour on either side was absorbed. *)
Lemma v_add_form (v : list vnode) (new : nat) (from to : Z) :
  ordered_set (map snd v) ->
  exists a b a' b' nb lo ne f1 f2,
    v = a ++ b
    /\ Forall (fun x => vbegin x < from) a
    /\ Forall (fun x => from <= vbegin x) b
    /\ v_add v new from to = (a' ++ (new, (nb, ne)) :: b', f2 ++ f1)
    /\ ((a' = a /\ nb = from /\ lo = to /\ f1 = []
         /\ Forall (fun x => vend x < from) a)
        \/ (exists p, a = a' ++ [p] /\ from <= vend p /\ nb = vbegin p
                      /\ lo = Z.max to (vend p) /\ f1 = [fst p]))
    /\ ((b' = b /\ ne = lo /\ f2 = []
         /\ Forall (fun x => lo < vbegin x) b)
        \/ (exists q, b = q :: b' /\ vbegin q <= lo /\ ne = vend q
                      /\ f2 = [fst q])).
Proof.
  intros Hord. unfold v_add.
  pose proof (v_split_app from v) as Hsp.
  pose proof (v_split_spec from v Hord) as [Hsa Hsb].
  destruct (v_split from v) as [a b]. cbn [fst snd] in *. subst v.
  apply ordered_view_app in Hord. destruct Hord as (Ha & Hb & Hab).
  destruct (v_absorb_prev a (from, to)) as [[a' nr1] f1] eqn:Ep.
  destruct (v_absorb_next b nr1) as [[b' nr2] f2] eqn:En.
  exists a, b, a', b', (fst nr2), (snd nr1), (snd nr2), f1, f2.
  split; [reflexivity|]. split; [assumption|]. split; [assumption|].
  split; [now destruct nr2|].
  apply v_absorb_prev_cases in Ep. apply v_absorb_next_cases in En.
  cbn [fst snd] in *.
  assert (Hfst : fst nr2 = fst nr1).
  { destruct En as [(_ & -> & _)|(q & _ & _ & _ & ->)]; reflexivity. }
  rewrite Hfst. split.
  - destruct Ep as [(-> & -> & -> & Hlast)|(p & -> & Hp & -> & ->)].
    + left. repeat split; auto.
      destruct (rev a) as [|p ra] eqn:Er.
      * assert (a = []) by (destruct a; [reflexivity|];
          apply (f_equal (@length _)) in Er; rewrite length_rev in Er;
          discriminate).
        subst a. constructor.
      * apply rev_eq_cons in Er. subst a.
        specialize (Hlast _ _ eq_refl).
        apply ordered_view_app in Ha. destruct Ha as (_ & Hp & Hc).
        apply ordered_view_cons in Hp. destruct Hp as (Hp & _).
        apply Forall_app. split; [|constructor; [lia|constructor]].
        eapply Forall_impl; [|exact Hc]. cbn beta. intros x Hx.
        inversion Hx; subst. lia.
    + right. exists p. repeat split; auto.
  - destruct En as [(-> & -> & -> & Hhead)|(q & -> & Hq & -> & ->)].
    + left. repeat split; auto.
      destruct b as [|q b1]; [constructor|].
      apply ordered_view_cons in Hb. destruct Hb as (Hq & Hqb & _).
      constructor; [assumption|].
      eapply Forall_impl; [|exact Hqb]. cbn beta. intros y Hy. lia.
    + right. exists q. repeat split; auto.
Qed.

Ltac ord_split :=
  repeat match goal with
  | H : ordered_set (map snd (_ ++ _)) |- _ =>
      apply ordered_view_app in H; destruct H as (? & ? & ?)
  | H : ordered_set (map snd (_ :: _)) |- _ =>
      apply ordered_view_cons in H; destruct H as (? & ? & ?)
  | H : Forall _ (_ ++ _) |- _ => apply Forall_app in H; destruct H as (? & ?)
  | H : Forall _ (_ :: _) |- _ =>
      apply Forall_cons_iff in H; destruct H as (? & ?)
  | H : Forall _ [] |- _ => clear H
  | H : ordered_set (map snd []) |- _ => clear H
  end.

Ltac vlia := unfold vbegin, vend in *; cbn [fst snd] in *; lia.

Ltac fall :=
  match goal with
  | |- Forall _ [] => constructor
  | |- Forall _ (_ :: _) => constructor; fall
  | |- Forall _ (_ ++ _) => apply Forall_app; split; fall
  | |- Forall _ ?l =>
      let x := fresh "x" in
      let Hx := fresh "Hx" in
      apply Forall_forall; intros x Hx;
      repeat match goal with
             | H : Forall _ l |- _ =>
                 pose proof (proj1 (Forall_forall _ _) H x Hx); clear H
             end;
      cbn beta in *; ord_split; fall
  | |- _ => vlia
  end.

Ltac ord_build :=
  repeat match goal with
  | |- ordered_set (map snd (_ ++ _)) =>
      apply ordered_view_app; split; [|split]
  | |- ordered_set (map snd (_ :: _)) =>
      apply ordered_view_cons; split; [|split]
  | |- ordered_set (map snd []) => apply ordered_set_nil
  | |- ordered_set (map snd _) => assumption
  end.

Lemma v_add_ordered (v : list vnode) (new : nat) (from to : Z) :
  ordered_set (map snd v) -> from <= to ->
  ordered_set (map snd (fst (v_add v new from to))).
Proof.
  intros Hord Hft.
  destruct (v_add_form v new from to Hord)
    as (a & b & a' & b' & nb & lo & ne & f1 & f2
        & -> & Ha & Hb & -> & Hp & Hn).
  cbn [fst].
  destruct Hp as [(-> & -> & -> & -> & Hal)|(p & -> & Hp & -> & -> & ->)];
  destruct Hn as [(-> & -> & -> & Hbl)|(q & -> & Hq & -> & ->)];
    ord_split; ord_build; fall.
Qed.

Lemma v_add_proper (v : list vnode) (new : nat) (from to : Z) :
  ordered_set (map snd v) -> from < to ->
  Forall (fun x => vbegin x < vend x) v ->
  Forall (fun x => vbegin x < vend x) (fst (v_add v new from to)).
Proof.
  intros Hord Hft Hne.
  destruct (v_add_form v new from to Hord)
    as (a & b & a' & b' & nb & lo & ne & f1 & f2
        & -> & Ha & Hb & -> & Hp & Hn).
  cbn [fst].
  destruct Hp as [(-> & -> & -> & -> & Hal)|(p & -> & Hp & -> & -> & ->)];
  destruct Hn as [(-> & -> & -> & Hbl)|(q & -> & Hq & -> & ->)];
    ord_split; fall.
Qed.

Lemma v_add_interval_set (v : list vnode) (new : nat) (from to : Z) :
  interval_set (map snd v) -> from < to ->
  interval_set (map snd (fst (v_add v new from to))).
Proof.
  intros Hset Hft. pose proof (interval_set_ordered _ Hset) as Hord.
  split.
  - rewrite Forall_map. apply v_add_proper; try assumption.
    destruct Hset as [H _]. now rewrite Forall_map in H.
  - apply v_add_ordered; [assumption|lia].
Qed.

Lemma covers_view_app (a b : list vnode) (x : Z) :
  covers (map snd (a ++ b)) x
  <-> covers (map snd a) x \/ covers (map snd b) x.
Proof. rewrite map_app. apply covers_app. Qed.

Lemma covers_view_cons (y : vnode) (b : list vnode) (x : Z) :
  covers (map snd (y :: b)) x
  <-> vbegin y <= x < vend y \/ covers (map snd b) x.
Proof. cbn [map]. apply covers_cons. Qed.

Lemma covers_view_nil (x : Z) : covers (map snd (@nil vnode)) x <-> False.
Proof. split; [apply covers_nil|tauto]. Qed.

(** [v_add] covers what was covered and the new range, provided no stored
    range that begins at or after [from] ends below [to]. *)
Lemma v_add_covers (v : list vnode) (new : nat) (from to x : Z) :
  ordered_set (map snd v) ->
  (forall y, In y v -> from <= vbegin y -> to <= vend y) ->
  covers (map snd (fst (v_add v new from to))) x
  <-> covers (map snd v) x \/ from <= x < to.
Proof.
  intros Hord Hcond.
  destruct (v_add_form v new from to Hord)
    as (a & b & a' & b' & nb & lo & ne & f1 & f2
        & -> & Ha & Hb & -> & Hp & Hn).
  cbn [fst].
  destruct Hp as [(-> & -> & -> & -> & Hal)|(p & -> & Hp & -> & -> & ->)];
  destruct Hn as [(-> & -> & -> & Hbl)|(q & -> & Hq & -> & ->)];
    rewrite ?covers_view_app, ?covers_view_cons, ?covers_view_nil;
    try (assert (Hcq : to <= vend q)
          by (apply Hcond; [apply in_or_app; right; now left|];
              ord_split; assumption));
    ord_split; unfold vbegin, vend in *; cbn [fst snd] in *;
    intuition lia.
Qed.

Lemma v_add_isolated (a b : list vnode) (new : nat) (from to : Z) :
  ordered_set (map snd (a ++ b)) ->
  Forall (fun x => vend x < from) a ->
  Forall (fun y => to < vbegin y) b ->
  from <= to ->
  v_add (a ++ b) new from to = (a ++ (new, (from, to)) :: b, []).
Proof.
  intros Hord Ha Hb Hft. unfold v_add.
  rewrite v_split_exact.
  - cbn [fst snd].
    assert (E1 : v_absorb_prev a (from, to) = (a, (from, to), [])).
    { unfold v_absorb_prev. destruct (rev a) as [|p ra] eqn:Er;
        [reflexivity|].
      apply rev_eq_cons in Er. subst a. ord_split. cbn [fst].
      destruct (Z.leb_spec from (vend p)); [lia|reflexivity]. }
    rewrite E1.
    assert (E2 : v_absorb_next b (from, to) = (b, (from, to), [])).
    { unfold v_absorb_next. destruct b as [|q b1]; [reflexivity|].
      ord_split. cbn [snd].
      destruct (Z.leb_spec (vbegin q) to); [lia|reflexivity]. }
    rewrite E2. reflexivity.
  - ord_split. pose proof (ordered_view_proper a ltac:(assumption)).
    fall.
  - fall.
Qed.

Lemma v_add_touch_prev (a b : list vnode) (p : vnode) (new : nat)
  (from to : Z) :
  ordered_set (map snd (a ++ p :: b)) ->
  vbegin p < from -> from <= vend p ->
  Forall (fun y => Z.max to (vend p) < vbegin y) b ->
  v_add (a ++ p :: b) new from to
  = (a ++ (new, (vbegin p, Z.max to (vend p))) :: b, [fst p]).
Proof.
  intros Hord Hp1 Hp2 Hb. unfold v_add.
  change (a ++ p :: b) with (a ++ [p] ++ b). rewrite app_assoc.
  rewrite v_split_exact.
  - cbn [fst snd].
    assert (E1 : v_absorb_prev (a ++ [p]) (from, to)
                 = (a, (vbegin p, Z.max to (vend p)), [fst p])).
    { unfold v_absorb_prev. rewrite rev_app_distr. cbn [rev app fst snd].
      destruct (Z.leb_spec from (vend p)); [|lia].
      rewrite rev_involutive. repeat f_equal.
      destruct (Z.ltb_spec to (vend p)); lia. }
    rewrite E1.
    assert (E2 : v_absorb_next b (vbegin p, Z.max to (vend p))
                 = (b, (vbegin p, Z.max to (vend p)), [])).
    { unfold v_absorb_next. destruct b as [|q b1]; [reflexivity|].
      ord_split. cbn [snd].
      destruct (Z.leb_spec (vbegin q) (Z.max to (vend p)));
        [lia|reflexivity]. }
    rewrite E2. reflexivity.
  - ord_split. pose proof (ordered_view_proper a ltac:(assumption)).
    fall.
  - fall.
Qed.

(** ** Facts about [cut] *)

Lemma cut_keep (from to : Z) (r : Z * Z) :
  snd r <= from \/ to <= fst r -> cut from to r = [r].
Proof.
  intros H. unfold cut.
  destruct (Z.ltb_spec from (snd r)); destruct (Z.ltb_spec (fst r) to);
    cbn [andb]; try reflexivity; lia.
Qed.

Lemma flat_map_cut_keep (from to : Z) (l : list (Z * Z)) :
  Forall (fun r => snd r <= from \/ to <= fst r) l ->
  flat_map (cut from to) l = l.
Proof.
  induction 1 as [|r l Hr _ IH]; cbn [flat_map]; [reflexivity|].
  now rewrite cut_keep, IH.
Qed.

Lemma cut_list_same (x : Z) (l : list (Z * Z)) : cut_list x x l = l.
Proof. unfold cut_list. now rewrite Z.eqb_refl. Qed.

Lemma covers_cut (from to : Z) (r : Z * Z) (x : Z) :
  from <= to ->
  covers (cut from to r) x <-> fst r <= x < snd r /\ ~ (from <= x < to).
Proof.
  intros Hft. unfold cut.
  destruct (Z.ltb_spec from (snd r)); destruct (Z.ltb_spec (fst r) to);
    cbn [andb];
    try (destruct (Z.ltb_spec (fst r) from);
         destruct (Z.ltb_spec to (snd r)));
    cbn [app]; rewrite ?covers_cons; cbn [fst snd];
    (split; [intros H'; repeat destruct H' as [H'|H'];
             try (now apply covers_nil in H'); lia
            |intros H'; try lia]).
Qed.

Lemma cut_list_cons (from to : Z) (r : Z * Z) (l : list (Z * Z)) :
  cut_list from to (r :: l)
  = (if from =? to then [r] else cut from to r) ++ cut_list from to l.
Proof.
  unfold cut_list. destruct (from =? to); reflexivity.
Qed.

Lemma cut_list_nil (from to : Z) : cut_list from to [] = [].
Proof. unfold cut_list. now destruct (from =? to). Qed.

Lemma cut_list_keep (from to : Z) (l : list (Z * Z)) :
  Forall (fun r => snd r <= from \/ to <= fst r) l ->
  cut_list from to l = l.
Proof.
  intros H. unfold cut_list. destruct (from =? to); [reflexivity|].
  now apply flat_map_cut_keep.
Qed.

Lemma covers_cut_list (from to : Z) (l : list (Z * Z)) (x : Z) :
  from <= to ->
  covers (cut_list from to l) x <-> covers l x /\ ~ (from <= x < to).
Proof.
  intros Hft. unfold cut_list. destruct (Z.eqb_spec from to) as [->|Hne].
  - split; [intros H; split; [assumption|lia]|tauto].
  - induction l as [|r l IH]; cbn [flat_map].
    + split; [intros H; now apply covers_nil in H|].
      intros [H _]. now apply covers_nil in H.
    + rewrite covers_app, covers_cons, covers_cut, IH by assumption. tauto.
Qed.

Lemma cut_lower_bound (from to lo : Z) (r : Z * Z) :
  from <= to -> lo < fst r ->
  Forall (fun r' => lo < fst r') (cut from to r).
Proof.
  intros Hft Hlo. unfold cut.
  destruct ((from <? snd r) && (fst r <? to)) eqn:E.
  - apply andb_true_iff in E. destruct E as [E1 E2].
    apply Z.ltb_lt in E1, E2.
    destruct (Z.ltb_spec (fst r) from); destruct (Z.ltb_spec to (snd r));
      cbn [app]; repeat constructor; cbn [fst snd]; lia.
  - repeat constructor. assumption.
Qed.

Lemma cut_ordered (from to : Z) (r : Z * Z) :
  from < to -> fst r <= snd r ->
  ordered_set (cut from to r)
  /\ Forall (fun r' => snd r' <= snd r) (cut from to r).
Proof.
  intros Hft Hr. unfold cut, ordered_set.
  destruct ((from <? snd r) && (fst r <? to)) eqn:E.
  - apply andb_true_iff in E. destruct E as [E1 E2].
    apply Z.ltb_lt in E1, E2.
    destruct (Z.ltb_spec (fst r) from); destruct (Z.ltb_spec to (snd r));
      cbn [app separated]; repeat split; repeat constructor;
      cbn [fst snd]; lia.
  - cbn [separated]. repeat split; repeat constructor; lia.
Qed.

Lemma cut_proper (from to : Z) (r : Z * Z) :
  fst r < snd r -> Forall (fun r' => fst r' < snd r') (cut from to r).
Proof.
  intros Hr. unfold cut.
  destruct ((from <? snd r) && (fst r <? to)) eqn:E.
  - destruct (Z.ltb_spec (fst r) from); destruct (Z.ltb_spec to (snd r));
      cbn [app]; repeat constructor; cbn [fst snd]; lia.
  - repeat constructor. assumption.
Qed.

Lemma cut_list_ordered (from to : Z) (l : list (Z * Z)) :
  from <= to -> ordered_set l -> ordered_set (cut_list from to l).
Proof.
  intros Hft. unfold cut_list.
  destruct (Z.eqb_spec from to) as [->|Hne]; [tauto|].
  assert (Hlt : from < to) by lia.
  assert (G : forall lo k, Forall (fun r' => lo < fst r') k ->
                           Forall (fun r' => lo < fst r')
                                  (flat_map (cut from to) k)).
  { intros lo k H. induction H as [|r k Hr _ IH]; cbn [flat_map].
    - constructor.
    - apply Forall_app. split; [|exact IH].
      now apply cut_lower_bound. }
  induction l as [|r l IH]; cbn [flat_map]; intros Hord.
  - exact Hord.
  - apply ordered_set_cons in Hord. destruct Hord as (Hr & Hrl & Hl).
    destruct (cut_ordered from to r Hlt Hr) as [Hc Hcb].
    apply ordered_set_app. split; [exact Hc|]. split; [now apply IH|].
    eapply Forall_impl; [|exact Hcb]. cbn beta. intros a Ha.
    specialize (G (snd r) l Hrl).
    eapply Forall_impl; [|exact G]. cbn beta. intros b Hb. lia.
Qed.

Lemma cut_list_interval_set (from to : Z) (l : list (Z * Z)) :
  from <= to -> interval_set l -> interval_set (cut_list from to l).
Proof.
  intros Hft Hset. pose proof (interval_set_ordered _ Hset) as Hord.
  split; [|now apply cut_list_ordered].
  destruct Hset as [Hp _]. unfold cut_list.
  destruct (from =? to); [assumption|].
  induction Hp as [|r l Hr _ IH]; cbn [flat_map].
  - constructor.
  - apply Forall_app. split; [now apply cut_proper|].
    apply IH. apply ordered_set_cons in Hord. tauto.
Qed.

Lemma cut_exact (from to nb ne : Z) :
  from < to -> nb <= from -> to <= ne ->
  cut from to (nb, ne)
  = (if nb <? from then [(nb, from)] else [])
    ++ (if to <? ne then [(to, ne)] else []).
Proof.
  intros H1 H2 H3. unfold cut. cbn [fst snd].
  destruct (Z.ltb_spec from ne); [|lia].
  destruct (Z.ltb_spec nb to); [|lia]. reflexivity.
Qed.

Lemma cut_exact' (from to nb ne : Z) :
  from < ne -> nb < to ->
  cut from to (nb, ne)
  = (if nb <? from then [(nb, from)] else [])
    ++ (if to <? ne then [(to, ne)] else []).
Proof.
  intros H1 H2. unfold cut. cbn [fst snd].
  destruct (Z.ltb_spec from ne); [|lia].
  destruct (Z.ltb_spec nb to); [|lia]. reflexivity.
Qed.

(** Adding a range that overlaps nothing and carving it out again gives
    the ranges back. *)
Lemma cut_add_restore (v : list vnode) (new : nat) (from to : Z) :
  interval_set (map snd v) -> from < to ->
  (forall y, In y v -> vend y <= from \/ to <= vbegin y) ->
  cut_list from to (map snd (fst (v_add v new from to))) = map snd v.
Proof.
  intros Hset Hft Hdis.
  pose proof (interval_set_ordered _ Hset) as Hord.
  assert (Hne : Forall (fun x => vbegin x < vend x) v).
  { destruct Hset as [H _]. now rewrite Forall_map in H. }
  assert (Hdis' : Forall (fun y => vend y <= from \/ to <= vbegin y) v)
    by now apply Forall_forall.
  clear Hdis Hset.
  destruct (v_add_form v new from to Hord)
    as (a & b & a' & b' & nb & lo & ne & f1 & f2
        & -> & Ha & Hb & -> & Hp & Hn).
  cbn [fst]. unfold cut_list.
  destruct (Z.eqb_spec from to); [lia|].
  assert (Hka : forall k : list vnode,
             Forall (fun y => vend y <= from) k ->
             flat_map (cut from to) (map snd k) = map snd k).
  { intros k Hk. apply flat_map_cut_keep. rewrite Forall_map.
    eapply Forall_impl; [|exact Hk]. cbn beta. intros y Hy. left. exact Hy. }
  assert (Hkb : forall k : list vnode,
             Forall (fun y => to <= vbegin y) k ->
             flat_map (cut from to) (map snd k) = map snd k).
  { intros k Hk. apply flat_map_cut_keep. rewrite Forall_map.
    eapply Forall_impl; [|exact Hk]. cbn beta. intros y Hy. right. exact Hy. }
  destruct Hp as [(-> & -> & -> & -> & Hal)|(p & -> & Hp & -> & -> & ->)];
  destruct Hn as [(-> & -> & -> & Hbl)|(q & -> & Hq & -> & ->)];
    rewrite !map_app; cbn [map]; rewrite ?map_app; cbn [map];
    rewrite !flat_map_app; cbn [flat_map]; rewrite ?app_nil_r;
    ord_split;
    rewrite ?Hka by fall; rewrite ?Hkb by fall;
    try destruct p as [pi [pb pe]]; try destruct q as [qi [qb qe]];
    unfold vbegin, vend in *; cbn [fst snd] in *;
    rewrite cut_exact by lia;
    repeat match goal with
           | |- context [?x <? ?y] => destruct (Z.ltb_spec x y); try lia
           end;
    cbn [app]; rewrite <- ?app_assoc; cbn [app];
    repeat (f_equal; try lia).
Qed.

(** ** Erasing a node, carving its range, giving it back *)

Section Carve.

Variable R : rbtree_lib.

Lemma add_range_not_stuck (tr : tree_ref) (from to : Z) (s : balloc_state) :
  __balloc_add_range R tr from to s <> Stuck.
Proof.
  unfold __balloc_add_range, balloc_alloc_node.
  destruct (balloc_free_list s); cbn; discriminate.
Qed.

Lemma add_range_completes (tr : tree_ref) (from to : Z) (s : balloc_state) :
  balloc_free_list s <> [] ->
  exists s', __balloc_add_range R tr from to s = Done s'.
Proof.
  unfold __balloc_add_range, balloc_alloc_node.
  destruct (balloc_free_list s); [congruence|]. cbn. eauto.
Qed.

Lemma set_view_same (tr : tree_ref) (s s' : balloc_state) :
  get_tree tr s' = get_tree tr s ->
  (forall n, In n (rb_inorder (get_tree tr s)) ->
             balloc_nodes s' n = balloc_nodes s n) ->
  set_view s' tr = set_view s tr.
Proof.
  intros Ht Hn. unfold set_view. rewrite Ht. now apply view_of_ext.
Qed.

Lemma free_head_fresh (tr : tree_ref) (s : balloc_state) (new : nat)
  (fl : list nat) :
  NoDup (all_nodes s) -> balloc_free_list s = new :: fl ->
  ~ In new (rb_inorder (get_tree tr s)).
Proof.
  intros Hnd Ef Hin. unfold all_nodes in Hnd. rewrite Ef in Hnd.
  rewrite app_assoc in Hnd. apply NoDup_remove_2 in Hnd. apply Hnd.
  apply in_or_app. left. apply in_or_app.
  destruct tr; [left|right]; exact Hin.
Qed.

Lemma add_range_other (tr : tree_ref) (from to : Z) (s s' : balloc_state) :
  NoDup (all_nodes s) ->
  ordered_set (set_ranges s tr) ->
  __balloc_add_range R tr from to s = Done s' ->
  set_view s' (other_tree tr) = set_view s (other_tree tr).
Proof.
  intros Hnd Hord Hadd.
  destruct (add_range_view R tr from to s s' Hnd Hord Hadd)
    as (new & fl & Ef & _ & _ & Ho & Hn).
  apply set_view_same; [exact Ho|].
  intros n Hin. apply Hn. intros ->.
  now apply (free_head_fresh (other_tree tr) s new fl Hnd Ef).
Qed.

Lemma erase_nodes (tr : tree_ref) (p : nat) (s : balloc_state) :
  In p (rb_inorder (get_tree tr s)) -> NoDup (all_nodes s) ->
  Permutation
    (p :: all_nodes (set_tree tr (rb_erase R p (get_tree tr s)) s))
    (all_nodes s).
Proof.
  intros Hin Hnd.
  rewrite (all_nodes_of tr), (all_nodes_of tr s).
  rewrite get_set_tree, get_set_tree_other, free_list_set_tree,
    rb_erase_inorder.
  rewrite <- (seq_erase_perm p (rb_inorder (get_tree tr s))) at 2;
    [reflexivity|exact Hin|now apply all_nodes_tree_nodup].
Qed.

Lemma free_node_nodes (p : nat) (s : balloc_state) :
  Permutation (all_nodes (balloc_free_node p s)) (p :: all_nodes s).
Proof.
  unfold all_nodes. cbn [balloc_free_node free_ranges memory_map
                         balloc_free_list].
  rewrite !app_assoc. symmetry. apply Permutation_middle.
Qed.

Lemma add_range_isolated (tr : tree_ref) (from to : Z) (s s' : balloc_state)
  (a b : list vnode) :
  NoDup (all_nodes s) ->
  set_view s tr = a ++ b ->
  ordered_set (map snd (a ++ b)) ->
  Forall (fun x => vend x < from) a ->
  Forall (fun y => to < vbegin y) b ->
  from <= to ->
  __balloc_add_range R tr from to s = Done s' ->
  exists new,
    In new (balloc_free_list s)
    /\ set_view s' tr = a ++ (new, (from, to)) :: b
    /\ set_view s' (other_tree tr) = set_view s (other_tree tr)
    /\ Permutation (all_nodes s') (all_nodes s)
    /\ (forall n, n <> new -> balloc_nodes s' n = balloc_nodes s n).
Proof.
  intros Hnd Hv Hord Ha Hb Hft Hadd.
  assert (Hord' : ordered_set (set_ranges s tr))
    by (rewrite <- set_view_ranges, Hv; exact Hord).
  destruct (add_range_view R tr from to s s' Hnd Hord' Hadd)
    as (new & fl & Ef & Hv' & _ & _ & Hn).
  exists new. rewrite Ef. split; [now left|].
  rewrite Hv, v_add_isolated in Hv' by assumption.
  split; [exact Hv'|]. split; [now apply (add_range_other tr from to)|].
  split; [now apply (add_range_nodes R tr from to)|exact Hn].
Qed.

Lemma add_range_touch_prev (tr : tree_ref) (from to : Z)
  (s s' : balloc_state) (a b : list vnode) (p : vnode) :
  NoDup (all_nodes s) ->
  set_view s tr = a ++ p :: b ->
  ordered_set (map snd (a ++ p :: b)) ->
  vbegin p < from -> from <= vend p ->
  Forall (fun y => Z.max to (vend p) < vbegin y) b ->
  __balloc_add_range R tr from to s = Done s' ->
  exists new,
    In new (balloc_free_list s)
    /\ set_view s' tr = a ++ (new, (vbegin p, Z.max to (vend p))) :: b
    /\ set_view s' (other_tree tr) = set_view s (other_tree tr)
    /\ Permutation (all_nodes s') (all_nodes s)
    /\ (forall n, n <> new -> balloc_nodes s' n = balloc_nodes s n).
Proof.
  intros Hnd Hv Hord Hp1 Hp2 Hb Hadd.
  assert (Hord' : ordered_set (set_ranges s tr))
    by (rewrite <- set_view_ranges, Hv; exact Hord).
  destruct (add_range_view R tr from to s s' Hnd Hord' Hadd)
    as (new & fl & Ef & Hv' & _ & _ & Hn).
  exists new. rewrite Ef. split; [now left|].
  rewrite Hv, v_add_touch_prev in Hv' by assumption.
  split; [exact Hv'|]. split; [now apply (add_range_other tr from to)|].
  split; [now apply (add_range_nodes R tr from to)|exact Hn].
Qed.

Lemma free_list_in_all_nodes (s : balloc_state) (n : nat) :
  In n (balloc_free_list s) -> In n (all_nodes s).
Proof.
  intros H. unfold all_nodes. apply in_or_app. right.
  apply in_or_app. now right.
Qed.

Lemma add_range_bug (tr : tree_ref) (from to : Z) (s : balloc_state) :
  __balloc_add_range R tr from to s = Bug -> balloc_free_list s = [].
Proof.
  unfold __balloc_add_range, balloc_alloc_node.
  destruct (balloc_free_list s); [reflexivity|discriminate].
Qed.

Lemma all_nodes_length (tr : tree_ref) (s : balloc_state) :
  length (all_nodes s)
  = (length (set_view s tr) + length (set_view s (other_tree tr))
     + length (balloc_free_list s))%nat.
Proof.
  rewrite (Permutation_length (all_nodes_of tr s)), !length_app.
  unfold set_view, view_of. rewrite !length_map. lia.
Qed.

(** The free list after a step, from where the nodes are before and
    after it. *)
Lemma free_list_length (tr : tree_ref) (s s' : balloc_state)
  (v v' : list vnode) (k : nat) :
  length (all_nodes s') = (k + length (all_nodes s))%nat ->
  set_view s tr = v -> set_view s' tr = v' ->
  set_view s' (other_tree tr) = set_view s (other_tree tr) ->
  (length v' + length (balloc_free_list s')
   = k + length v + length (balloc_free_list s))%nat.
Proof.
  intros Hlen Hv Hv' Ho.
  rewrite (all_nodes_length tr s), (all_nodes_length tr s') in Hlen.
  rewrite Hv, Hv', Ho in Hlen. lia.
Qed.

Lemma carve_not_stuck (tr : tree_ref) (p : nat) (x y : Z)
  (s1 : balloc_state) :
  carve R tr p x y s1 <> Stuck.
Proof.
  unfold carve.
  assert (S1 : (if begin (balloc_nodes s1 p) <? x
                then __balloc_add_range R tr (begin (balloc_nodes s1 p)) x s1
                else Done s1) <> Stuck).
  { destruct (_ <? x); [apply add_range_not_stuck|discriminate]. }
  destruct (if _ <? x then _ else _) as [s2| |]; cbn [bind];
    [|discriminate|contradiction].
  assert (S2 : (if y <? end_ (balloc_nodes s2 p)
                then __balloc_add_range R tr y (end_ (balloc_nodes s2 p)) s2
                else Done s2) <> Stuck).
  { destruct (y <? _); [apply add_range_not_stuck|discriminate]. }
  destruct (if y <? _ then _ else _) as [s3| |]; cbn [bind];
    [discriminate|discriminate|contradiction].
Qed.

Lemma carve_view (tr : tree_ref) (p : nat) (pb pe x y : Z)
  (D rest : list vnode) (s1 : balloc_state) :
  NoDup (p :: all_nodes s1) ->
  set_view s1 tr = D ++ rest ->
  balloc_nodes s1 p = mk_node pb pe ->
  ordered_set (map snd (D ++ (p, (pb, pe)) :: rest)) ->
  x <= y -> x < pe -> pb < y ->
  match carve R tr p x y s1 with
  | Done s4 =>
      exists D',
        set_view s4 tr = D ++ D' ++ rest
        /\ map snd D' = (if x =? y then [(pb, pe)] else cut x y (pb, pe))
        /\ set_view s4 (other_tree tr) = set_view s1 (other_tree tr)
        /\ Permutation (all_nodes s4) (p :: all_nodes s1)
        /\ (length (balloc_free_list s4) + length D'
            = length (balloc_free_list s1) + 1)%nat
  | Bug => (length (balloc_free_list s1) < 2)%nat
  | Stuck => False
  end.
Proof.
  intros Hnd Hv Hp Hord Hxy Hxe Hby.
  assert (Hp1 : ~ In p (all_nodes s1)) by now inversion Hnd.
  assert (Hnd1 : NoDup (all_nodes s1)) by now inversion Hnd.
  unfold carve. rewrite Hp. cbn [begin].
  (* the part below [x] *)
  assert (S1 :
    match (if pb <? x then __balloc_add_range R tr pb x s1 else Done s1) with
    | Done s2 =>
        exists D1,
          set_view s2 tr = D ++ D1 ++ rest
          /\ ((pb < x /\ exists n1, D1 = [(n1, (pb, x))])
              \/ (x <= pb /\ D1 = []))
          /\ balloc_nodes s2 p = mk_node pb pe
          /\ set_view s2 (other_tree tr) = set_view s1 (other_tree tr)
          /\ Permutation (all_nodes s2) (all_nodes s1)
    | Bug => balloc_free_list s1 = []
    | Stuck => False
    end).
  { destruct (Z.ltb_spec pb x) as [Hlt|Hge].
    - destruct (__balloc_add_range R tr pb x s1) as [s2| |] eqn:E1;
        [|now apply add_range_bug in E1|now apply add_range_not_stuck in E1].
      destruct (add_range_isolated tr pb x s1 s2 D rest Hnd1 Hv)
        as (n1 & Hin & Hv2 & Ho2 & Hperm & Hn); try assumption;
        try (ord_split; ord_build; fall); try lia.
      exists [(n1, (pb, x))]. split; [exact Hv2|].
      split; [left; split; [assumption|now exists n1]|].
      split; [|split; assumption].
      rewrite Hn; [exact Hp|].
      intros ->. apply Hp1. now apply free_list_in_all_nodes.
    - exists []. split; [exact Hv|]. split; [right; split; [lia|reflexivity]|].
      split; [exact Hp|]. split; reflexivity. }
  destruct (if pb <? x then __balloc_add_range R tr pb x s1 else Done s1)
    as [s2| |]; [|cbn [bind]; rewrite S1; cbn [length]; lia|exact S1].
  destruct S1 as (D1 & Hv2 & HD1 & Hp2 & Ho2 & Hperm2).
  cbn [bind]. rewrite Hp2. cbn [end_].
  assert (Hnd2 : NoDup (all_nodes s2))
    by (eapply Permutation_NoDup; [symmetry; exact Hperm2|exact Hnd1]).
  assert (Hp2' : ~ In p (all_nodes s2)).
  { intros H. apply Hp1. eapply Permutation_in; [exact Hperm2|exact H]. }
  assert (HlenD1 : (length D1 <= 1)%nat).
  { destruct HD1 as [(_ & n1 & ->)|(_ & ->)]; cbn [length]; lia. }
  pose proof (free_list_length tr s1 s2 _ _ 0
                (Permutation_length Hperm2) Hv Hv2 Ho2) as Hlen2.
  rewrite !length_app in Hlen2.
  destruct (Z.ltb_spec y pe) as [Hlt|Hge].
  - destruct (__balloc_add_range R tr y pe s2) as [s3| |] eqn:E2;
      [| |now apply add_range_not_stuck in E2].
    2:{ apply add_range_bug in E2. rewrite E2 in Hlen2.
        cbn [bind length] in *. lia. }
    cbn [bind].
    destruct (Z.eqb_spec x y) as [Exy|Nxy].
    + (* degenerate range: the two parts touch and are merged again *)
      subst y. destruct HD1 as [(Hbx & n1 & ->)|(Hbx & ->)]; [|lia].
      destruct (add_range_touch_prev tr x pe s2 s3 D rest (n1, (pb, x))
                  Hnd2 Hv2)
        as (n2 & Hin & Hv3 & Ho3 & Hperm3 & Hn3);
        try assumption; unfold vbegin, vend; cbn [fst snd]; try lia;
        try (ord_split; ord_build; fall).
      unfold vbegin, vend in Hv3. cbn [fst snd] in Hv3.
      replace (Z.max pe x) with pe in Hv3 by lia.
      pose proof (free_list_length tr s2 s3 _ _ 0
                    (Permutation_length Hperm3) Hv2 Hv3 Ho3) as Hlen3.
      rewrite !length_app in Hlen3. cbn [length app] in Hlen2, Hlen3.
      exists [(n2, (pb, pe))]. split.
      * unfold set_view in *. rewrite get_tree_free_node.
        cbn [balloc_nodes balloc_free_node]. exact Hv3.
      * split; [reflexivity|]. split; [|split].
        -- unfold set_view in *. rewrite get_tree_free_node.
           cbn [balloc_nodes balloc_free_node]. now rewrite Ho3, Ho2.
        -- rewrite free_node_nodes. apply perm_skip.
           now rewrite Hperm3, Hperm2.
        -- cbn [balloc_free_list balloc_free_node length]. lia.
    + destruct (add_range_isolated tr y pe s2 s3 (D ++ D1) rest Hnd2)
        as (n2 & Hin & Hv3 & Ho3 & Hperm3 & Hn3);
        try assumption; try lia;
        try (now rewrite <- app_assoc);
        try (destruct HD1 as [(Hbx & n1 & ->)|(Hbx & ->)];
             rewrite ?app_nil_r; ord_split; ord_build; fall).
      pose proof (free_list_length tr s2 s3 _ _ 0
                    (Permutation_length Hperm3) Hv2 Hv3 Ho3) as Hlen3.
      rewrite !length_app in Hlen3. cbn [length] in Hlen3.
      exists (D1 ++ [(n2, (y, pe))]). split.
      * unfold set_view in *. rewrite get_tree_free_node.
        cbn [balloc_nodes balloc_free_node].
        rewrite Hv3. now rewrite <- !app_assoc.
      * split.
        -- rewrite map_app, cut_exact' by lia.
           destruct HD1 as [(Hbx & n1 & ->)|(Hbx & ->)];
             [destruct (Z.ltb_spec pb x); [|lia]
             |destruct (Z.ltb_spec pb x); [lia|]];
             (destruct (Z.ltb_spec y pe); [|lia]); reflexivity.
        -- split; [|split].
           ++ unfold set_view in *. rewrite get_tree_free_node.
              cbn [balloc_nodes balloc_free_node]. now rewrite Ho3, Ho2.
           ++ rewrite free_node_nodes. apply perm_skip.
              now rewrite Hperm3, Hperm2.
           ++ cbn [balloc_free_list balloc_free_node length].
              rewrite length_app. cbn [length]. lia.
  - cbn [bind].
    destruct (Z.eqb_spec x y) as [Exy|Nxy]; [lia|].
    exists D1. split.
    + unfold set_view in *. rewrite get_tree_free_node.
      cbn [balloc_nodes balloc_free_node]. exact Hv2.
    + split.
      * rewrite cut_exact' by lia.
        destruct HD1 as [(Hbx & n1 & ->)|(Hbx & ->)];
          [destruct (Z.ltb_spec pb x); [|lia]
          |destruct (Z.ltb_spec pb x); [lia|]];
          (destruct (Z.ltb_spec y pe); [lia|]); reflexivity.
      * split; [|split].
        -- unfold set_view in *. rewrite get_tree_free_node.
           cbn [balloc_nodes balloc_free_node]. now rewrite Ho2.
        -- rewrite free_node_nodes. apply perm_skip. exact Hperm2.
        -- cbn [balloc_free_list balloc_free_node length]. lia.
Qed.

End Carve.

(** ** [__balloc_remove_range] on an ordered set *)

Lemma cut_length (from to : Z) (r : Z * Z) :
  (length (cut from to r) <= 2)%nat
  /\ (length (cut from to r) = 2%nat -> to < snd r).
Proof.
  unfold cut. destruct ((from <? snd r) && (fst r <? to)).
  - destruct (fst r <? from); destruct (Z.ltb_spec to (snd r));
      cbn [app length]; split; try lia; intros; lia.
  - cbn [length]. split; [lia|discriminate].
Qed.

Lemma find_split {A : Type} (f : A -> bool) (l : list A) :
  match find f l with
  | Some p =>
      exists l1 l2, l = l1 ++ p :: l2 /\ f p = true
                    /\ Forall (fun x => f x = false) l1
  | None => Forall (fun x => f x = false) l
  end.
Proof.
  induction l as [|x l IH]; cbn [find].
  - constructor.
  - destruct (f x) eqn:Ex.
    + exists [], l. repeat split; auto.
    + destruct (find f l) as [p|].
      * destruct IH as (l1 & l2 & -> & Hp & Hl1).
        exists (x :: l1), l2. repeat split; auto.
      * constructor; assumption.
Qed.

Lemma cut_list_app (from to : Z) (l1 l2 : list (Z * Z)) :
  cut_list from to (l1 ++ l2) = cut_list from to l1 ++ cut_list from to l2.
Proof.
  unfold cut_list. destruct (from =? to); [reflexivity|].
  apply flat_map_app.
Qed.

Lemma cut_within (from to : Z) (r : Z * Z) :
  Forall (fun k => fst r <= fst k /\ snd k <= snd r)
         (if from =? to then [r] else cut from to r).
Proof.
  destruct (from =? to); [repeat constructor; lia|].
  unfold cut. destruct ((from <? snd r) && (fst r <? to)) eqn:E.
  - apply andb_true_iff in E. destruct E as [E1 E2].
    apply Z.ltb_lt in E1, E2.
    destruct (Z.ltb_spec (fst r) from); destruct (Z.ltb_spec to (snd r));
      cbn [app]; repeat constructor; cbn [fst snd]; lia.
  - repeat constructor; lia.
Qed.

Lemma cut_one_ordered (from to : Z) (r : Z * Z) :
  from <= to -> fst r <= snd r ->
  ordered_set (if from =? to then [r] else cut from to r).
Proof.
  intros Hft Hr. destruct (Z.eqb_spec from to).
  - apply ordered_set_cons. split; [exact Hr|].
    split; [constructor|apply ordered_set_nil].
  - apply cut_ordered; [lia|assumption].
Qed.

Lemma ordered_set_replace (X Y K : list (Z * Z)) (r : Z * Z) :
  ordered_set (X ++ r :: Y) ->
  ordered_set K ->
  Forall (fun k => fst r <= fst k /\ snd k <= snd r) K ->
  ordered_set (X ++ K ++ Y).
Proof.
  intros Hord HK Hin.
  apply ordered_set_app in Hord. destruct Hord as (HX & HrY & HXr).
  apply ordered_set_cons in HrY. destruct HrY as (Hr & HrY & HY).
  apply ordered_set_app. split; [exact HX|]. split.
  - apply ordered_set_app. split; [exact HK|]. split; [exact HY|].
    eapply Forall_impl; [|exact Hin]. cbn beta. intros k [_ Hk].
    eapply Forall_impl; [|exact HrY]. cbn beta. intros b Hb. lia.
  - eapply Forall_impl; [|exact HXr]. cbn beta. intros a Ha.
    apply Forall_cons_iff in Ha. destruct Ha as [Har HaY].
    apply Forall_app. split; [|exact HaY].
    eapply Forall_impl; [|exact Hin]. cbn beta. intros k [Hk _]. lia.
Qed.

Section RemoveRange.

Variable R : rbtree_lib.

Lemma remove_walk_step (fuel : nat) (tr : tree_ref) (from to : Z) (p : nat)
  (s : balloc_state) :
  remove_walk R (S fuel) tr from to (Some p) s
  = if begin (balloc_nodes s p) <? to then
      if existsb (Nat.eqb p) (rb_inorder (get_tree tr s)) then
        s4 <- carve R tr p from to
                (set_tree tr (rb_erase R p (get_tree tr s)) s) ;;
        remove_walk R fuel tr from to (rb_next p (get_tree tr s)) s4
      else Stuck
    else Done s.
Proof.
  cbn [remove_walk]. destruct (_ <? to); [|reflexivity].
  destruct (existsb _ _); [|reflexivity].
  unfold carve.
  destruct (if _ <? from then _ else _) as [s2| |]; cbn [bind];
    [|reflexivity|reflexivity].
  destruct (if to <? _ then _ else _) as [s3| |]; reflexivity.
Qed.

Lemma remove_walk_none (fuel : nat) (tr : tree_ref) (from to : Z)
  (s : balloc_state) :
  remove_walk R fuel tr from to None s = Done s.
Proof. now destruct fuel. Qed.

Lemma remove_walk_spec (tr : tree_ref) (from to : Z) :
  from <= to ->
  forall (rest : list vnode) (fuel : nat) (D : list vnode)
         (s : balloc_state),
    NoDup (all_nodes s) ->
    set_view s tr = D ++ rest ->
    ordered_set (map snd (D ++ rest)) ->
    Forall (fun x => from < vend x) rest ->
    (length rest <= fuel)%nat ->
    match remove_walk R fuel tr from to (hd_error (map fst rest)) s with
    | Done s' =>
        set_ranges s' tr = map snd D ++ cut_list from to (map snd rest)
        /\ set_view s' (other_tree tr) = set_view s (other_tree tr)
        /\ Permutation (all_nodes s') (all_nodes s)
    | Bug =>
        (length (balloc_free_list s) < 2)%nat
        /\ match rest with
           | [] => False
           | q :: _ => vbegin q < to
           end
    | Stuck => False
    end.
Proof.
  intros Hft. induction rest as [|[p [pb pe]] rest IH];
    intros fuel D s Hnd Hv Hord Hrest Hfuel.
  - cbn [map hd_error]. rewrite remove_walk_none.
    rewrite cut_list_nil, <- set_view_ranges, Hv, !app_nil_r. auto.
  - cbn [map hd_error fst]. cbn [length] in Hfuel.
    destruct fuel as [|fuel]; [lia|].
    rewrite remove_walk_step.
    pose proof Hv as Hv'. apply view_of_eq in Hv'.
    destruct Hv' as [Hids Hdat].
    rewrite map_app in Hids. cbn [map fst] in Hids.
    apply Forall_app in Hdat. destruct Hdat as [HdD Hdr].
    apply Forall_cons_iff in Hdr. destruct Hdr as [Hdp Hdr].
    cbn [fst snd] in Hdp.
    assert (Hp : balloc_nodes s p = mk_node pb pe).
    { injection Hdp as E1 E2. destruct (balloc_nodes s p). cbn in *.
      now subst. }
    rewrite Hp. cbn [begin].
    pose proof (all_nodes_tree_nodup tr s Hnd) as Hndt.
    rewrite Hids in Hndt.
    assert (HpD : ~ In p (map fst D)).
    { apply NoDup_remove_2 in Hndt. intros H. apply Hndt.
      apply in_or_app. now left. }
    assert (Hpr : ~ In p (map fst rest)).
    { apply NoDup_remove_2 in Hndt. intros H. apply Hndt.
      apply in_or_app. now right. }
    destruct (Z.ltb_spec pb to) as [Hlt|Hge].
    + assert (Hin : In p (rb_inorder (get_tree tr s))).
      { rewrite Hids. apply in_or_app. right. now left. }
      rewrite (proj2 (existsb_eqb_in p _) Hin).
      unfold rb_next. rewrite Hids, seq_next_mid by exact HpD.
      set (s1 := set_tree tr (rb_erase R p (get_tree tr s)) s).
      assert (Hv1 : set_view s1 tr = D ++ rest).
      { unfold set_view, s1. apply view_of_eq.
        rewrite get_set_tree, rb_erase_inorder, nodes_set_tree, Hids.
        rewrite seq_erase_mid by assumption. rewrite map_app.
        split; [reflexivity|]. apply Forall_app. now split. }
      assert (Hperm1 : Permutation (p :: all_nodes s1) (all_nodes s))
        by now apply erase_nodes.
      assert (Hnd1 : NoDup (p :: all_nodes s1)).
      { eapply Permutation_NoDup; [symmetry; exact Hperm1|exact Hnd]. }
      assert (Hp1 : balloc_nodes s1 p = mk_node pb pe)
        by (unfold s1; now rewrite nodes_set_tree).
      apply Forall_cons_iff in Hrest. destruct Hrest as [Hpe Hrest].
      unfold vend in Hpe. cbn [fst snd] in Hpe.
      pose proof (carve_view R tr p pb pe from to D rest s1
                    Hnd1 Hv1 Hp1 Hord Hft Hpe Hlt) as Hc.
      destruct (carve R tr p from to s1) as [s4| |]; [| |exact Hc].
      2:{ cbn [bind]. unfold s1 in Hc. rewrite free_list_set_tree in Hc.
          split; [exact Hc|exact Hlt]. }
      destruct Hc as (D' & Hv4 & HD' & Ho4 & Hperm4 & Hlen4).
      cbn [bind].
      assert (Hnd4 : NoDup (all_nodes s4)).
      { eapply Permutation_NoDup; [symmetry; exact Hperm4|exact Hnd1]. }
      assert (Hord4 : ordered_set (map snd ((D ++ D') ++ rest))).
      { rewrite <- app_assoc, !map_app. rewrite HD'.
        rewrite map_app in Hord. cbn [map snd] in Hord.
        apply (ordered_set_replace _ _ _ (pb, pe)); [exact Hord| |].
        - apply cut_one_ordered; [exact Hft|].
          apply ordered_set_app in Hord. destruct Hord as (_ & Hord & _).
          apply ordered_set_cons in Hord. tauto.
        - apply cut_within. }
      rewrite app_assoc in Hv4.
      specialize (IH fuel (D ++ D') s4 Hnd4 Hv4 Hord4 Hrest
                    ltac:(lia)).
      destruct (remove_walk R fuel tr from to (hd_error (map fst rest)) s4)
        as [s'| |]; [| |exact IH].
      2:{ destruct IH as [Hfl4 Hhead]. split; [|exact Hlt].
          unfold s1 in Hlen4. rewrite free_list_set_tree in Hlen4.
          assert (HlenD : length D' = length (map snd D'))
            by now rewrite length_map.
          rewrite HD' in HlenD.
          destruct (cut_length from to (pb, pe)) as [Hc2 Hc3].
          destruct (from =? to); cbn [length] in HlenD; [lia|].
          destruct (Nat.eq_dec (length (cut from to (pb, pe))) 2) as [E2|N2];
            [|lia].
          exfalso. specialize (Hc3 E2). cbn [snd] in Hc3.
          destruct rest as [|q rest']; [exact Hhead|].
          rewrite <- app_assoc in Hord4. ord_split. vlia. }
      destruct IH as (Hr' & Ho' & Hperm').
      split; [|split].
      * rewrite Hr', map_app. rewrite HD'.
        cbn [map snd]. rewrite cut_list_cons. now rewrite <- app_assoc.
      * rewrite Ho', Ho4. unfold set_view, s1.
        now rewrite get_set_tree_other, nodes_set_tree.
      * now rewrite Hperm', Hperm4.
    + split; [|split; reflexivity].
      rewrite <- set_view_ranges, Hv, map_app. f_equal.
      symmetry. apply cut_list_keep.
      apply ordered_view_app in Hord. destruct Hord as (_ & Hord & _).
      apply ordered_view_cons in Hord. destruct Hord as (Hpp & Hpr' & Hor).
      pose proof (ordered_view_proper _ Hor) as Hpro.
      unfold vbegin, vend in *. cbn [fst snd] in *.
      cbn [map]. constructor; [cbn [fst snd]; lia|].
      rewrite Forall_map. rewrite Forall_forall in *.
      intros x Hx. specialize (Hpr' x Hx). specialize (Hpro x Hx). lia.
Qed.

Lemma remove_range_spec (tr : tree_ref) (from to : Z) (s : balloc_state) :
  NoDup (all_nodes s) ->
  ordered_set (set_ranges s tr) ->
  from <= to ->
  match __balloc_remove_range R tr from to s with
  | Done s' =>
      set_ranges s' tr = cut_list from to (set_ranges s tr)
      /\ set_view s' (other_tree tr) = set_view s (other_tree tr)
      /\ Permutation (all_nodes s') (all_nodes s)
  | Bug => (length (balloc_free_list s) < 2)%nat
  | Stuck => False
  end.
Proof.
  intros Hnd Hord Hft. unfold __balloc_remove_range.
  rewrite first_above_find by exact Hord.
  pose proof (find_split (fun n => from <? end_ (balloc_nodes s n))
                (rb_inorder (get_tree tr s))) as Hf.
  destruct (find _ _) as [p|].
  - destruct Hf as (l1 & l2 & Hids & Hp & Hl1).
    pose proof (remove_walk_spec tr from to Hft
                  (view_of (balloc_nodes s) (p :: l2))
                  (length (rb_inorder (get_tree tr s)))
                  (view_of (balloc_nodes s) l1) s Hnd) as Hw.
    rewrite <- view_of_app in Hw. unfold set_view in Hw.
    rewrite <- Hids in Hw. specialize (Hw eq_refl).
    rewrite view_of_ranges in Hw. specialize (Hw Hord).
    rewrite view_of_ids in Hw. cbn [hd_error] in Hw.
    assert (Hrest : Forall (fun x => from < vend x)
                           (view_of (balloc_nodes s) (p :: l2))).
    { unfold set_ranges in Hord. rewrite <- view_of_ranges, Hids in Hord.
      rewrite view_of_app in Hord.
      apply ordered_view_app in Hord. destruct Hord as (_ & Hord & _).
      cbn [view_of map] in *.
      apply ordered_view_cons in Hord. destruct Hord as (Hpp & Hpr & Hor).
      pose proof (ordered_view_proper _ Hor) as Hpro.
      apply Z.ltb_lt in Hp.
      unfold vbegin, vend in *. cbn [fst snd] in *.
      constructor; [cbn [fst snd]; lia|].
      rewrite Forall_forall in *. intros x Hx.
      specialize (Hpr x Hx). specialize (Hpro x Hx). lia. }
    specialize (Hw Hrest).
    assert (Hlen : (length (view_of (balloc_nodes s) (p :: l2))
                    <= length (rb_inorder (get_tree tr s)))%nat).
    { unfold view_of. rewrite length_map, Hids, length_app. lia. }
    specialize (Hw Hlen).
    destruct (remove_walk R _ tr from to (Some p) s) as [s'| |];
      [|exact (proj1 Hw)|exact Hw].
    destruct Hw as (Hr' & Ho' & Hperm'). split; [|split; assumption].
    rewrite Hr'. unfold set_ranges. rewrite <- !view_of_ranges, Hids.
    rewrite view_of_app, map_app, cut_list_app. f_equal.
    symmetry. apply cut_list_keep. unfold view_of. rewrite map_map.
    rewrite Forall_map. cbn [snd].
    eapply Forall_impl; [|exact Hl1]. cbn beta. intros n Hn.
    apply Z.ltb_ge in Hn. left. exact Hn.
  - rewrite remove_walk_none. split; [|split; reflexivity].
    symmetry. apply cut_list_keep. unfold set_ranges, __balloc_dump_ranges.
    rewrite Forall_map. cbn [snd].
    eapply Forall_impl; [|exact Hf]. cbn beta. intros n Hn.
    apply Z.ltb_ge in Hn. left. exact Hn.
Qed.

(** With two nodes in the pool the call returns: one range at most is
    split in two, and every other range it touches gives its node back
    before the next one is looked at. *)
Lemma remove_range_completes (tr : tree_ref) (from to : Z)
  (s : balloc_state) :
  NoDup (all_nodes s) ->
  ordered_set (set_ranges s tr) ->
  from <= to ->
  (2 <= length (balloc_free_list s))%nat ->
  exists s', __balloc_remove_range R tr from to s = Done s'.
Proof.
  intros Hnd Hord Hft Hfl.
  pose proof (remove_range_spec tr from to s Hnd Hord Hft) as H.
  destruct (__balloc_remove_range R tr from to s) as [s'| |];
    [now exists s'|lia|contradiction].
Qed.

End RemoveRange.

(** ** Sample states *)

Lemma distinct_NoDup (l : list nat) : distinct l = true -> NoDup l.
Proof.
  induction l as [|n l IH]; cbn [distinct]; intros H.
  - constructor.
  - apply andb_true_iff in H. destruct H as [H1 H2].
    constructor; [|now apply IH].
    intros Hin. apply (proj2 (existsb_eqb_in n l)) in Hin.
    now rewrite Hin in H1.
Qed.

Lemma single_range_nodup (b e : Z) : NoDup (all_nodes (single_range b e)).
Proof. apply distinct_NoDup. vm_compute. reflexivity. Qed.

Lemma single_range_ranges (b e : Z) :
  set_ranges (single_range b e) Free_ranges = [(b, e)].
Proof. reflexivity. Qed.

Lemma single_range_set (b e : Z) :
  b < e -> interval_set (set_ranges (single_range b e) Free_ranges).
Proof.
  intros H. rewrite single_range_ranges.
  split; repeat constructor. exact H.
Qed.

(** ** The claims about [__balloc_add_range] and [__balloc_remove_range] *)

Lemma interval_set_begins (l : list (Z * Z)) :
  interval_set l -> StronglySorted Z.lt (map fst l).
Proof.
  intros [Hp Hs]. induction l as [|r l IH]; cbn [map].
  - constructor.
  - destruct Hs as [Hr Hs]. apply Forall_cons_iff in Hp.
    destruct Hp as [Hpr Hp]. constructor; [now apply IH|].
    rewrite Forall_map. eapply Forall_impl; [|exact Hr].
    cbn beta. intros r' Hr'. lia.
Qed.

Section RangeClaims.

Variable R : rbtree_lib.

Lemma add_range_ranges (tr : tree_ref) (from to : Z) (s s' : balloc_state) :
  NoDup (all_nodes s) ->
  ordered_set (set_ranges s tr) ->
  __balloc_add_range R tr from to s = Done s' ->
  exists new,
    set_ranges s' tr = map snd (fst (v_add (set_view s tr) new from to)).
Proof.
  intros Hnd Hord Hadd.
  destruct (add_range_view R tr from to s s' Hnd Hord Hadd)
    as (new & fl & _ & Hv & _).
  exists new. now rewrite <- set_view_ranges, Hv.
Qed.

Lemma add_range_keeps_ordered (tr tr' : tree_ref) (from to : Z)
  (s s' : balloc_state) :
  NoDup (all_nodes s) ->
  ordered_set (set_ranges s tr) ->
  ordered_set (set_ranges s tr') ->
  from <= to ->
  __balloc_add_range R tr from to s = Done s' ->
  ordered_set (set_ranges s' tr').
Proof.
  intros Hnd Hord Hord' Hft Hadd.
  assert (E : tr' = tr \/ tr' = other_tree tr)
    by (destruct tr, tr'; auto).
  destruct E as [->| ->].
  - destruct (add_range_ranges tr from to s s' Hnd Hord Hadd) as (new & ->).
    apply v_add_ordered; [|exact Hft]. now rewrite set_view_ranges.
  - rewrite <- set_view_ranges.
    rewrite (add_range_other R tr from to s s' Hnd Hord Hadd).
    now rewrite set_view_ranges.
Qed.

(** Where the second merge loses nothing: on an interval set in which no
    stored range that begins at or after [from] ends below [to],
    [add_range(set, from, to)] with [from < to] returns unless the pool
    is empty, and leaves an interval set that covers exactly what was
    covered before together with [[from, to)]. *)
Theorem add_range_covers_union (tr : tree_ref) (from to : Z)
  (s : balloc_state) :
  NoDup (all_nodes s) ->
  interval_set (set_ranges s tr) ->
  from < to ->
  (forall r, In r (set_ranges s tr) -> from <= fst r -> to <= snd r) ->
  match __balloc_add_range R tr from to s with
  | Done s' =>
      interval_set (set_ranges s' tr)
      /\ forall x, covered s' tr x <-> covered s tr x \/ from <= x < to
  | Bug => balloc_free_list s = []
  | Stuck => False
  end.
Proof.
  intros Hnd Hset Hft Hcond.
  pose proof (interval_set_ordered _ Hset) as Hord.
  destruct (__balloc_add_range R tr from to s) as [s'| |] eqn:Hadd.
  - destruct (add_range_ranges tr from to s s' Hnd Hord Hadd) as (new & E).
    unfold covered. rewrite E. rewrite <- set_view_ranges in *. split.
    + now apply v_add_interval_set.
    + intros x. apply v_add_covers; [exact Hord|].
      intros y Hy. apply (Hcond (snd y)). now apply in_map.
  - now apply (add_range_bug R tr from to).
  - now apply (add_range_not_stuck R tr from to s).
Qed.

(** C3: on an interval set, [remove_range(set, from, to)] with
    [from <= to] returns unless the pool holds fewer than two nodes, and
    leaves a set that covers exactly the addresses that were covered and
    lie outside [[from, to)]: nothing stored overlaps [[from, to)] any
    more and nothing outside it is lost.  The stored ranges are those of
    [cut_list]; in particular [{[0,100)}] becomes [{[0,40), [60,100)}]
    when [[40, 60)] is removed. *)
Theorem remove_range_carves (tr : tree_ref) (from to : Z)
  (s : balloc_state) :
  NoDup (all_nodes s) ->
  interval_set (set_ranges s tr) ->
  from <= to ->
  match __balloc_remove_range R tr from to s with
  | Done s' =>
      set_ranges s' tr = cut_list from to (set_ranges s tr)
      /\ interval_set (set_ranges s' tr)
      /\ (forall x, from <= x < to -> ~ covered s' tr x)
      /\ (forall x, covered s tr x -> ~ (from <= x < to) -> covered s' tr x)
  | Bug => (length (balloc_free_list s) < 2)%nat
  | Stuck => False
  end
  /\ exists s1,
      __balloc_remove_range R Free_ranges 40 60 (single_range 0 100)
      = Done s1
      /\ set_ranges s1 Free_ranges = [(0, 40); (60, 100)].
Proof.
  intros Hnd Hset Hft. split.
  - pose proof (remove_range_spec R tr from to s Hnd
                  (interval_set_ordered _ Hset) Hft) as H.
    destruct (__balloc_remove_range R tr from to s) as [s'| |];
      [|exact H|exact H].
    destruct H as (E & _ & _).
    split; [exact E|]. unfold covered. rewrite E.
    split; [now apply cut_list_interval_set|]. split.
    + intros x Hx Hc. apply covers_cut_list in Hc; [tauto|exact Hft].
    + intros x Hc Hx. apply covers_cut_list; [exact Hft|tauto].
  - pose proof (interval_set_ordered _ (single_range_set 0 100 eq_refl))
      as Hord1.
    assert (Hfl : (2 <= length (balloc_free_list (single_range 0 100)))%nat)
      by (cbn; lia).
    destruct (remove_range_completes R Free_ranges 40 60 (single_range 0 100)
                (single_range_nodup 0 100) Hord1 ltac:(lia) Hfl)
      as (s1 & H1).
    exists s1. split; [exact H1|].
    pose proof (remove_range_spec R Free_ranges 40 60 (single_range 0 100)
                  (single_range_nodup 0 100) Hord1 ltac:(lia)) as H.
    rewrite H1 in H. destruct H as (E1 & _ & _).
    rewrite E1. reflexivity.
Qed.

Lemma remove_range_keeps_set (tr : tree_ref) (from to : Z)
  (s s' : balloc_state) :
  NoDup (all_nodes s) ->
  interval_set (set_ranges s tr) ->
  from <= to ->
  __balloc_remove_range R tr from to s = Done s' ->
  interval_set (set_ranges s' tr).
Proof.
  intros Hnd Hset Hft Hrem.
  pose proof (remove_range_spec R tr from to s Hnd
                (interval_set_ordered _ Hset) Hft) as H.
  rewrite Hrem in H. destruct H as (E & _ & _). rewrite E.
  now apply cut_list_interval_set.
Qed.

Lemma remove_range_not_stuck (tr : tree_ref) (from to : Z)
  (s : balloc_state) :
  NoDup (all_nodes s) ->
  ordered_set (set_ranges s tr) ->
  from <= to ->
  __balloc_remove_range R tr from to s <> Stuck.
Proof.
  intros Hnd Hord Hft E.
  pose proof (remove_range_spec R tr from to s Hnd Hord Hft) as H.
  now rewrite E in H.
Qed.

Lemma run_set_ops_invariant (tr : tree_ref) (ops : list set_op) :
  Forall set_op_ok ops ->
  forall s,
    NoDup (all_nodes s) ->
    interval_set (set_ranges s tr) ->
    match run_set_ops R tr ops s with
    | Done s' => NoDup (all_nodes s') /\ interval_set (set_ranges s' tr)
    | Bug => True
    | Stuck => False
    end.
Proof.
  induction 1 as [|o ops Ho _ IH]; intros s Hnd Hset; cbn [run_set_ops].
  - auto.
  - destruct (apply_set_op R tr o s) as [s1| |] eqn:E1; cbn [bind].
    + apply IH.
      * destruct o as [from to|from to]; cbn in E1, Ho.
        -- eapply Permutation_NoDup;
             [symmetry; apply (add_range_nodes R tr from to s s1 Hnd E1)
             |exact Hnd].
        -- pose proof (remove_range_spec R tr from to s Hnd
                         (interval_set_ordered _ Hset) Ho) as H.
           rewrite E1 in H. destruct H as (_ & _ & Hperm).
           eapply Permutation_NoDup; [symmetry; exact Hperm|exact Hnd].
      * destruct o as [from to|from to]; cbn in E1, Ho.
        -- pose proof (interval_set_ordered _ Hset) as Hord.
           destruct (add_range_ranges tr from to s s1 Hnd Hord E1)
             as (new & ->).
           apply v_add_interval_set; [|exact Ho].
           now rewrite set_view_ranges.
        -- now apply (remove_range_keeps_set tr from to s s1).
    + exact I.
    + destruct o as [from to|from to]; cbn in E1, Ho.
      * now apply (add_range_not_stuck R tr from to s).
      * now apply (remove_range_not_stuck tr from to s Hnd
                     (interval_set_ordered _ Hset) Ho).
Qed.

(** C2: starting from an empty set, any sequence of [add_range] calls
    with [from < to] and [remove_range] calls with [from <= to] either
    runs out of pool nodes on the way or returns with stored ranges that
    are non-empty, pairwise disjoint and non-adjacent, and that the
    in-order traversal lists by strictly increasing begin. *)
Theorem mutators_keep_interval_set (tr : tree_ref) (ops : list set_op)
  (s0 : balloc_state) :
  NoDup (all_nodes s0) ->
  rb_inorder (get_tree tr s0) = [] ->
  Forall set_op_ok ops ->
  match run_set_ops R tr ops s0 with
  | Done s =>
      interval_set (set_ranges s tr)
      /\ StronglySorted Z.lt (map fst (set_ranges s tr))
  | Bug => True
  | Stuck => False
  end.
Proof.
  intros Hnd Hempty Hops.
  assert (Hset0 : interval_set (set_ranges s0 tr)).
  { unfold set_ranges, __balloc_dump_ranges. rewrite Hempty.
    split; constructor. }
  pose proof (run_set_ops_invariant tr ops Hops s0 Hnd Hset0) as H.
  destruct (run_set_ops R tr ops s0) as [s| |]; [|exact I|exact H].
  destruct H as [_ Hset].
  split; [exact Hset|now apply interval_set_begins].
Qed.

(** C7: if no address of [[from, to)], [from < to], is covered by an
    interval set, then [add_range(set, from, to)] followed by
    [remove_range(set, from, to)] returns unless the pool holds fewer
    than three nodes, and leaves the in-order traversal of the set as it
    was. *)
Theorem add_then_remove_restores (tr : tree_ref) (from to : Z)
  (s : balloc_state) :
  NoDup (all_nodes s) ->
  interval_set (set_ranges s tr) ->
  from < to ->
  (forall x, from <= x < to -> ~ covered s tr x) ->
  match (s1 <- __balloc_add_range R tr from to s ;;
         __balloc_remove_range R tr from to s1) with
  | Done s2 => set_ranges s2 tr = set_ranges s tr
  | Bug => (length (balloc_free_list s) < 3)%nat
  | Stuck => False
  end.
Proof.
  intros Hnd Hset Hft Habs.
  pose proof (interval_set_ordered _ Hset) as Hord.
  destruct (__balloc_add_range R tr from to s) as [s1| |] eqn:Hadd;
    cbn [bind].
  2:{ rewrite (add_range_bug R tr from to s Hadd). cbn. lia. }
  2:{ now apply (add_range_not_stuck R tr from to s). }
  destruct (add_range_ranges tr from to s s1 Hnd Hord Hadd) as (new & E1).
  assert (Hnd1 : NoDup (all_nodes s1)).
  { eapply Permutation_NoDup;
      [symmetry; apply (add_range_nodes R tr from to s s1 Hnd Hadd)
      |exact Hnd]. }
  assert (Hord1 : ordered_set (set_ranges s1 tr)).
  { rewrite E1. apply v_add_ordered; [|lia]. now rewrite set_view_ranges. }
  pose proof (remove_range_spec R tr from to s1 Hnd1 Hord1 ltac:(lia)) as H.
  destruct (__balloc_remove_range R tr from to s1) as [s2| |];
    [| |exact H].
  2:{ destruct (add_range_view R tr from to s s1 Hnd Hord Hadd)
        as (new' & fl & Ef & _ & Ef1 & _).
      rewrite Ef1, length_app in H. rewrite Ef. cbn [length]. lia. }
  destruct H as (E2 & _ & _).
  rewrite E2, E1, <- set_view_ranges.
  apply cut_add_restore; [now rewrite set_view_ranges|exact Hft|].
  intros y Hy.
  assert (Hyr : In (snd y) (set_ranges s tr))
    by (rewrite <- set_view_ranges; now apply in_map).
  destruct Hset as [Hp _]. rewrite Forall_forall in Hp.
  specialize (Hp _ Hyr). unfold vbegin, vend.
  destruct (Z.le_gt_cases (snd (snd y)) from) as [|H1]; [now left|].
  destruct (Z.le_gt_cases to (fst (snd y))) as [|H2]; [now right|].
  exfalso. apply (Habs (Z.max from (fst (snd y)))); [lia|].
  exists (snd y). split; [exact Hyr|lia].
Qed.

(** C9: on an interval set, [remove_range(set, x, x)] returns unless the
    pool holds fewer than two nodes, and leaves the in-order traversal of
    the set unchanged. *)
Theorem remove_empty_range_is_noop (tr : tree_ref) (x : Z)
  (s : balloc_state) :
  NoDup (all_nodes s) ->
  interval_set (set_ranges s tr) ->
  match __balloc_remove_range R tr x x s with
  | Done s' => set_ranges s' tr = set_ranges s tr
  | Bug => (length (balloc_free_list s) < 2)%nat
  | Stuck => False
  end.
Proof.
  intros Hnd Hset.
  pose proof (remove_range_spec R tr x x s Hnd
                (interval_set_ordered _ Hset) ltac:(lia)) as H.
  destruct (__balloc_remove_range R tr x x s) as [s'| |];
    [|exact H|exact H].
  destruct H as (E & _ & _).
  rewrite E. apply cut_list_same.
Qed.

End RangeClaims.

(** ** Alignment *)

Lemma land_wrap64 (x y : Z) :
  0 <= x < 2 ^ 64 -> Z.land x (wrap64 y) = Z.land x y.
Proof.
  intros Hx. unfold wrap64.
  rewrite <- (Z.land_ones y 64) by lia.
  rewrite (Z.land_comm y), Z.land_assoc.
  rewrite (Z.land_ones x 64) by lia.
  now rewrite Z.mod_small by exact Hx.
Qed.

Lemma aligned_addr_div (k b : Z) :
  0 <= k -> 0 <= b -> b + 2 ^ k <= 2 ^ 64 ->
  aligned_addr (2 ^ k) b = (b + (2 ^ k - 1)) / 2 ^ k * 2 ^ k.
Proof.
  intros Hk Hb Hfit.
  assert (Hpos : 0 < 2 ^ k) by (apply Z.pow_pos_nonneg; lia).
  unfold aligned_addr.
  assert (Em : wrap64 (2 ^ k - 1) = 2 ^ k - 1)
    by (unfold wrap64; apply Z.mod_small; lia).
  rewrite Em.
  assert (Eb : wrap64 (b + (2 ^ k - 1)) = b + (2 ^ k - 1))
    by (unfold wrap64; apply Z.mod_small; lia).
  rewrite Eb, land_wrap64 by lia.
  rewrite <- Z.ldiff_land.
  replace (2 ^ k - 1) with (Z.ones k)
    by (rewrite Z.ones_equiv; unfold Z.pred; lia).
  rewrite Z.ldiff_ones_r by exact Hk.
  rewrite Z.shiftl_mul_pow2, Z.shiftr_div_pow2 by exact Hk.
  reflexivity.
Qed.

(** Under the conditions of [request_fits] the address computed for a
    candidate clipped at [b] is the least multiple of [align] that is not
    below [b]. *)
Lemma aligned_addr_spec (align b : Z) :
  power_of_two align -> 0 <= b -> b + align <= 2 ^ 64 ->
  (align | aligned_addr align b)
  /\ b <= aligned_addr align b < b + align
  /\ forall m, (align | m) -> b <= m -> aligned_addr align b <= m.
Proof.
  intros (k & Hk & ->) Hb Hfit.
  assert (Hpos : 0 < 2 ^ k) by (apply Z.pow_pos_nonneg; lia).
  rewrite aligned_addr_div by assumption.
  set (q := (b + (2 ^ k - 1)) / 2 ^ k).
  pose proof (Z.div_mod (b + (2 ^ k - 1)) (2 ^ k) ltac:(lia)) as Hdm.
  pose proof (Z.mod_pos_bound (b + (2 ^ k - 1)) (2 ^ k) Hpos) as Hmb.
  fold q in Hdm.
  split; [exists q; reflexivity|]. split; [lia|].
  intros m [j ->] Hm.
  assert (q <= j); [|nia].
  destruct (Z.le_gt_cases q j) as [|Hlt]; [assumption|].
  assert (j + 1 <= q) by lia. nia.
Qed.

(** ** The search loop of [__balloc_alloc] *)

Lemma alloc_walk_cons (nd : nat -> memory_node) (size align from to : Z)
  (p : nat) (rest : list nat) :
  alloc_walk nd size align from to (p :: rest)
  = if begin (nd p) <? to then
      if alloc_test nd size align from to p
      then Some (p, aligned_addr align (clip_begin nd from p))
      else alloc_walk nd size align from to rest
    else None.
Proof. reflexivity. Qed.

Lemma alloc_walk_some (nd : nat -> memory_node) (size align from to : Z)
  (cands : list nat) (p : nat) (addr : Z) :
  alloc_walk nd size align from to cands = Some (p, addr) ->
  exists c1 c2,
    cands = c1 ++ p :: c2
    /\ Forall (fun q => begin (nd q) < to
                        /\ alloc_test nd size align from to q = false) c1
    /\ begin (nd p) < to
    /\ alloc_test nd size align from to p = true
    /\ addr = aligned_addr align (clip_begin nd from p).
Proof.
  induction cands as [|q cands IH]; [discriminate|].
  rewrite alloc_walk_cons.
  destruct (Z.ltb_spec (begin (nd q)) to) as [Hlt|]; [|discriminate].
  destruct (alloc_test nd size align from to q) eqn:Et.
  - intros [= <- <-]. exists [], cands. repeat split; auto.
  - intros H. destruct (IH H) as (c1 & c2 & -> & Hc1 & Hp & Htp & Ha).
    exists (q :: c1), c2. repeat split; auto.
Qed.

(** What a candidate that passes the test provides, when no sum wraps. *)
Lemma alloc_test_true (nd : nat -> memory_node) (size align from to : Z)
  (p : nat) :
  power_of_two align -> 0 < size -> request_fits size align from to ->
  begin (nd p) < to ->
  let a := aligned_addr align (clip_begin nd from p) in
  (align | a) /\ from <= a /\ begin (nd p) <= a
  /\ (forall m, (align | m) -> from <= m -> begin (nd p) <= m -> a <= m)
  /\ (alloc_test nd size align from to p = true
      <-> a + size <= to /\ a + size <= end_ (nd p)).
Proof.
  intros Hpow Hsize (Hf & Ht & Hff & Hft) Hbp a.
  assert (Halign : 0 < align).
  { destruct Hpow as (k & Hk & ->). apply Z.pow_pos_nonneg; lia. }
  assert (Hb : from <= clip_begin nd from p
               /\ begin (nd p) <= clip_begin nd from p
               /\ (clip_begin nd from p = from
                   \/ clip_begin nd from p = begin (nd p))).
  { unfold clip_begin. destruct (Z.ltb_spec from (begin (nd p))); lia. }
  destruct (aligned_addr_spec align (clip_begin nd from p) Hpow)
    as (Hdiv & Hrange & Hmin); [lia|lia|].
  fold a in Hdiv, Hrange, Hmin.
  split; [exact Hdiv|]. split; [lia|]. split; [lia|]. split.
  - intros m Hm H1 H2. apply Hmin; [exact Hm|lia].
  - unfold alloc_test. fold a.
    assert (Ew : wrap64 (a + size) = a + size)
      by (unfold wrap64; apply Z.mod_small; lia).
    rewrite Ew. unfold clip_end.
    destruct (Z.ltb_spec (end_ (nd p)) to); rewrite Z.leb_le; lia.
Qed.

Lemma separated_pairwise (l : list (Z * Z)) (r r' : Z * Z) :
  separated l -> In r l -> In r' l ->
  r = r' \/ snd r < fst r' \/ snd r' < fst r.
Proof.
  induction l as [|q l IH]; cbn [separated]; [intros _ []|].
  intros [Hq Hs] [->|Hr] [->|Hr'].
  - now left.
  - right. left. rewrite Forall_forall in Hq. now apply Hq.
  - right. right. rewrite Forall_forall in Hq. now apply Hq.
  - now apply IH.
Qed.

(** In an interval set a covered block lies in one stored range. *)
Lemma block_in_one_range (l : list (Z * Z)) (lo hi : Z) :
  interval_set l -> lo < hi ->
  (forall x, lo <= x < hi -> covers l x) ->
  exists r, In r l /\ fst r <= lo /\ hi <= snd r.
Proof.
  intros [Hp Hs] Hlh Hcov.
  destruct (Hcov lo ltac:(lia)) as (r & Hr & Hlo).
  exists r. split; [exact Hr|]. split; [lia|].
  destruct (Z.le_gt_cases hi (snd r)) as [|Hgt]; [assumption|].
  destruct (Hcov (snd r) ltac:(lia)) as (r' & Hr' & Hin').
  destruct (separated_pairwise l r r' Hs Hr Hr') as [->|[H|H]]; lia.
Qed.

Lemma covers_below (D : list vnode) (lo x : Z) :
  Forall (fun q => vend q < lo) D -> covers (map snd D) x -> x < lo.
Proof.
  intros HD (r & Hr & Hx). apply in_map_iff in Hr.
  destruct Hr as (q & <- & Hq). rewrite Forall_forall in HD.
  specialize (HD q Hq). unfold vend in HD. lia.
Qed.

Lemma covers_above (D : list vnode) (hi x : Z) :
  Forall (fun q => hi < vbegin q) D -> covers (map snd D) x -> hi < x.
Proof.
  intros HD (r & Hr & Hx). apply in_map_iff in Hr.
  destruct Hr as (q & <- & Hq). rewrite Forall_forall in HD.
  specialize (HD q Hq). unfold vbegin in HD. lia.
Qed.

(** ** [__balloc_alloc] *)

Section Alloc.

Variable R : rbtree_lib.

Lemma erase_view (tr : tree_ref) (p : nat) (pb pe : Z) (D rest : list vnode)
  (s : balloc_state) :
  NoDup (all_nodes s) ->
  set_view s tr = D ++ (p, (pb, pe)) :: rest ->
  let s1 := set_tree tr (rb_erase R p (get_tree tr s)) s in
  set_view s1 tr = D ++ rest
  /\ NoDup (p :: all_nodes s1)
  /\ Permutation (p :: all_nodes s1) (all_nodes s)
  /\ balloc_nodes s1 p = mk_node pb pe
  /\ set_view s1 (other_tree tr) = set_view s (other_tree tr).
Proof.
  intros Hnd Hv s1.
  pose proof Hv as Hv'. apply view_of_eq in Hv'.
  destruct Hv' as [Hids Hdat].
  rewrite map_app in Hids. cbn [map fst] in Hids.
  apply Forall_app in Hdat. destruct Hdat as [HdD Hdr].
  apply Forall_cons_iff in Hdr. destruct Hdr as [Hdp Hdr].
  cbn [fst snd] in Hdp.
  pose proof (all_nodes_tree_nodup tr s Hnd) as Hndt.
  rewrite Hids in Hndt.
  assert (HpD : ~ In p (map fst D)).
  { apply NoDup_remove_2 in Hndt. intros H. apply Hndt.
    apply in_or_app. now left. }
  assert (Hpr : ~ In p (map fst rest)).
  { apply NoDup_remove_2 in Hndt. intros H. apply Hndt.
    apply in_or_app. now right. }
  assert (Hin : In p (rb_inorder (get_tree tr s))).
  { rewrite Hids. apply in_or_app. right. now left. }
  assert (Hperm1 : Permutation (p :: all_nodes s1) (all_nodes s))
    by now apply erase_nodes.
  split; [|split; [|split; [|split]]].
  - unfold set_view, s1. apply view_of_eq.
    rewrite get_set_tree, rb_erase_inorder, nodes_set_tree, Hids.
    rewrite seq_erase_mid by assumption. rewrite map_app.
    split; [reflexivity|]. apply Forall_app. now split.
  - eapply Permutation_NoDup; [symmetry; exact Hperm1|exact Hnd].
  - exact Hperm1.
  - unfold s1. rewrite nodes_set_tree.
    injection Hdp as E1 E2. destruct (balloc_nodes s p). cbn in *.
    now subst.
  - unfold set_view, s1. now rewrite get_set_tree_other, nodes_set_tree.
Qed.

Lemma alloc_unfold (size align from to : Z) (s : balloc_state) :
  __balloc_alloc R size align from to s
  = match alloc_search size align from to s with
    | Some (p, addr) =>
        s4 <- carve R Free_ranges p addr (wrap64 (addr + size))
                (set_tree Free_ranges (rb_erase R p (free_ranges s)) s) ;;
        Done (addr, s4)
    | None => Done (to, s)
    end.
Proof.
  unfold __balloc_alloc.
  destruct (alloc_search size align from to s) as [[p addr]|];
    [|reflexivity].
  unfold carve.
  destruct (if _ <? addr then _ else _) as [s2| |]; cbn [bind];
    [|reflexivity|reflexivity].
  destruct (if _ <? _ then _ else _) as [s3| |]; reflexivity.
Qed.

Lemma alloc_search_hit (size align from to : Z) (s : balloc_state)
  (p : nat) (addr : Z) :
  alloc_search size align from to s = Some (p, addr) ->
  begin (balloc_nodes s p) < to
  /\ alloc_test (balloc_nodes s) size align from to p = true
  /\ addr = aligned_addr align (clip_begin (balloc_nodes s) from p).
Proof.
  unfold alloc_search.
  destruct (rb_first_above _ _ _ _) as [p0|]; [|discriminate].
  intros H. apply alloc_walk_some in H.
  destruct H as (c1 & c2 & _ & _ & H1 & H2 & H3). auto.
Qed.

(** Where the search stops on an ordered set: every range before the one
    it takes either ends at or below [from] or failed the test. *)
Lemma alloc_search_spec (size align from to : Z) (s : balloc_state)
  (p : nat) (addr : Z) :
  NoDup (all_nodes s) ->
  ordered_set (set_ranges s Free_ranges) ->
  alloc_search size align from to s = Some (p, addr) ->
  exists D rest,
    set_view s Free_ranges
    = D ++ (p, (begin (balloc_nodes s p), end_ (balloc_nodes s p))) :: rest
    /\ Forall (fun q => vend q <= from
                        \/ (vbegin q < to
                            /\ alloc_test (balloc_nodes s) size align from to
                                          (fst q) = false)) D.
Proof.
  intros Hnd Hord. unfold alloc_search.
  rewrite first_above_find by exact Hord.
  pose proof (find_split (fun n => from <? end_ (balloc_nodes s n))
                (rb_inorder (free_ranges s))) as Hf.
  destruct (find _ _) as [p0|]; [|discriminate].
  destruct Hf as (l1 & l2 & Hids & Hp0 & Hl1).
  pose proof (all_nodes_tree_nodup Free_ranges s Hnd) as Hndt.
  cbn [get_tree] in Hndt. rewrite Hids in Hndt.
  assert (Hp0l : ~ In p0 l1).
  { apply NoDup_remove_2 in Hndt. intros H. apply Hndt.
    apply in_or_app. now left. }
  rewrite Hids, seq_from_mid by exact Hp0l.
  intros H. apply alloc_walk_some in H.
  destruct H as (c1 & c2 & Hc & Hc1 & _).
  exists (view_of (balloc_nodes s) (l1 ++ c1)), (view_of (balloc_nodes s) c2).
  split.
  - unfold set_view. cbn [get_tree]. rewrite Hids, Hc.
    rewrite !view_of_app. cbn [view_of map]. now rewrite <- app_assoc.
  - unfold view_of. rewrite Forall_map. apply Forall_app. split.
    + eapply Forall_impl; [|exact Hl1]. cbn beta. intros n Hn.
      apply Z.ltb_ge in Hn. left. exact Hn.
    + eapply Forall_impl; [|exact Hc1]. cbn beta. intros n Hn.
      right. exact Hn.
Qed.

Lemma alloc_success (size align from to : Z) (s : balloc_state)
  (p : nat) (addr : Z) :
  NoDup (all_nodes s) ->
  interval_set (set_ranges s Free_ranges) ->
  power_of_two align -> 0 < size -> request_fits size align from to ->
  alloc_search size align from to s = Some (p, addr) ->
  match __balloc_alloc R size align from to s with
  | Done (a, s') =>
      a = addr
      /\ exists D rest pb pe,
          set_view s Free_ranges = D ++ (p, (pb, pe)) :: rest
          /\ Forall (fun q => vend q <= from
                              \/ (vbegin q < to
                                  /\ alloc_test (balloc_nodes s) size align
                                        from to (fst q) = false)) D
          /\ (align | addr) /\ from <= addr /\ pb <= addr
          /\ addr + size <= to /\ addr + size <= pe
          /\ (forall m, (align | m) -> from <= m -> pb <= m -> addr <= m)
          /\ set_ranges s' Free_ranges
             = map snd D ++ cut addr (addr + size) (pb, pe) ++ map snd rest
  | Bug => (length (balloc_free_list s) < 2)%nat
  | Stuck => False
  end.
Proof.
  intros Hnd Hset Hpow Hsize Hfit Hsearch.
  pose proof (interval_set_ordered _ Hset) as Hord.
  destruct (alloc_search_spec size align from to s p addr Hnd Hord Hsearch)
    as (D & rest & Hv & HD).
  destruct (alloc_search_hit size align from to s p addr Hsearch)
    as (Hbp & Htest & Haddr).
  set (pb := begin (balloc_nodes s p)) in *.
  set (pe := end_ (balloc_nodes s p)) in *.
  destruct (alloc_test_true (balloc_nodes s) size align from to p
              Hpow Hsize Hfit Hbp) as (Hdiv & Hfrom & Hpb & Hmin & Hiff).
  rewrite <- Haddr in Hdiv, Hfrom, Hpb, Hmin, Hiff.
  apply Hiff in Htest. destruct Htest as [Hto Hpe]. fold pe in Hpe.
  assert (Ew : wrap64 (addr + size) = addr + size).
  { destruct Hfit as (Hf & Ht & Hff & Hft).
    assert (Halign : 0 < align).
    { destruct Hpow as (k & Hk & ->). apply Z.pow_pos_nonneg; lia. }
    unfold wrap64. apply Z.mod_small. lia. }
  rewrite alloc_unfold, Hsearch, Ew.
  destruct (erase_view Free_ranges p pb pe D rest s Hnd Hv)
    as (Hv1 & Hnd1 & Hperm1 & Hp1 & Ho1).
  cbn [get_tree] in *.
  assert (Hordv : ordered_set (map snd (D ++ (p, (pb, pe)) :: rest)))
    by (rewrite <- Hv, set_view_ranges; exact Hord).
  pose proof (carve_view R Free_ranges p pb pe addr (addr + size) D rest _
                Hnd1 Hv1 Hp1 Hordv ltac:(lia) ltac:(lia) ltac:(lia)) as Hc.
  destruct (carve R Free_ranges p addr (addr + size) _) as [s4| |];
    cbn [bind]; [| |exact Hc].
  2:{ now rewrite free_list_set_tree in Hc. }
  destruct Hc as (D' & Hv4 & HD' & _ & _ & _).
  destruct (Z.eqb_spec addr (addr + size)); [lia|].
  split; [reflexivity|].
  exists D, rest, pb, pe. repeat (split; [assumption|]).
  rewrite <- set_view_ranges, Hv4, !map_app. now rewrite HD'.
Qed.

(** With two nodes in the pool [__balloc_alloc] returns. *)
Lemma alloc_completes (size align from to : Z) (s : balloc_state) :
  NoDup (all_nodes s) ->
  interval_set (set_ranges s Free_ranges) ->
  power_of_two align -> 0 < size -> request_fits size align from to ->
  (2 <= length (balloc_free_list s))%nat ->
  exists a s', __balloc_alloc R size align from to s = Done (a, s').
Proof.
  intros Hnd Hset Hpow Hsize Hfit Hfl.
  destruct (alloc_search size align from to s) as [[p addr]|] eqn:Hsearch.
  - pose proof (alloc_success size align from to s p addr
                  Hnd Hset Hpow Hsize Hfit Hsearch) as H.
    destruct (__balloc_alloc R size align from to s) as [[a s']| |];
      [now exists a, s'|lia|contradiction].
  - rewrite alloc_unfold, Hsearch. now exists to, s.
Qed.

(** C4, as amended: when no sum formed from the request can leave the
    64-bit range, with [size > 0] and [align] a power of two,
    [alloc(size, align, from, to)] returns unless the pool holds fewer
    than two nodes, and a return value [a] other than [to] is a multiple
    of [align] with [from <= a] and [a + size <= to]; the block
    [[a, a+size)] was covered by the free set, and afterwards the free set
    covers exactly what it covered before without that block. *)
Theorem alloc_carves_block (size align from to : Z) (s : balloc_state) :
  NoDup (all_nodes s) ->
  interval_set (set_ranges s Free_ranges) ->
  power_of_two align -> 0 < size -> request_fits size align from to ->
  match __balloc_alloc R size align from to s with
  | Done (a, s') =>
      a <> to ->
      (align | a) /\ from <= a /\ a + size <= to
      /\ (forall x, a <= x < a + size -> covered s Free_ranges x)
      /\ (forall x, covered s' Free_ranges x
                    <-> covered s Free_ranges x /\ ~ (a <= x < a + size))
  | Bug => (length (balloc_free_list s) < 2)%nat
  | Stuck => False
  end.
Proof.
  intros Hnd Hset Hpow Hsize Hfit.
  destruct (alloc_search size align from to s) as [[p addr]|] eqn:Hsearch.
  - pose proof (alloc_success size align from to s p addr
                  Hnd Hset Hpow Hsize Hfit Hsearch) as H.
    destruct (__balloc_alloc R size align from to s) as [[a s']| |];
      [|exact H|exact H].
    destruct H as (-> & D & rest & pb & pe & Hv & _ & Hdiv & Hfrom & Hpb
                   & Hto & Hpe & _ & Hr').
    intros _.
    pose proof (interval_set_ordered _ Hset) as Hord.
    rewrite <- set_view_ranges, Hv in Hord.
    split; [exact Hdiv|]. split; [exact Hfrom|]. split; [exact Hto|].
    unfold covered. rewrite Hr', <- set_view_ranges, Hv.
    split.
    + intros x Hx. apply covers_view_app. right.
      apply covers_view_cons. left. unfold vbegin, vend. cbn [fst snd]. lia.
    + intros x.
      rewrite covers_app, covers_app, covers_cut by lia.
      rewrite covers_view_app, covers_view_cons.
      unfold vbegin, vend. cbn [fst snd].
      assert (HD : covers (map snd D) x -> x < pb).
      { apply covers_below. ord_split. fall. }
      assert (Hrest : covers (map snd rest) x -> pe < x).
      { apply covers_above. ord_split. fall. }
      intuition lia.
  - rewrite alloc_unfold, Hsearch. intros Hne. contradiction.
Qed.

(** C10, as amended: under the same conditions the address returned on
    success is feasible and no feasible address is below it. *)
Theorem alloc_returns_lowest (size align from to : Z) (s : balloc_state) :
  NoDup (all_nodes s) ->
  interval_set (set_ranges s Free_ranges) ->
  power_of_two align -> 0 < size -> request_fits size align from to ->
  match __balloc_alloc R size align from to s with
  | Done (a, s') =>
      a <> to ->
      feasible (set_ranges s Free_ranges) size align from to a
      /\ forall a',
           feasible (set_ranges s Free_ranges) size align from to a' ->
           a <= a'
  | Bug => (length (balloc_free_list s) < 2)%nat
  | Stuck => False
  end.
Proof.
  intros Hnd Hset Hpow Hsize Hfit.
  destruct (alloc_search size align from to s) as [[p addr]|] eqn:Hsearch.
  - pose proof (alloc_success size align from to s p addr
                  Hnd Hset Hpow Hsize Hfit Hsearch) as H.
    destruct (__balloc_alloc R size align from to s) as [[a s']| |];
      [|exact H|exact H].
    destruct H as (-> & D & rest & pb & pe & Hv & HD & Hdiv & Hfrom & Hpb
                   & Hto & Hpe & Hmin & _).
    intros _.
    pose proof (interval_set_ordered _ Hset) as Hord.
    rewrite <- set_view_ranges, Hv in Hord.
    split.
    + split; [exact Hdiv|]. split; [exact Hfrom|]. split; [exact Hto|].
      intros x Hx. rewrite <- set_view_ranges, Hv.
      apply covers_view_app. right.
      apply covers_view_cons. left. unfold vbegin, vend. cbn [fst snd]. lia.
    + intros a' (Hdiv' & Hfrom' & Hto' & Hcov').
      destruct (block_in_one_range _ a' (a' + size) Hset ltac:(lia) Hcov')
        as (r & Hr & Hlo & Hhi).
      rewrite <- set_view_ranges, Hv in Hr.
      apply in_map_iff in Hr. destruct Hr as (q & <- & Hq).
      apply in_app_or in Hq. destruct Hq as [Hq|[<-|Hq]].
      * (* a range the search went past *)
        rewrite Forall_forall in HD. specialize (HD q Hq).
        unfold vbegin, vend in HD.
        destruct HD as [HD|[Hqb Hqt]]; [lia|].
        exfalso.
        assert (Hq' : In q (set_view s Free_ranges))
          by (rewrite Hv; apply in_or_app; now left).
        unfold set_view, view_of in Hq'. apply in_map_iff in Hq'.
        destruct Hq' as (n & <- & _). cbn [fst snd] in *.
        destruct (alloc_test_true (balloc_nodes s) size align from to n
                    Hpow Hsize Hfit Hqb) as (_ & _ & _ & Hminq & Hiffq).
        assert (Ht : alloc_test (balloc_nodes s) size align from to n = true).
        { apply Hiffq.
          specialize (Hminq a' Hdiv' Hfrom' Hlo). lia. }
        congruence.
      * cbn [fst snd] in *. apply Hmin; assumption.
      * assert (Hqr : Forall (fun y => pe < vbegin y) rest)
          by (ord_split; fall).
        rewrite Forall_forall in Hqr. specialize (Hqr q Hq).
        unfold vbegin in Hqr. lia.
  - rewrite alloc_unfold, Hsearch. intros Hne. contradiction.
Qed.

(** C5, as amended: when no sum formed from the request can leave the
    64-bit range, with [size > 0] and [align] a power of two,
    [alloc(size, align, from, to)] returns [to] exactly when the search
    finds no range, a value returned on success is strictly below [to],
    and a call that returns [to] leaves the state as it was; the call can
    only stop for want of pool nodes when the search has found a range.
    In particular [alloc(200, 1, 0, 100)] on [{[0,100)}] returns [100]
    and changes nothing. *)
Theorem alloc_sentinel (size align from to : Z) (s : balloc_state) :
  power_of_two align -> 0 < size -> request_fits size align from to ->
  match __balloc_alloc R size align from to s with
  | Done (a, s') =>
      (a = to <-> alloc_search size align from to s = None)
      /\ (a <> to -> a < to)
      /\ (a = to -> s' = s)
  | Bug => alloc_search size align from to s <> None
  | Stuck => False
  end
  /\ __balloc_alloc R 200 1 0 100 (single_range 0 100)
     = Done (100, single_range 0 100).
Proof.
  intros Hpow Hsize Hfit. split; [|reflexivity].
  rewrite alloc_unfold.
  destruct (alloc_search size align from to s) as [[p addr]|] eqn:Hsearch.
  - destruct (alloc_search_hit size align from to s p addr Hsearch)
      as (Hbp & Htest & Haddr).
    destruct (alloc_test_true (balloc_nodes s) size align from to p
                Hpow Hsize Hfit Hbp) as (_ & _ & _ & _ & Hiff).
    rewrite <- Haddr in Hiff. apply Hiff in Htest.
    pose proof (carve_not_stuck R Free_ranges p addr (wrap64 (addr + size))
                  (set_tree Free_ranges (rb_erase R p (free_ranges s)) s))
      as Hns.
    destruct (carve R Free_ranges p addr _ _) as [s4| |]; cbn [bind].
    + split; [split; [lia|discriminate]|]. split; lia.
    + discriminate.
    + now apply Hns.
  - split; [tauto|]. split; [tauto|reflexivity].
Qed.

End Alloc.

(** ** The pool across whole operations *)

Lemma seq_from_incl (n m : nat) (l : list nat) :
  In m (seq_from n l) -> In m l.
Proof.
  induction l as [|k l IH]; cbn [seq_from]; [tauto|].
  destruct (Nat.eqb k n); [tauto|]. intros H. right. now apply IH.
Qed.

Section PoolClaims.

Variable R : rbtree_lib.

Lemma carve_nodes (tr : tree_ref) (p : nat) (x y : Z) (s1 s4 : balloc_state) :
  NoDup (p :: all_nodes s1) ->
  carve R tr p x y s1 = Done s4 ->
  Permutation (all_nodes s4) (p :: all_nodes s1).
Proof.
  intros Hnd. assert (Hnd1 : NoDup (all_nodes s1)) by now inversion Hnd.
  unfold carve.
  assert (S1 : forall s2,
             (if begin (balloc_nodes s1 p) <? x
              then __balloc_add_range R tr (begin (balloc_nodes s1 p)) x s1
              else Done s1) = Done s2 ->
             Permutation (all_nodes s2) (all_nodes s1)).
  { intros s2. destruct (_ <? x).
    - now apply add_range_nodes.
    - now intros [= <-]. }
  destruct (if _ <? x then _ else _) as [s2| |]; try discriminate.
  specialize (S1 s2 eq_refl). cbn [bind].
  assert (Hnd2 : NoDup (all_nodes s2))
    by (eapply Permutation_NoDup; [symmetry; exact S1|exact Hnd1]).
  assert (S2 : forall s3,
             (if y <? end_ (balloc_nodes s2 p)
              then __balloc_add_range R tr y (end_ (balloc_nodes s2 p)) s2
              else Done s2) = Done s3 ->
             Permutation (all_nodes s3) (all_nodes s2)).
  { intros s3. destruct (y <? _).
    - now apply add_range_nodes.
    - now intros [= <-]. }
  destruct (if y <? _ then _ else _) as [s3| |]; try discriminate.
  specialize (S2 s3 eq_refl). cbn [bind]. intros [= <-].
  rewrite free_node_nodes. apply perm_skip. now rewrite S2, S1.
Qed.

Lemma remove_walk_nodes (tr : tree_ref) (from to : Z) (fuel : nat) :
  forall (ptr : option nat) (s s' : balloc_state),
    NoDup (all_nodes s) ->
    remove_walk R fuel tr from to ptr s = Done s' ->
    Permutation (all_nodes s') (all_nodes s).
Proof.
  induction fuel as [|fuel IH]; intros [p|] s s' Hnd Hw;
    try (rewrite remove_walk_none in Hw; now injection Hw as <-).
  - cbn [remove_walk] in Hw. destruct (_ <? to); [discriminate|].
    now injection Hw as <-.
  - rewrite remove_walk_step in Hw.
    destruct (_ <? to); [|now injection Hw as <-].
    destruct (existsb _ _) eqn:Ein; [|discriminate].
    apply existsb_eqb_in in Ein.
    pose proof (erase_nodes R tr p s Ein Hnd) as Hperm1.
    assert (Hnd1 : NoDup (p :: all_nodes
                            (set_tree tr (rb_erase R p (get_tree tr s)) s)))
      by (eapply Permutation_NoDup; [symmetry; exact Hperm1|exact Hnd]).
    destruct (carve R tr p from to _) as [s4| |] eqn:Ec; try discriminate.
    cbn [bind] in Hw.
    pose proof (carve_nodes tr p from to _ s4 Hnd1 Ec) as Hperm4.
    assert (Hnd4 : NoDup (all_nodes s4))
      by (eapply Permutation_NoDup; [symmetry; exact Hperm4|exact Hnd1]).
    rewrite (IH _ s4 s' Hnd4 Hw). now rewrite Hperm4.
Qed.

Lemma remove_range_nodes (tr : tree_ref) (from to : Z) (s s' : balloc_state) :
  NoDup (all_nodes s) ->
  __balloc_remove_range R tr from to s = Done s' ->
  Permutation (all_nodes s') (all_nodes s).
Proof. intros Hnd. unfold __balloc_remove_range. now apply remove_walk_nodes. Qed.

Lemma alloc_nodes (size align from to : Z) (s s' : balloc_state) (a : Z) :
  NoDup (all_nodes s) ->
  __balloc_alloc R size align from to s = Done (a, s') ->
  Permutation (all_nodes s') (all_nodes s).
Proof.
  intros Hnd. rewrite alloc_unfold.
  destruct (alloc_search size align from to s) as [[p addr]|] eqn:Hsearch;
    [|now intros [= _ <-]].
  assert (Hin : In p (rb_inorder (get_tree Free_ranges s))).
  { unfold alloc_search in Hsearch.
    destruct (rb_first_above _ _ _ _) as [p0|]; [|discriminate].
    apply alloc_walk_some in Hsearch.
    destruct Hsearch as (c1 & c2 & Hc & _).
    cbn [get_tree]. apply (seq_from_incl p0). rewrite Hc.
    apply in_or_app. right. now left. }
  pose proof (erase_nodes R Free_ranges p s Hin Hnd) as Hperm1.
  cbn [get_tree] in Hperm1.
  assert (Hnd1 : NoDup (p :: all_nodes
                   (set_tree Free_ranges (rb_erase R p (free_ranges s)) s)))
    by (eapply Permutation_NoDup; [symmetry; exact Hperm1|exact Hnd]).
  destruct (carve R Free_ranges p addr _ _) as [s4| |] eqn:Ec;
    try discriminate.
  cbn [bind]. intros [= _ <-].
  rewrite (carve_nodes Free_ranges p addr _ _ s4 Hnd1 Ec). exact Hperm1.
Qed.

Lemma do_call_nodes (c : balloc_call) (s s' : balloc_state) :
  NoDup (all_nodes s) ->
  do_call R c s = Done s' ->
  Permutation (all_nodes s') (all_nodes s).
Proof.
  intros Hnd. destruct c as [tr from to|tr from to|size align from to
                            |size from to|b e]; cbn [do_call].
  - now apply add_range_nodes.
  - now apply remove_range_nodes.
  - destruct (__balloc_alloc R size align from to s) as [[a s1]| |] eqn:E;
      try discriminate.
    cbn [bind snd]. intros [= <-]. now apply (alloc_nodes size align from to s s1 a).
  - unfold balloc_alloc.
    destruct (__balloc_alloc R size _ from to s) as [[a s1]| |] eqn:E;
      try discriminate.
    cbn [bind snd]. intros [= <-]. now apply (alloc_nodes _ _ _ _ s s1 a Hnd E).
  - unfold balloc_free. now apply add_range_nodes.
Qed.

Lemma setup_nodes_state :
  balloc_free_list (balloc_setup_nodes boot_state)
  = rev (seq 0 BALLOC_MAX_RANGES)
  /\ free_ranges (balloc_setup_nodes boot_state) = rb_null
  /\ memory_map (balloc_setup_nodes boot_state) = rb_null.
Proof. repeat split; vm_compute; reflexivity. Qed.

Lemma setup_nodes_pool : pool_invariant (balloc_setup_nodes boot_state).
Proof.
  unfold pool_invariant, all_nodes.
  destruct setup_nodes_state as (-> & -> & ->). cbn [rb_inorder app].
  symmetry. apply Permutation_rev.
Qed.

Lemma pool_invariant_nodup (s : balloc_state) :
  pool_invariant s -> NoDup (all_nodes s).
Proof.
  intros H. eapply Permutation_NoDup; [symmetry; exact H|apply seq_NoDup].
Qed.

Lemma add_entries_nodes (entries : list mboot_mmap_entry) :
  forall s s', NoDup (all_nodes s) ->
               add_entries R entries s = Done s' ->
               Permutation (all_nodes s') (all_nodes s).
Proof.
  induction entries as [|e entries IH]; intros s s' Hnd; cbn [add_entries].
  - now intros [= <-].
  - destruct (__balloc_add_range R Memory_map _ _ s) as [s1| |] eqn:E1;
      try discriminate. cbn [bind].
    pose proof (add_range_nodes R _ _ _ _ _ Hnd E1) as P1.
    assert (Hnd1 : NoDup (all_nodes s1))
      by (eapply Permutation_NoDup; [symmetry; exact P1|exact Hnd]).
    destruct (__balloc_add_range R Free_ranges _ _ s1) as [s2| |] eqn:E2;
      try discriminate. cbn [bind].
    pose proof (add_range_nodes R _ _ _ _ _ Hnd1 E2) as P2.
    assert (Hnd2 : NoDup (all_nodes s2))
      by (eapply Permutation_NoDup; [symmetry; exact P2|exact Hnd1]).
    intros H. rewrite (IH s2 s' Hnd2 H). now rewrite P2.
Qed.

Lemma remove_busy_entries_nodes (entries : list mboot_mmap_entry) :
  forall s s', NoDup (all_nodes s) ->
               remove_busy_entries R entries s = Done s' ->
               Permutation (all_nodes s') (all_nodes s).
Proof.
  induction entries as [|e entries IH]; intros s s' Hnd;
    cbn [remove_busy_entries].
  - now intros [= <-].
  - destruct (entry_type e =? 1).
    + cbn [bind]. now apply IH.
    + destruct (__balloc_remove_range R Free_ranges _ _ s) as [s1| |] eqn:E1;
        try discriminate. cbn [bind].
      pose proof (remove_range_nodes _ _ _ _ _ Hnd E1) as P1.
      assert (Hnd1 : NoDup (all_nodes s1))
        by (eapply Permutation_NoDup; [symmetry; exact P1|exact Hnd]).
      intros H. rewrite (IH s1 s' Hnd1 H). exact P1.
Qed.

Lemma parse_mmap_nodes (info : mboot_info) (kbegin kend : Z) (im : Z * Z)
  (s s' : balloc_state) :
  NoDup (all_nodes s) ->
  balloc_parse_mmap R info kbegin kend im s = Done s' ->
  Permutation (all_nodes s') (all_nodes s).
Proof.
  intros Hnd. unfold balloc_parse_mmap.
  destruct (_ =? 0); [discriminate|].
  destruct (add_entries R (mmap info) s) as [s1| |] eqn:E1;
    try discriminate. cbn [bind].
  pose proof (add_entries_nodes _ _ _ Hnd E1) as P1.
  assert (Hnd1 : NoDup (all_nodes s1))
    by (eapply Permutation_NoDup; [symmetry; exact P1|exact Hnd]).
  destruct (__balloc_add_range R Memory_map kbegin kend s1) as [s2| |] eqn:E2;
    try discriminate. cbn [bind].
  pose proof (add_range_nodes R _ _ _ _ _ Hnd1 E2) as P2.
  assert (Hnd2 : NoDup (all_nodes s2))
    by (eapply Permutation_NoDup; [symmetry; exact P2|exact Hnd1]).
  destruct (__balloc_add_range R Free_ranges kbegin kend s2) as [s3| |] eqn:E3;
    try discriminate. cbn [bind].
  pose proof (add_range_nodes R _ _ _ _ _ Hnd2 E3) as P3.
  assert (Hnd3 : NoDup (all_nodes s3))
    by (eapply Permutation_NoDup; [symmetry; exact P3|exact Hnd2]).
  destruct (remove_busy_entries R (mmap info) s3) as [s4| |] eqn:E4;
    try discriminate. cbn [bind].
  pose proof (remove_busy_entries_nodes _ _ _ Hnd3 E4) as P4.
  assert (Hnd4 : NoDup (all_nodes s4))
    by (eapply Permutation_NoDup; [symmetry; exact P4|exact Hnd3]).
  destruct (__balloc_remove_range R Free_ranges (fst im) (snd im) s4)
    as [s5| |] eqn:E5; try discriminate. cbn [bind].
  pose proof (remove_range_nodes _ _ _ _ _ Hnd4 E5) as P5.
  assert (Hnd5 : NoDup (all_nodes s5))
    by (eapply Permutation_NoDup; [symmetry; exact P5|exact Hnd4]).
  intros E6.
  rewrite (remove_range_nodes _ _ _ _ _ Hnd5 E6).
  now rewrite P5, P4, P3, P2, P1.
Qed.

Lemma at_boundary_pool (s : balloc_state) :
  at_boundary R s -> pool_invariant s.
Proof.
  induction 1 as [|info kb ke im s Hs|c s s' _ IH Hc].
  - exact setup_nodes_pool.
  - unfold balloc_setup in Hs. unfold pool_invariant.
    rewrite (parse_mmap_nodes info kb ke im _ s
               (pool_invariant_nodup _ setup_nodes_pool) Hs).
    exact setup_nodes_pool.
  - unfold pool_invariant.
    rewrite (do_call_nodes c s s' (pool_invariant_nodup _ IH) Hc).
    exact IH.
Qed.

(** C8: once the pool is initialised and after every completed
    operation, the nodes linked into [memory_map], those linked into
    [free_ranges] and those on the free list are 128 together, and no
    node is in two of these places (or twice in one). *)
Theorem pool_accounting (s : balloc_state) :
  at_boundary R s ->
  (length (rb_inorder (memory_map s)) + length (rb_inorder (free_ranges s))
   + length (balloc_free_list s) = 128)%nat
  /\ NoDup (rb_inorder (memory_map s) ++ rb_inorder (free_ranges s)
            ++ balloc_free_list s).
Proof.
  intros H. apply at_boundary_pool in H.
  pose proof (Permutation_length H) as Hlen.
  pose proof (pool_invariant_nodup s H) as Hnd.
  unfold all_nodes in *. rewrite !length_app, length_seq in Hlen.
  split; [unfold BALLOC_MAX_RANGES in Hlen; lia|].
  eapply Permutation_NoDup; [|exact Hnd].
  apply Permutation_app_swap_app.
Qed.

End PoolClaims.

(** ** Bootstrap: what ends up in [free_ranges] *)

Section SetupClaims.

Variable R : rbtree_lib.

Lemma entry_end_fits (e : mboot_mmap_entry) :
  entry_fits e ->
  wrap64 (entry_addr e + entry_length e) = entry_addr e + entry_length e.
Proof.
  intros (H1 & H2 & H3). unfold wrap64. apply Z.mod_small. lia.
Qed.

Lemma add_entries_ordered (entries : list mboot_mmap_entry) :
  Forall entry_fits entries ->
  forall s,
    NoDup (all_nodes s) ->
    ordered_set (set_ranges s Memory_map) ->
    ordered_set (set_ranges s Free_ranges) ->
    match add_entries R entries s with
    | Done s' =>
        NoDup (all_nodes s')
        /\ ordered_set (set_ranges s' Memory_map)
        /\ ordered_set (set_ranges s' Free_ranges)
    | Bug => True
    | Stuck => False
    end.
Proof.
  induction 1 as [|e entries He _ IH]; intros s Hnd Hk Hf;
    cbn [add_entries].
  - auto.
  - rewrite (entry_end_fits e He).
    assert (Hle : entry_addr e <= entry_addr e + entry_length e)
      by (destruct He as (_ & ? & _); lia).
    destruct (__balloc_add_range R Memory_map _ _ s) as [s1| |] eqn:E1;
      cbn [bind];
      [|exact I|now apply (add_range_not_stuck R _ _ _ _ E1)].
    pose proof (add_range_nodes R _ _ _ _ _ Hnd E1) as P1.
    assert (Hnd1 : NoDup (all_nodes s1))
      by (eapply Permutation_NoDup; [symmetry; exact P1|exact Hnd]).
    pose proof (add_range_keeps_ordered R Memory_map Memory_map _ _ s s1
                  Hnd Hk Hk Hle E1) as Hk1.
    pose proof (add_range_keeps_ordered R Memory_map Free_ranges _ _ s s1
                  Hnd Hk Hf Hle E1) as Hf1.
    destruct (__balloc_add_range R Free_ranges _ _ s1) as [s2| |] eqn:E2;
      cbn [bind];
      [|exact I|now apply (add_range_not_stuck R _ _ _ _ E2)].
    pose proof (add_range_nodes R _ _ _ _ _ Hnd1 E2) as P2.
    assert (Hnd2 : NoDup (all_nodes s2))
      by (eapply Permutation_NoDup; [symmetry; exact P2|exact Hnd1]).
    pose proof (add_range_keeps_ordered R Free_ranges Memory_map _ _ s1 s2
                  Hnd1 Hf1 Hk1 Hle E2) as Hk2.
    pose proof (add_range_keeps_ordered R Free_ranges Free_ranges _ _ s1 s2
                  Hnd1 Hf1 Hf1 Hle E2) as Hf2.
    now apply IH.
Qed.

(** One [__balloc_remove_range] on [free_ranges]: the set stays ordered,
    covers nothing new and nothing of the removed range. *)
Lemma remove_range_shrinks (from to : Z) (s : balloc_state) :
  NoDup (all_nodes s) ->
  ordered_set (set_ranges s Free_ranges) ->
  from <= to ->
  match __balloc_remove_range R Free_ranges from to s with
  | Done s' =>
      NoDup (all_nodes s')
      /\ ordered_set (set_ranges s' Free_ranges)
      /\ forall x, covered s' Free_ranges x
                   <-> covered s Free_ranges x /\ ~ (from <= x < to)
  | Bug => True
  | Stuck => False
  end.
Proof.
  intros Hnd Hord Hft.
  pose proof (remove_range_spec R Free_ranges from to s Hnd Hord Hft) as H.
  destruct (__balloc_remove_range R Free_ranges from to s) as [s'| |];
    [|exact I|exact H].
  destruct H as (E & _ & Hperm).
  split; [eapply Permutation_NoDup; [symmetry; exact Hperm|exact Hnd]|].
  split; [rewrite E; now apply cut_list_ordered|].
  intros x. unfold covered. rewrite E. now apply covers_cut_list.
Qed.

Lemma remove_busy_entries_spec (entries : list mboot_mmap_entry) :
  Forall entry_fits entries ->
  forall s,
    NoDup (all_nodes s) ->
    ordered_set (set_ranges s Free_ranges) ->
    match remove_busy_entries R entries s with
    | Done s' =>
        NoDup (all_nodes s')
        /\ ordered_set (set_ranges s' Free_ranges)
        /\ (forall x, covered s' Free_ranges x -> covered s Free_ranges x)
        /\ (forall e x, In e entries -> entry_type e <> 1 ->
                        entry_addr e <= x < entry_addr e + entry_length e ->
                        ~ covered s' Free_ranges x)
    | Bug => True
    | Stuck => False
    end.
Proof.
  induction 1 as [|e entries He _ IH]; intros s Hnd Hord;
    cbn [remove_busy_entries].
  - split; [exact Hnd|]. split; [exact Hord|].
    split; [tauto|]. intros e x [].
  - rewrite (entry_end_fits e He).
    assert (Hle : entry_addr e <= entry_addr e + entry_length e)
      by (destruct He as (_ & ? & _); lia).
    destruct (Z.eqb_spec (entry_type e) 1) as [Ety|Nty].
    + cbn [bind]. specialize (IH s Hnd Hord).
      destruct (remove_busy_entries R entries s) as [s'| |];
        [|exact I|exact IH].
      destruct IH as (H1 & H2 & H3 & H4).
      split; [exact H1|]. split; [exact H2|]. split; [exact H3|].
      intros e' x [<-|Hin] Hty Hx; [contradiction|].
      now apply (H4 e' x).
    + pose proof (remove_range_shrinks _ _ s Hnd Hord Hle) as Hs.
      destruct (__balloc_remove_range R Free_ranges _ _ s) as [s1| |];
        cbn [bind]; [|exact I|exact Hs].
      destruct Hs as (Hnd1 & Hord1 & Hcov1).
      specialize (IH s1 Hnd1 Hord1).
      destruct (remove_busy_entries R entries s1) as [s'| |];
        [|exact I|exact IH].
      destruct IH as (H1 & H2 & H3 & H4).
      split; [exact H1|]. split; [exact H2|]. split.
      * intros x Hx. apply H3 in Hx. now apply Hcov1 in Hx.
      * intros e' x [<-|Hin] Hty Hx.
        -- intros Hc. apply H3 in Hc. apply Hcov1 in Hc. tauto.
        -- now apply (H4 e' x).
Qed.

(** C6, as amended: when every entry of the boot memory map describes a
    range of 64-bit addresses (address plus length stays below 2^64) and
    the kernel image and the boot module are given with begin <= end,
    [balloc_setup] either stops at one of its [BUG_ON] checks (the map
    flag is missing or the pool is used up) or completes, and when it has
    completed no address of an entry whose type is not 1 (available), of
    the boot module or of the kernel image is covered by [free_ranges],
    whatever the entries overlap. *)
Theorem setup_excludes_busy (info : mboot_info) (kbegin kend : Z)
  (im : Z * Z) :
  Forall entry_fits (mmap info) ->
  kbegin <= kend ->
  fst im <= snd im ->
  match balloc_setup R info kbegin kend im boot_state with
  | Done s => forall x, busy info kbegin kend im x -> ~ covered s Free_ranges x
  | Bug => True
  | Stuck => False
  end.
Proof.
  intros Hmap Hk Him. unfold balloc_setup, balloc_parse_mmap.
  destruct (_ =? 0); [exact I|].
  pose proof (pool_invariant_nodup _ setup_nodes_pool) as Hnd0.
  assert (Hord0 : forall tr,
             ordered_set (set_ranges (balloc_setup_nodes boot_state) tr)).
  { intros tr. unfold set_ranges, __balloc_dump_ranges.
    destruct setup_nodes_state as (_ & Ef & Em).
    destruct tr; cbn [get_tree]; rewrite ?Ef, ?Em; apply ordered_set_nil. }
  pose proof (add_entries_ordered _ Hmap _ Hnd0 (Hord0 Memory_map)
                (Hord0 Free_ranges)) as H1.
  destruct (add_entries R (mmap info) _) as [s1| |];
    cbn [bind]; [|exact I|exact H1].
  destruct H1 as (Hnd1 & Hk1 & Hf1).
  destruct (__balloc_add_range R Memory_map kbegin kend s1) as [s2| |] eqn:E2;
    cbn [bind]; [|exact I|now apply (add_range_not_stuck R _ _ _ _ E2)].
  pose proof (add_range_nodes R _ _ _ _ _ Hnd1 E2) as P2.
  assert (Hnd2 : NoDup (all_nodes s2))
    by (eapply Permutation_NoDup; [symmetry; exact P2|exact Hnd1]).
  pose proof (add_range_keeps_ordered R Memory_map Free_ranges _ _ s1 s2
                Hnd1 Hk1 Hf1 Hk E2) as Hf2.
  destruct (__balloc_add_range R Free_ranges kbegin kend s2) as [s3| |] eqn:E3;
    cbn [bind]; [|exact I|now apply (add_range_not_stuck R _ _ _ _ E3)].
  pose proof (add_range_nodes R _ _ _ _ _ Hnd2 E3) as P3.
  assert (Hnd3 : NoDup (all_nodes s3))
    by (eapply Permutation_NoDup; [symmetry; exact P3|exact Hnd2]).
  pose proof (add_range_keeps_ordered R Free_ranges Free_ranges _ _ s2 s3
                Hnd2 Hf2 Hf2 Hk E3) as Hf3.
  pose proof (remove_busy_entries_spec _ Hmap s3 Hnd3 Hf3) as H4.
  destruct (remove_busy_entries R (mmap info) s3) as [s4| |];
    cbn [bind]; [|exact I|exact H4].
  destruct H4 as (Hnd4 & Hf4 & _ & Hbusy4).
  pose proof (remove_range_shrinks _ _ s4 Hnd4 Hf4 Him) as H5.
  destruct (__balloc_remove_range R Free_ranges (fst im) (snd im) s4)
    as [s5| |]; cbn [bind]; [|exact I|exact H5].
  destruct H5 as (Hnd5 & Hf5 & Hcov5).
  pose proof (remove_range_shrinks _ _ s5 Hnd5 Hf5 Hk) as H6.
  destruct (__balloc_remove_range R Free_ranges kbegin kend s5)
    as [s| |]; [|exact I|exact H6].
  destruct H6 as (_ & _ & Hcov6).
  intros x [(e & Hin & Hty & Hx)|[Hx|Hx]] Hc;
    apply Hcov6 in Hc; destruct Hc as [Hc Hn6]; [| |lia];
    apply Hcov5 in Hc; destruct Hc as [Hc Hn5]; [|lia].
  now apply (Hbusy4 e x).
Qed.

End SetupClaims.

(** ** The theorems on concrete inputs *)

(** A run on a concrete state is settled by evaluation: the state it
    returns, then what that state holds. *)
Ltac run_concrete := eexists; split; vm_compute; reflexivity.

(** Adding [[20, 30)] to [{[10, 20)}]: the new range absorbs its
    predecessor. *)
Lemma add_range_covers_union_witness :
  exists s',
    __balloc_add_range plain_tree Free_ranges 20 30 (single_range 10 20)
    = Done s'
    /\ set_ranges s' Free_ranges = [(10, 30)]
    /\ interval_set (set_ranges s' Free_ranges)
    /\ forall x, covered s' Free_ranges x
                 <-> covered (single_range 10 20) Free_ranges x
                     \/ 20 <= x < 30.
Proof.
  assert (E : exists s',
             __balloc_add_range plain_tree Free_ranges 20 30
               (single_range 10 20) = Done s'
             /\ set_ranges s' Free_ranges = [(10, 30)]) by run_concrete.
  destruct E as (s' & E & Er). exists s'.
  split; [exact E|]. split; [exact Er|].
  pose proof (add_range_covers_union plain_tree Free_ranges 20 30
                (single_range 10 20)) as H.
  rewrite E in H. apply H.
  - apply single_range_nodup.
  - apply single_range_set. lia.
  - lia.
  - rewrite single_range_ranges. intros r [<-|[]]. cbn [fst snd]. lia.
Defined.

(** C1 at a failing input: adding [[0, 100)] to [{[10, 20)}] leaves
    [{[0, 20)}].  The second merge of [__balloc_add_range] assigns
    [new->end = next->end] without the comparison that the first merge
    makes ([if (prev->end > new->end)]), so the added range is cut back to
    the end of its successor and address 50 is not covered, where the
    claim has the union [[0, 100)] covered. *)
Lemma add_range_drops_tail :
  exists s',
    NoDup (all_nodes (single_range 10 20))
    /\ interval_set (set_ranges (single_range 10 20) Free_ranges)
    /\ 0 < 100
    /\ __balloc_add_range plain_tree Free_ranges 0 100 (single_range 10 20)
       = Done s'
    /\ set_ranges s' Free_ranges = [(0, 20)]
    /\ ~ (covered s' Free_ranges 50
          <-> covered (single_range 10 20) Free_ranges 50 \/ 0 <= 50 < 100).
Proof.
  eexists. split; [apply single_range_nodup|].
  split; [apply single_range_set; lia|]. split; [lia|].
  split; [reflexivity|].
  match goal with
  | |- ?X = _ /\ _ => assert (E : X = [(0, 20)]) by reflexivity
  end.
  split; [exact E|]. unfold covered. rewrite E.
  intros [_ H]. assert (Hin : 0 <= 50 < 100) by lia.
  destruct (H (or_intror Hin)) as (r & [<-|[]] & Hr).
  cbn [fst snd] in Hr. lia.
Qed.

(** [[0, 10)] and [[10, 20)] added one after the other give one range;
    removing [[5, 15)] trims it on the left and on the right. *)
Lemma mutators_keep_interval_set_witness :
  exists s,
    run_set_ops plain_tree Free_ranges
      [Op_add_range 0 10; Op_add_range 10 20; Op_add_range 40 50;
       Op_remove_range 5 45]
      (balloc_setup_nodes boot_state) = Done s
    /\ set_ranges s Free_ranges = [(0, 5); (45, 50)]
    /\ interval_set (set_ranges s Free_ranges)
    /\ StronglySorted Z.lt (map fst (set_ranges s Free_ranges)).
Proof.
  assert (E : exists s,
             run_set_ops plain_tree Free_ranges
               [Op_add_range 0 10; Op_add_range 10 20; Op_add_range 40 50;
                Op_remove_range 5 45]
               (balloc_setup_nodes boot_state) = Done s
             /\ set_ranges s Free_ranges = [(0, 5); (45, 50)])
    by run_concrete.
  destruct E as (s & E & Er). exists s.
  split; [exact E|]. split; [exact Er|].
  pose proof (mutators_keep_interval_set plain_tree Free_ranges
                [Op_add_range 0 10; Op_add_range 10 20; Op_add_range 40 50;
                 Op_remove_range 5 45]
                (balloc_setup_nodes boot_state)) as H.
  rewrite E in H. apply H.
  - apply pool_invariant_nodup, setup_nodes_pool.
  - reflexivity.
  - repeat constructor; cbn [set_op_ok]; lia.
Defined.

(** Removing [[40, 60)] from [{[0, 100)}] splits the range. *)
Lemma remove_range_carves_witness :
  exists s',
    __balloc_remove_range plain_tree Free_ranges 40 60 (single_range 0 100)
    = Done s'
    /\ set_ranges s' Free_ranges = [(0, 40); (60, 100)]
    /\ set_ranges s' Free_ranges
       = cut_list 40 60 (set_ranges (single_range 0 100) Free_ranges)
    /\ interval_set (set_ranges s' Free_ranges)
    /\ (forall x, 40 <= x < 60 -> ~ covered s' Free_ranges x)
    /\ (forall x, covered (single_range 0 100) Free_ranges x ->
                  ~ (40 <= x < 60) -> covered s' Free_ranges x).
Proof.
  assert (E : exists s',
             __balloc_remove_range plain_tree Free_ranges 40 60
               (single_range 0 100) = Done s'
             /\ set_ranges s' Free_ranges = [(0, 40); (60, 100)])
    by run_concrete.
  destruct E as (s' & E & Er). exists s'.
  split; [exact E|]. split; [exact Er|].
  pose proof (remove_range_carves plain_tree Free_ranges 40 60
                (single_range 0 100) (single_range_nodup 0 100)
                (single_range_set 0 100 eq_refl)) as H.
  rewrite E in H. apply H. lia.
Defined.

Lemma add_then_remove_restores_witness :
  exists s2,
    (s1 <- __balloc_add_range plain_tree Free_ranges 20 30
             (single_range 10 20) ;;
     __balloc_remove_range plain_tree Free_ranges 20 30 s1) = Done s2
    /\ set_ranges s2 Free_ranges = [(10, 20)]
    /\ set_ranges s2 Free_ranges
       = set_ranges (single_range 10 20) Free_ranges.
Proof.
  assert (E : exists s2,
             (s1 <- __balloc_add_range plain_tree Free_ranges 20 30
                      (single_range 10 20) ;;
              __balloc_remove_range plain_tree Free_ranges 20 30 s1)
             = Done s2
             /\ set_ranges s2 Free_ranges = [(10, 20)]) by run_concrete.
  destruct E as (s2 & E & Er). exists s2.
  split; [exact E|]. split; [exact Er|].
  pose proof (add_then_remove_restores plain_tree Free_ranges 20 30
                (single_range 10 20)) as H.
  rewrite E in H. apply H.
  - apply single_range_nodup.
  - apply single_range_set. lia.
  - lia.
  - unfold covered. rewrite single_range_ranges.
    intros x Hx (r & [<-|[]] & Hr). cbn [fst snd] in Hr. lia.
Defined.

Lemma remove_empty_range_is_noop_witness :
  exists s',
    __balloc_remove_range plain_tree Free_ranges 15 15 (single_range 10 20)
    = Done s'
    /\ set_ranges s' Free_ranges
       = set_ranges (single_range 10 20) Free_ranges.
Proof.
  assert (E : exists s',
             __balloc_remove_range plain_tree Free_ranges 15 15
               (single_range 10 20) = Done s'
             /\ set_ranges s' Free_ranges = [(10, 20)]) by run_concrete.
  destruct E as (s' & E & _). exists s'. split; [exact E|].
  pose proof (remove_empty_range_is_noop plain_tree Free_ranges 15
                (single_range 10 20)) as H.
  rewrite E in H. apply H.
  - apply single_range_nodup.
  - apply single_range_set. lia.
Defined.

Lemma power_of_two_16 : power_of_two 16.
Proof. exists 4. split; [lia|reflexivity]. Qed.

Lemma request_fits_small : request_fits 10 16 0 100.
Proof. unfold request_fits. lia. Qed.

(** [alloc(10, 16, 0, 100)] on [{[5, 100)}] takes [[16, 26)] and leaves
    [{[5, 16), [26, 100)}]. *)
Lemma alloc_carves_block_witness :
  exists s',
    __balloc_alloc plain_tree 10 16 0 100 (single_range 5 100)
    = Done (16, s')
    /\ set_ranges s' Free_ranges = [(5, 16); (26, 100)]
    /\ (16 | 16) /\ 0 <= 16 /\ 16 + 10 <= 100
    /\ (forall x, 16 <= x < 16 + 10 ->
                  covered (single_range 5 100) Free_ranges x)
    /\ (forall x, covered s' Free_ranges x
                  <-> covered (single_range 5 100) Free_ranges x
                      /\ ~ (16 <= x < 16 + 10)).
Proof.
  assert (E : exists s',
             __balloc_alloc plain_tree 10 16 0 100 (single_range 5 100)
             = Done (16, s')
             /\ set_ranges s' Free_ranges = [(5, 16); (26, 100)])
    by run_concrete.
  destruct E as (s' & E & Er). exists s'.
  split; [exact E|]. split; [exact Er|].
  pose proof (alloc_carves_block plain_tree 10 16 0 100
                (single_range 5 100)) as H.
  rewrite E in H. apply H.
  - apply single_range_nodup.
  - apply single_range_set. lia.
  - exact power_of_two_16.
  - lia.
  - exact request_fits_small.
  - lia.
Defined.

(** C4 as stated fails: [size = 2^64 - 1] makes [addr + size] wrap to 15,
    the test [addr + size <= e] succeeds, [alloc] returns 16 and adds
    [[15, 100)] to the free set. *)
Lemma alloc_wraps_around :
  exists s',
    NoDup (all_nodes (single_range 16 100))
    /\ interval_set (set_ranges (single_range 16 100) Free_ranges)
    /\ 0 < 2 ^ 64 - 1 /\ power_of_two 16
    /\ __balloc_alloc plain_tree (2 ^ 64 - 1) 16 0 100 (single_range 16 100)
       = Done (16, s')
    /\ 16 <> 100
    /\ ~ (16 + (2 ^ 64 - 1) <= 100)
    /\ set_ranges s' Free_ranges = [(15, 100)]
    /\ covered s' Free_ranges 15
    /\ ~ covered (single_range 16 100) Free_ranges 15.
Proof.
  eexists. split; [apply single_range_nodup|].
  split; [apply single_range_set; lia|]. split; [lia|].
  split; [exact power_of_two_16|]. split; [reflexivity|].
  split; [lia|]. split; [lia|].
  match goal with
  | |- ?X = _ /\ _ => assert (E : X = [(15, 100)]) by reflexivity
  end.
  split; [exact E|]. unfold covered. rewrite E, single_range_ranges. split.
  - exists (15, 100). split; [now left|cbn [fst snd]; lia].
  - intros (r & [<-|[]] & Hr). cbn [fst snd] in Hr. lia.
Qed.

Lemma alloc_returns_lowest_witness :
  exists s',
    __balloc_alloc plain_tree 10 16 0 100 (single_range 5 100)
    = Done (16, s')
    /\ feasible (set_ranges (single_range 5 100) Free_ranges) 10 16 0 100 16
    /\ forall a',
         feasible (set_ranges (single_range 5 100) Free_ranges)
                  10 16 0 100 a' ->
         16 <= a'.
Proof.
  assert (E : exists s',
             __balloc_alloc plain_tree 10 16 0 100 (single_range 5 100)
             = Done (16, s')
             /\ set_ranges s' Free_ranges = [(5, 16); (26, 100)])
    by run_concrete.
  destruct E as (s' & E & _). exists s'. split; [exact E|].
  pose proof (alloc_returns_lowest plain_tree 10 16 0 100
                (single_range 5 100)) as H.
  rewrite E in H. apply H.
  - apply single_range_nodup.
  - apply single_range_set. lia.
  - exact power_of_two_16.
  - lia.
  - exact request_fits_small.
  - lia.
Defined.

(** C10 as stated fails: with [size = 2^64 - 16] the sum [addr + size]
    wraps to 16, [alloc] returns 32 although no address is feasible. *)
Lemma alloc_wrapped_not_feasible :
  exists s',
    NoDup (all_nodes (single_range 32 100))
    /\ interval_set (set_ranges (single_range 32 100) Free_ranges)
    /\ 0 < 2 ^ 64 - 16 /\ power_of_two 16
    /\ __balloc_alloc plain_tree (2 ^ 64 - 16) 16 0 100 (single_range 32 100)
       = Done (32, s')
    /\ 32 <> 100
    /\ ~ feasible (set_ranges (single_range 32 100) Free_ranges)
                  (2 ^ 64 - 16) 16 0 100 32.
Proof.
  eexists. split; [apply single_range_nodup|].
  split; [apply single_range_set; lia|]. split; [lia|].
  split; [exact power_of_two_16|]. split; [reflexivity|].
  split; [lia|]. intros (_ & _ & H & _). lia.
Qed.

Lemma alloc_sentinel_witness :
  __balloc_alloc plain_tree 200 1 0 100 (single_range 0 100)
  = Done (100, single_range 0 100)
  /\ (100 = 100
      <-> alloc_search 200 1 0 100 (single_range 0 100) = None)
  /\ (100 <> 100 -> 100 < 100)
  /\ (100 = 100 -> single_range 0 100 = single_range 0 100).
Proof.
  assert (E : __balloc_alloc plain_tree 200 1 0 100 (single_range 0 100)
              = Done (100, single_range 0 100)) by reflexivity.
  split; [exact E|].
  pose proof (alloc_sentinel plain_tree 200 1 0 100 (single_range 0 100))
    as H.
  rewrite E in H. apply H.
  - exists 0. split; [lia|reflexivity].
  - lia.
  - unfold request_fits. lia.
Defined.

(** C5 as stated fails: with [size = 2^64 - 10] the sum [addr + size]
    wraps to 6, the search takes [[0, 10)] at address 16, which is [to],
    and the free set becomes [{[0, 16)}]. *)
Lemma alloc_returns_to_after_change :
  exists s',
    0 < 2 ^ 64 - 10 /\ power_of_two 16
    /\ __balloc_alloc plain_tree (2 ^ 64 - 10) 16 5 16 (single_range 0 10)
       = Done (16, s')
    /\ alloc_search (2 ^ 64 - 10) 16 5 16 (single_range 0 10)
       = Some (127%nat, 16)
    /\ set_ranges (single_range 0 10) Free_ranges = [(0, 10)]
    /\ set_ranges s' Free_ranges = [(0, 16)].
Proof.
  eexists. split; [lia|]. split; [exact power_of_two_16|].
  split; [reflexivity|]. split; [reflexivity|].
  split; reflexivity.
Qed.

(** The bootstrap scenario of the specification: one available entry
    [[0, 0x100000)], a reserved entry [[0x1000, 0x2000)] inside it, the
    kernel image at [[0x2000, 0x3000)] and the boot module at
    [[0x3000, 0x4000)]. *)
Lemma setup_excludes_busy_witness :
  exists s,
    balloc_setup plain_tree
      (mk_info 64 [mk_entry 20 0 0x100000 1; mk_entry 20 0x1000 0x1000 2])
      0x2000 0x3000 (0x3000, 0x4000) boot_state = Done s
    /\ balloc_dump_ranges s
       = ([(0, 0x100000)], [(0, 0x1000); (0x4000, 0x100000)])
    /\ forall x,
         busy (mk_info 64 [mk_entry 20 0 0x100000 1;
                           mk_entry 20 0x1000 0x1000 2])
              0x2000 0x3000 (0x3000, 0x4000) x ->
         ~ covered s Free_ranges x.
Proof.
  assert (E : exists s,
             balloc_setup plain_tree
               (mk_info 64 [mk_entry 20 0 0x100000 1;
                            mk_entry 20 0x1000 0x1000 2])
               0x2000 0x3000 (0x3000, 0x4000) boot_state = Done s
             /\ balloc_dump_ranges s
                = ([(0, 0x100000)], [(0, 0x1000); (0x4000, 0x100000)]))
    by run_concrete.
  destruct E as (s & E & Er). exists s.
  split; [exact E|]. split; [exact Er|].
  pose proof (setup_excludes_busy plain_tree
                (mk_info 64 [mk_entry 20 0 0x100000 1;
                             mk_entry 20 0x1000 0x1000 2])
                0x2000 0x3000 (0x3000, 0x4000)) as H.
  rewrite E in H. apply H.
  - repeat constructor; cbn; lia.
  - lia.
  - cbn. lia.
Defined.

(** C6 as stated fails: the second entry, which is not available, starts
    at [2^63 + 16] and has length [2^63], so its end wraps to 16 and
    [__balloc_remove_range] removes nothing; address [2^63 + 16] lies in
    that entry and stays in the free set. *)
Lemma setup_keeps_wrapped_entry :
  exists s,
    balloc_setup plain_tree
      (mk_info 64 [mk_entry 20 (2 ^ 63) (2 ^ 63 - 1) 1;
                   mk_entry 20 (2 ^ 63 + 16) (2 ^ 63) 2])
      0x100000 0x200000 (0, 0) boot_state = Done s
    /\ set_ranges s Free_ranges = [(2 ^ 63, 2 ^ 64 - 1)]
    /\ busy (mk_info 64 [mk_entry 20 (2 ^ 63) (2 ^ 63 - 1) 1;
                         mk_entry 20 (2 ^ 63 + 16) (2 ^ 63) 2])
            0x100000 0x200000 (0, 0) (2 ^ 63 + 16)
    /\ covered s Free_ranges (2 ^ 63 + 16).
Proof.
  eexists. split; [vm_compute; reflexivity|].
  match goal with
  | |- ?X = _ /\ _ =>
      assert (E : X = [(2 ^ 63, 2 ^ 64 - 1)]) by (vm_compute; reflexivity)
  end.
  split; [exact E|]. split.
  - left. exists (mk_entry 20 (2 ^ 63 + 16) (2 ^ 63) 2).
    split; [right; now left|]. cbn [entry_type entry_addr entry_length].
    split; lia.
  - unfold covered. rewrite E. exists (2 ^ 63, 2 ^ 64 - 1).
    split; [now left|cbn [fst snd]; lia].
Qed.

(** The pool after the bootstrap scenario and one allocation. *)
Lemma pool_accounting_witness :
  exists s,
    at_boundary plain_tree s
    /\ set_ranges s Free_ranges = [(0, 0x1000); (0x4010, 0x100000)]
    /\ (length (rb_inorder (memory_map s))
        + length (rb_inorder (free_ranges s))
        + length (balloc_free_list s) = 128)%nat
    /\ NoDup (rb_inorder (memory_map s) ++ rb_inorder (free_ranges s)
              ++ balloc_free_list s).
Proof.
  assert (B : exists s,
             at_boundary plain_tree s
             /\ set_ranges s Free_ranges = [(0, 0x1000); (0x4010, 0x100000)]).
  { eexists. split.
    - eapply (boundary_call plain_tree (Call_balloc_alloc 16 0x4000 0x100000)).
      + eapply (boundary_setup plain_tree
                  (mk_info 64 [mk_entry 20 0 0x100000 1;
                               mk_entry 20 0x1000 0x1000 2])
                  0x2000 0x3000 (0x3000, 0x4000)).
        vm_compute. reflexivity.
      + vm_compute. reflexivity.
    - reflexivity. }
  destruct B as (s & Hb & Hr). exists s.
  split; [exact Hb|]. split; [exact Hr|].
  exact (pool_accounting plain_tree s Hb).
Defined.
(** ** Beyond the claims: what [__balloc_add_range] does on every input *)

(** Two interval sets that cover the same addresses hold the same ranges. *)
Lemma interval_set_unique (l1 : list (Z * Z)) :
  forall l2,
    interval_set l1 -> interval_set l2 ->
    (forall x, covers l1 x <-> covers l2 x) -> l1 = l2.
Proof.
  assert (Habove : forall r l x,
             interval_set (r :: l) -> covers l x -> snd r < x).
  { intros r l x [_ [Hr _]] (r' & Hin & Hx).
    rewrite Forall_forall in Hr. specialize (Hr r' Hin). lia. }
  assert (Hhead : forall r l, interval_set (r :: l) -> fst r < snd r).
  { intros r l [Hp _]. now apply Forall_cons_iff in Hp. }
  assert (Htail : forall r l, interval_set (r :: l) -> interval_set l).
  { intros r l [Hp [_ Hs]]. apply Forall_cons_iff in Hp. now split. }
  induction l1 as [|r1 l1 IH]; intros [|r2 l2] H1 H2 Hc.
  - reflexivity.
  - exfalso. apply (covers_nil (fst r2)). apply Hc. apply covers_cons.
    left. specialize (Hhead _ _ H2). lia.
  - exfalso. apply (covers_nil (fst r1)). apply Hc. apply covers_cons.
    left. specialize (Hhead _ _ H1). lia.
  - pose proof (Hhead _ _ H1) as P1. pose proof (Hhead _ _ H2) as P2.
    assert (Hin : forall r l r' l' x,
               interval_set (r :: l) -> interval_set (r' :: l') ->
               (forall y, covers (r :: l) y <-> covers (r' :: l') y) ->
               fst r <= x < snd r -> fst r' <= x /\ (x < snd r' \/ snd r' < x)).
    { intros r l r' l' x I I' C Hx.
      assert (Cx : covers (r' :: l') x)
        by (apply C, covers_cons; now left).
      apply covers_cons in Cx. destruct Cx as [Cx|Cx]; [lia|].
      pose proof (Habove _ _ _ I' Cx). pose proof (Hhead _ _ I'). lia. }
    assert (Hc' : forall y, covers (r2 :: l2) y <-> covers (r1 :: l1) y)
      by (intros y; symmetry; apply Hc).
    assert (Eb : fst r1 = fst r2).
    { pose proof (Hin r1 l1 r2 l2 (fst r1) H1 H2 Hc ltac:(lia)).
      pose proof (Hin r2 l2 r1 l1 (fst r2) H2 H1 Hc' ltac:(lia)). lia. }
    assert (Hend : forall r l r' l',
               interval_set (r :: l) -> interval_set (r' :: l') ->
               (forall y, covers (r :: l) y <-> covers (r' :: l') y) ->
               fst r = fst r' -> snd r' <= snd r).
    { intros r l r' l' I I' C E.
      destruct (Z.le_gt_cases (snd r') (snd r)) as [|Hgt]; [assumption|].
      exfalso. pose proof (Hhead _ _ I).
      assert (Cx : covers (r :: l) (snd r))
        by (apply C, covers_cons; left; lia).
      apply covers_cons in Cx. destruct Cx as [Cx|Cx]; [lia|].
      pose proof (Habove _ _ _ I Cx). lia. }
    assert (Ee : snd r1 = snd r2).
    { pose proof (Hend r1 l1 r2 l2 H1 H2 Hc Eb).
      pose proof (Hend r2 l2 r1 l1 H2 H1 Hc' (eq_sym Eb)). lia. }
    assert (E : r1 = r2) by (destruct r1, r2; cbn in *; congruence).
    subst r2. f_equal. apply IH; [now apply (Htail r1)|now apply (Htail r1)|].
    intros x. split; intros Cx.
    + pose proof (Habove _ _ _ H1 Cx).
      assert (Cv : covers (r1 :: l2) x)
        by (apply Hc, covers_cons; now right).
      apply covers_cons in Cv. destruct Cv as [Cv|Cv]; [lia|assumption].
    + pose proof (Habove _ _ _ H2 Cx).
      assert (Cv : covers (r1 :: l1) x)
        by (apply Hc, covers_cons; now right).
      apply covers_cons in Cv. destruct Cv as [Cv|Cv]; [lia|assumption].
Qed.

(** What [v_add] covers on any ordered view: all that was covered, nothing
    outside the old set and the added range, and the first address of the
    added range. *)
Lemma v_add_bounds (v : list vnode) (new : nat) (from to x : Z) :
  interval_set (map snd v) -> from < to ->
  (covers (map snd v) x -> covers (map snd (fst (v_add v new from to))) x)
  /\ (covers (map snd (fst (v_add v new from to))) x ->
      covers (map snd v) x \/ from <= x < to)
  /\ covers (map snd (fst (v_add v new from to))) from.
Proof.
  intros Hset Hft.
  pose proof (interval_set_ordered _ Hset) as Hord.
  assert (Hprop : Forall (fun y => vbegin y < vend y) v).
  { destruct Hset as [Hp _]. rewrite Forall_map in Hp. exact Hp. }
  destruct (v_add_form v new from to Hord)
    as (a & b & a' & b' & nb & lo & ne & f1 & f2
        & -> & Ha & Hb & -> & Hp & Hn).
  cbn [fst].
  destruct Hp as [(-> & -> & -> & -> & Hal)|(p & -> & Hp & -> & -> & ->)];
  destruct Hn as [(-> & -> & -> & Hbl)|(q & -> & Hq & -> & ->)];
    rewrite ?covers_view_app, ?covers_view_cons, ?covers_view_nil;
    ord_split; unfold vbegin, vend in *; cbn [fst snd] in *;
    intuition lia.
Qed.

(** Adding back what was taken out of an interval set restores it. *)
Lemma v_add_restores (l : list (Z * Z)) (v : list vnode) (new : nat)
  (from to : Z) :
  interval_set l -> interval_set (map snd v) -> from < to ->
  (forall x, covers (map snd v) x <-> covers l x /\ ~ (from <= x < to)) ->
  (forall x, from <= x < to -> covers l x) ->
  map snd (fst (v_add v new from to)) = l.
Proof.
  intros Hl Hv Hft Hcut Hin.
  pose proof (interval_set_ordered _ Hv) as Hord.
  apply interval_set_unique;
    [now apply v_add_interval_set|exact Hl|].
  assert (Hcond : forall y, In y v -> from <= vbegin y -> to <= vend y).
  { intros y Hy Hb.
    assert (Hy' : vbegin y < vend y).
    { destruct Hv as [Hp _]. rewrite Forall_map, Forall_forall in Hp.
      exact (Hp y Hy). }
    assert (Cy : covers (map snd v) (vbegin y)).
    { exists (snd y). split; [now apply in_map|]. unfold vbegin, vend in *.
      lia. }
    apply Hcut in Cy. lia. }
  intros x. rewrite (v_add_covers v new from to x Hord Hcond), Hcut.
  specialize (Hin x). destruct (Z.le_gt_cases from x);
    destruct (Z.le_gt_cases to x); intuition lia.
Qed.

Section BeyondRanges.

Variable R : rbtree_lib.

(** X1: on an interval set, [add_range(set, from, to)] with [from < to]
    returns unless the pool is empty; the result is an interval set again
    that covers every address covered before, covers nothing outside the
    old set and [[from, to)], and covers [from].  (It need not cover all of
    [[from, to)].) *)
Theorem add_range_bounds (tr : tree_ref) (from to : Z) (s : balloc_state) :
  NoDup (all_nodes s) ->
  interval_set (set_ranges s tr) ->
  from < to ->
  match __balloc_add_range R tr from to s with
  | Done s' =>
      interval_set (set_ranges s' tr)
      /\ (forall x, covered s tr x -> covered s' tr x)
      /\ (forall x, covered s' tr x -> covered s tr x \/ from <= x < to)
      /\ covered s' tr from
  | Bug => balloc_free_list s = []
  | Stuck => False
  end.
Proof.
  intros Hnd Hset Hft.
  pose proof (interval_set_ordered _ Hset) as Hord.
  destruct (__balloc_add_range R tr from to s) as [s'| |] eqn:Hadd.
  - destruct (add_range_ranges R tr from to s s' Hnd Hord Hadd) as (new & E).
    unfold covered. rewrite E. rewrite <- set_view_ranges in *.
    split; [now apply v_add_interval_set|].
    split; [|split]; try intros x;
      apply (v_add_bounds (set_view s tr) new from to); assumption.
  - now apply (add_range_bug R tr from to).
  - now apply (add_range_not_stuck R tr from to s).
Qed.

(** X2: freeing a range that is free already changes nothing: when every
    address of [[b, e)], [b < e], is covered by the free set,
    [balloc_free(b, e)] returns unless the pool is empty and leaves the
    stored ranges as they were. *)
Theorem free_covered_is_noop (b e : Z) (s : balloc_state) :
  NoDup (all_nodes s) ->
  interval_set (set_ranges s Free_ranges) ->
  b < e ->
  (forall x, b <= x < e -> covered s Free_ranges x) ->
  match balloc_free R b e s with
  | Done s' => set_ranges s' Free_ranges = set_ranges s Free_ranges
  | Bug => balloc_free_list s = []
  | Stuck => False
  end.
Proof.
  intros Hnd Hset Hbe Hcov. unfold balloc_free, covered in *.
  pose proof (interval_set_ordered _ Hset) as Hord.
  destruct (__balloc_add_range R Free_ranges b e s) as [s'| |] eqn:Hadd.
  - destruct (add_range_ranges R Free_ranges b e s s' Hnd Hord Hadd)
      as (new & E).
    rewrite E. rewrite <- set_view_ranges in *.
    apply interval_set_unique;
      [now apply v_add_interval_set|exact Hset|].
    destruct (block_in_one_range _ b e Hset Hbe Hcov) as (r & Hr & Hlo & Hhi).
    intros x. rewrite v_add_covers; [|exact Hord|].
    + specialize (Hcov x). tauto.
    + intros y Hy Hb.
      assert (Hyr : In (snd y) (map snd (set_view s Free_ranges)))
        by now apply in_map.
      destruct Hset as [Hp Hs]. rewrite Forall_forall in Hp.
      pose proof (Hp _ Hyr). pose proof (Hp _ Hr).
      destruct (separated_pairwise _ r (snd y) Hs Hr Hyr) as [->|[H1|H1]];
        unfold vbegin, vend in *; lia.
  - now apply (add_range_bug R Free_ranges b e).
  - now apply (add_range_not_stuck R Free_ranges b e s).
Qed.

(** X3: [balloc_free(x, x)], the empty range, returns unless the pool is
    empty and leaves the covered addresses as they were; the set stays
    ordered (it may now hold the empty range [[x, x)] in a node of its
    own). *)
Theorem free_empty_range_covers_same (x : Z) (s : balloc_state) :
  NoDup (all_nodes s) ->
  interval_set (set_ranges s Free_ranges) ->
  match balloc_free R x x s with
  | Done s' =>
      ordered_set (set_ranges s' Free_ranges)
      /\ forall y, covered s' Free_ranges y <-> covered s Free_ranges y
  | Bug => balloc_free_list s = []
  | Stuck => False
  end.
Proof.
  intros Hnd Hset. unfold balloc_free.
  pose proof (interval_set_ordered _ Hset) as Hord.
  destruct (__balloc_add_range R Free_ranges x x s) as [s'| |] eqn:Hadd.
  - destruct (add_range_ranges R Free_ranges x x s s' Hnd Hord Hadd)
      as (new & E).
    unfold covered. rewrite E. rewrite <- set_view_ranges in *.
    split; [apply v_add_ordered; [exact Hord|lia]|].
    intros y. rewrite v_add_covers; [intuition lia|exact Hord|].
    intros q Hq Hb.
    pose proof (ordered_view_proper _ Hord) as Hp.
    rewrite Forall_forall in Hp. specialize (Hp q Hq). cbn beta in Hp. lia.
  - now apply (add_range_bug R Free_ranges x x).
  - now apply (add_range_not_stuck R Free_ranges x x s).
Qed.

End BeyondRanges.

(** ** Beyond the claims: the pool, the other set, round trips *)

(** Cutting a range out of an ordered set splits one stored range at
    most. *)
Lemma cut_list_length (from to : Z) (l : list (Z * Z)) :
  ordered_set l ->
  (length (cut_list from to l) <= length l + 1)%nat.
Proof.
  unfold cut_list. destruct (from =? to); [lia|].
  induction l as [|r l IH]; intros Hord; cbn [flat_map length]; [lia|].
  apply ordered_set_cons in Hord. destruct Hord as (Hr & Hlt & Hord).
  rewrite length_app.
  destruct (cut_length from to r) as [H2 Hsplit].
  destruct (Nat.eq_dec (length (cut from to r)) 2) as [E|N].
  - specialize (Hsplit E). rewrite flat_map_cut_keep; [lia|].
    eapply Forall_impl; [|exact Hlt]. cbn beta. intros r' Hr'. lia.
  - specialize (IH Hord). lia.
Qed.

Lemma ordered_view_drop (D rest : list vnode) (x : vnode) :
  ordered_set (map snd (D ++ x :: rest)) -> ordered_set (map snd (D ++ rest)).
Proof.
  intros H. ord_split. ord_build. fall.
Qed.

Section BeyondPool.

Variable R : rbtree_lib.

Lemma view_free_node (tr : tree_ref) (p : nat) (s : balloc_state) :
  set_view (balloc_free_node p s) tr = set_view s tr.
Proof. unfold set_view. now rewrite get_tree_free_node. Qed.

(** The block shared by [__balloc_remove_range] and [__balloc_alloc]
    leaves the other set alone, whatever the bounds are. *)
Lemma carve_other (tr : tree_ref) (p : nat) (x y : Z)
  (s1 s4 : balloc_state) :
  NoDup (all_nodes s1) ->
  ordered_set (set_ranges s1 tr) ->
  carve R tr p x y s1 = Done s4 ->
  set_view s4 (other_tree tr) = set_view s1 (other_tree tr).
Proof.
  intros Hnd Hord. unfold carve.
  assert (S1 : forall s2,
             (if begin (balloc_nodes s1 p) <? x
              then __balloc_add_range R tr (begin (balloc_nodes s1 p)) x s1
              else Done s1) = Done s2 ->
             NoDup (all_nodes s2) /\ ordered_set (set_ranges s2 tr)
             /\ set_view s2 (other_tree tr) = set_view s1 (other_tree tr)).
  { intros s2. destruct (Z.ltb_spec (begin (balloc_nodes s1 p)) x) as [Hlt|].
    - intros Hadd. split; [|split].
      + eapply Permutation_NoDup;
          [symmetry; apply (add_range_nodes R _ _ _ _ _ Hnd Hadd)|exact Hnd].
      + apply (add_range_keeps_ordered R tr tr _ _ s1 s2 Hnd Hord Hord
                 (Z.lt_le_incl _ _ Hlt) Hadd).
      + apply (add_range_other R tr _ _ s1 s2 Hnd Hord Hadd).
    - intros [= <-]. auto. }
  destruct (if _ <? x then _ else _) as [s2| |]; try discriminate.
  destruct (S1 s2 eq_refl) as (Hnd2 & Hord2 & Ho2). cbn [bind].
  destruct (Z.ltb_spec y (end_ (balloc_nodes s2 p))) as [Hlt|].
  - destruct (__balloc_add_range R tr y _ s2) as [s3| |] eqn:Hadd;
      try discriminate.
    cbn [bind]. intros [= <-]. rewrite view_free_node, <- Ho2.
    apply (add_range_other R tr _ _ s2 s3 Hnd2 Hord2 Hadd).
  - cbn [bind]. intros [= <-]. now rewrite view_free_node.
Qed.

Lemma alloc_other (size align from to : Z) (s s' : balloc_state) (a : Z) :
  NoDup (all_nodes s) ->
  ordered_set (set_ranges s Free_ranges) ->
  __balloc_alloc R size align from to s = Done (a, s') ->
  set_view s' Memory_map = set_view s Memory_map.
Proof.
  intros Hnd Hord. rewrite alloc_unfold.
  destruct (alloc_search size align from to s) as [[p addr]|] eqn:Hsearch;
    [|now intros [= _ <-]].
  destruct (alloc_search_spec size align from to s p addr Hnd Hord Hsearch)
    as (D & rest & Hv & _).
  destruct (erase_view R Free_ranges p _ _ D rest s Hnd Hv)
    as (Hv1 & Hnd1 & _ & _ & Ho1).
  cbn [get_tree other_tree] in *.
  destruct (carve R Free_ranges p addr _ _) as [s4| |] eqn:Hc;
    try discriminate.
  cbn [bind]. intros [= _ <-].
  rewrite <- Ho1.
  eapply (carve_other Free_ranges p); [now inversion Hnd1| |exact Hc].
  rewrite <- set_view_ranges, Hv1.
  apply (ordered_view_drop D rest (p, (begin (balloc_nodes s p),
                                       end_ (balloc_nodes s p)))).
  now rewrite <- Hv, set_view_ranges.
Qed.

(** What one [__balloc_remove_range] costs the pool. *)
Lemma remove_range_pool (tr : tree_ref) (from to : Z) (s : balloc_state) :
  NoDup (all_nodes s) ->
  ordered_set (set_ranges s tr) ->
  from <= to ->
  match __balloc_remove_range R tr from to s with
  | Done s' =>
      NoDup (all_nodes s')
      /\ set_ranges s' tr = cut_list from to (set_ranges s tr)
      /\ set_view s' (other_tree tr) = set_view s (other_tree tr)
      /\ (length (balloc_free_list s) <= length (balloc_free_list s') + 1)%nat
  | Bug => (length (balloc_free_list s) < 2)%nat
  | Stuck => False
  end.
Proof.
  intros Hnd Hord Hft.
  pose proof (remove_range_spec R tr from to s Hnd Hord Hft) as H.
  destruct (__balloc_remove_range R tr from to s) as [s'| |];
    [|exact H|exact H].
  destruct H as (E & Ho & Hperm).
  split; [eapply Permutation_NoDup; [symmetry; exact Hperm|exact Hnd]|].
  split; [exact E|]. split; [exact Ho|].
  pose proof (Permutation_length Hperm) as Hlen.
  rewrite (all_nodes_length tr s), (all_nodes_length tr s'), Ho in Hlen.
  pose proof (cut_list_length from to _ Hord) as Hcut.
  rewrite <- E, <- !set_view_ranges, !length_map in Hcut. lia.
Qed.

(** What one [__balloc_add_range] costs the pool. *)
Lemma add_range_pool (tr : tree_ref) (from to : Z) (s s' : balloc_state) :
  NoDup (all_nodes s) ->
  ordered_set (set_ranges s tr) ->
  __balloc_add_range R tr from to s = Done s' ->
  (length (balloc_free_list s) <= length (balloc_free_list s') + 1)%nat.
Proof.
  intros Hnd Hord Hadd.
  destruct (add_range_view R tr from to s s' Hnd Hord Hadd)
    as (new & fl & Ef & _ & Ef' & _).
  rewrite Ef, Ef', length_app. cbn [length]. lia.
Qed.

(** A successful [__balloc_alloc] takes the block out of the free set as
    cutting does. *)
Lemma alloc_ranges_cut (size align from to : Z) (s s' : balloc_state)
  (a : Z) :
  NoDup (all_nodes s) ->
  interval_set (set_ranges s Free_ranges) ->
  power_of_two align -> 0 < size -> request_fits size align from to ->
  __balloc_alloc R size align from to s = Done (a, s') ->
  a <> to ->
  set_ranges s' Free_ranges
  = cut_list a (a + size) (set_ranges s Free_ranges)
  /\ (forall x, a <= x < a + size -> covered s Free_ranges x)
  /\ NoDup (all_nodes s')
  /\ (length (balloc_free_list s) <= length (balloc_free_list s') + 1)%nat.
Proof.
  intros Hnd Hset Hpow Hsize Hfit Halloc Hne.
  pose proof (interval_set_ordered _ Hset) as Hord.
  pose proof (alloc_nodes R size align from to s s' a Hnd Halloc) as Hperm.
  pose proof (alloc_other size align from to s s' a Hnd Hord Halloc) as Ho.
  destruct (alloc_search size align from to s) as [[p addr]|] eqn:Hsearch.
  2:{ rewrite alloc_unfold, Hsearch in Halloc. injection Halloc as <- <-.
      contradiction. }
  pose proof (alloc_success R size align from to s p addr
                Hnd Hset Hpow Hsize Hfit Hsearch) as H.
  rewrite Halloc in H.
  destruct H as (-> & D & rest & pb & pe & Hv & _ & _ & _ & Hpb & _ & Hpe
                 & _ & Hr').
  assert (Hordv : ordered_set (map snd (D ++ (p, (pb, pe)) :: rest)))
    by (rewrite <- Hv, set_view_ranges; exact Hord).
  assert (E : set_ranges s' Free_ranges
              = cut_list addr (addr + size) (set_ranges s Free_ranges)).
  { rewrite Hr', <- (set_view_ranges s), Hv, map_app. cbn [map].
    rewrite cut_list_app, cut_list_cons.
    destruct (Z.eqb_spec addr (addr + size)); [lia|].
    rewrite !cut_list_keep; [reflexivity| |].
    - rewrite Forall_map. ord_split. fall.
    - rewrite Forall_map. ord_split. fall. }
  split; [exact E|]. split; [|split].
  - intros x Hx. unfold covered. rewrite <- set_view_ranges, Hv.
    apply covers_view_app. right. apply covers_view_cons. left.
    unfold vbegin, vend. cbn [fst snd]. lia.
  - eapply Permutation_NoDup; [symmetry; exact Hperm|exact Hnd].
  - pose proof (Permutation_length Hperm) as Hlen.
    rewrite (all_nodes_length Free_ranges s),
      (all_nodes_length Free_ranges s') in Hlen.
    cbn [other_tree] in Hlen. rewrite Ho in Hlen.
    pose proof (cut_list_length addr (addr + size) _ Hord) as Hcut.
    rewrite <- E, <- !set_view_ranges, !length_map in Hcut. lia.
Qed.

End BeyondPool.

Lemma balloc_memory_view (s : balloc_state) :
  balloc_memory s
  = match rev (set_view s Memory_map) with
    | [] => Stuck
    | x :: _ => Done (vend x)
    end.
Proof.
  unfold balloc_memory, rb_rightmost, set_view, view_of. cbn [get_tree].
  rewrite <- map_rev. now destruct (rev (rb_inorder (memory_map s))).
Qed.

Section BeyondCalls.

Variable R : rbtree_lib.

Lemma alloc_not_stuck (size align from to : Z) (s : balloc_state) :
  __balloc_alloc R size align from to s <> Stuck.
Proof.
  rewrite alloc_unfold.
  destruct (alloc_search size align from to s) as [[p addr]|];
    [|discriminate].
  pose proof (carve_not_stuck R Free_ranges p addr (wrap64 (addr + size))
                (set_tree Free_ranges (rb_erase R p (free_ranges s)) s))
    as Hns.
  destruct (carve R Free_ranges p addr _ _); cbn [bind];
    [discriminate|discriminate|contradiction].
Qed.

(** X4: a block handed out by [alloc] and given back with
    [balloc_free(a, a + size)] leaves the free set as it was before the
    allocation (for [size > 0], [align] a power of two and a request that
    keeps every sum inside the 64-bit range); the call of [balloc_free]
    returns unless the pool held fewer than two nodes at the start. *)
Theorem alloc_then_free_restores (size align from to : Z)
  (s s1 : balloc_state) (a : Z) :
  NoDup (all_nodes s) ->
  interval_set (set_ranges s Free_ranges) ->
  power_of_two align -> 0 < size -> request_fits size align from to ->
  __balloc_alloc R size align from to s = Done (a, s1) ->
  a <> to ->
  match balloc_free R a (a + size) s1 with
  | Done s2 => set_ranges s2 Free_ranges = set_ranges s Free_ranges
  | Bug => (length (balloc_free_list s) < 2)%nat
  | Stuck => False
  end.
Proof.
  intros Hnd Hset Hpow Hsize Hfit Halloc Hne.
  destruct (alloc_ranges_cut R size align from to s s1 a
              Hnd Hset Hpow Hsize Hfit Halloc Hne)
    as (E & Hcov & Hnd1 & Hlen).
  assert (Hle : a <= a + size) by lia.
  assert (Hset1 : interval_set (set_ranges s1 Free_ranges))
    by (rewrite E; now apply cut_list_interval_set).
  pose proof (interval_set_ordered _ Hset1) as Hord1.
  unfold balloc_free.
  destruct (__balloc_add_range R Free_ranges a (a + size) s1)
    as [s2| |] eqn:Hadd.
  - destruct (add_range_ranges R Free_ranges _ _ s1 s2 Hnd1 Hord1 Hadd)
      as (new & ->).
    apply v_add_restores; [exact Hset|now rewrite set_view_ranges|lia| |].
    + intros x. rewrite set_view_ranges, E. now apply covers_cut_list.
    + exact Hcov.
  - rewrite (add_range_bug R _ _ _ _ Hadd) in Hlen. cbn [length] in Hlen.
    lia.
  - now apply (add_range_not_stuck R _ _ _ _ Hadd).
Qed.

(** X5: taking a covered range out and putting it back: when every
    address of [[from, to)], [from < to], is covered by an interval set,
    [remove_range(set, from, to)] followed by [add_range(set, from, to)]
    returns unless the pool holds fewer than two nodes, and leaves the
    stored ranges as they were. *)
Theorem remove_then_add_restores (tr : tree_ref) (from to : Z)
  (s : balloc_state) :
  NoDup (all_nodes s) ->
  interval_set (set_ranges s tr) ->
  from < to ->
  (forall x, from <= x < to -> covered s tr x) ->
  match (s1 <- __balloc_remove_range R tr from to s ;;
         __balloc_add_range R tr from to s1) with
  | Done s2 => set_ranges s2 tr = set_ranges s tr
  | Bug => (length (balloc_free_list s) < 2)%nat
  | Stuck => False
  end.
Proof.
  intros Hnd Hset Hft Hcov.
  pose proof (interval_set_ordered _ Hset) as Hord.
  assert (Hle : from <= to) by lia.
  pose proof (remove_range_pool R tr from to s Hnd Hord Hle) as H.
  destruct (__balloc_remove_range R tr from to s) as [s1| |];
    cbn [bind]; [|exact H|exact H].
  destruct H as (Hnd1 & E & _ & Hlen).
  assert (Hset1 : interval_set (set_ranges s1 tr))
    by (rewrite E; now apply cut_list_interval_set).
  pose proof (interval_set_ordered _ Hset1) as Hord1.
  destruct (__balloc_add_range R tr from to s1) as [s2| |] eqn:Hadd.
  - destruct (add_range_ranges R tr _ _ s1 s2 Hnd1 Hord1 Hadd)
      as (new & ->).
    apply v_add_restores; [exact Hset|now rewrite set_view_ranges|lia| |].
    + intros x. rewrite set_view_ranges, E. now apply covers_cut_list.
    + exact Hcov.
  - rewrite (add_range_bug R _ _ _ _ Hadd) in Hlen. cbn [length] in Hlen.
    lia.
  - now apply (add_range_not_stuck R _ _ _ _ Hadd).
Qed.

(** X6: a successful [alloc] changes the free set as
    [remove_range(free, a, a + size)] on the state before the call would:
    both leave the same stored ranges (for [size > 0], [align] a power
    of two and a request that keeps every sum inside the 64-bit range). *)
Theorem alloc_as_remove_range (size align from to : Z)
  (s s1 : balloc_state) (a : Z) :
  NoDup (all_nodes s) ->
  interval_set (set_ranges s Free_ranges) ->
  power_of_two align -> 0 < size -> request_fits size align from to ->
  __balloc_alloc R size align from to s = Done (a, s1) ->
  a <> to ->
  match __balloc_remove_range R Free_ranges a (a + size) s with
  | Done s2 => set_ranges s2 Free_ranges = set_ranges s1 Free_ranges
  | Bug => (length (balloc_free_list s) < 2)%nat
  | Stuck => False
  end.
Proof.
  intros Hnd Hset Hpow Hsize Hfit Halloc Hne.
  destruct (alloc_ranges_cut R size align from to s s1 a
              Hnd Hset Hpow Hsize Hfit Halloc Hne) as (E & _).
  assert (Hle : a <= a + size) by lia.
  pose proof (remove_range_pool R Free_ranges a (a + size) s Hnd
                (interval_set_ordered _ Hset) Hle) as H.
  destruct (__balloc_remove_range R Free_ranges a (a + size) s) as [s2| |];
    [|exact H|exact H].
  destruct H as (_ & E2 & _). now rewrite E2, E.
Qed.

(** X7: [balloc_alloc] and [balloc_free] never touch [memory_map]: on a
    state whose free set is ordered, whatever the arguments are, a call
    that returns leaves the ranges of [memory_map] and the value of
    [balloc_memory] as they were. *)
Theorem alloc_and_free_keep_memory_map (size from to b e : Z)
  (s : balloc_state) :
  NoDup (all_nodes s) ->
  ordered_set (set_ranges s Free_ranges) ->
  match balloc_alloc R size from to s with
  | Done (a, s') =>
      set_ranges s' Memory_map = set_ranges s Memory_map
      /\ balloc_memory s' = balloc_memory s
  | Bug => True
  | Stuck => False
  end
  /\ match balloc_free R b e s with
     | Done s' =>
         set_ranges s' Memory_map = set_ranges s Memory_map
         /\ balloc_memory s' = balloc_memory s
     | Bug => True
     | Stuck => False
     end.
Proof.
  intros Hnd Hord. split.
  - unfold balloc_alloc.
    destruct (__balloc_alloc R size _ from to s) as [[a s']| |] eqn:Halloc;
      [|exact I|now apply (alloc_not_stuck _ _ _ _ _ Halloc)].
    pose proof (alloc_other R size _ from to s s' a Hnd Hord Halloc) as Ho.
    rewrite <- !set_view_ranges, !balloc_memory_view, Ho. auto.
  - unfold balloc_free.
    destruct (__balloc_add_range R Free_ranges b e s) as [s'| |] eqn:Hadd;
      [|exact I|now apply (add_range_not_stuck R _ _ _ _ Hadd)].
    pose proof (add_range_other R Free_ranges b e s s' Hnd Hord Hadd) as Ho.
    cbn [other_tree] in Ho.
    rewrite <- !set_view_ranges, !balloc_memory_view, Ho. auto.
Qed.

End BeyondCalls.

(** ** Beyond the claims: [balloc_alloc], the window, the descents *)

Section BeyondAlloc.

Variable R : rbtree_lib.

(** Where a successful search lands, from the test of the loop alone. *)
Lemma alloc_result (size align from to : Z) (s : balloc_state) :
  power_of_two align -> 0 < size -> request_fits size align from to ->
  match __balloc_alloc R size align from to s with
  | Done (a, s') =>
      (a <> to -> (align | a) /\ from <= a /\ a + size <= to)
      /\ (a = to -> s' = s)
  | Bug => True
  | Stuck => False
  end.
Proof.
  intros Hpow Hsize Hfit.
  pose proof (alloc_not_stuck R size align from to s) as Hns.
  rewrite alloc_unfold in *.
  destruct (alloc_search size align from to s) as [[p addr]|] eqn:Hsearch.
  - destruct (alloc_search_hit size align from to s p addr Hsearch)
      as (Hbp & Htest & Haddr).
    destruct (alloc_test_true (balloc_nodes s) size align from to p
                Hpow Hsize Hfit Hbp) as (Hdiv & Hfrom & _ & _ & Hiff).
    rewrite <- Haddr in Hdiv, Hfrom, Hiff. apply Hiff in Htest.
    destruct (carve R Free_ranges p addr _ _) as [s4| |]; cbn [bind] in *;
      [|exact I|now apply Hns].
    split; [intros _; repeat split; [exact Hdiv|lia|lia]|lia].
  - split; [congruence|reflexivity].
Qed.

Ltac fin K :=
  repeat split; try assumption; try (intros; lia);
  try (intros _; assumption);
  try (now apply (Z.divide_trans _ K));
  try (intros _; now apply (Z.divide_trans _ K)).

(** X8: the alignment [balloc_alloc] picks.  For [size > 0] and a window
    that keeps every sum inside the 64-bit range, an address returned on
    success is a multiple of 8, of 16 when [size > 8], of 32 when
    [size > 16] and of 64 when [size > 32], and the block lies in the
    window: [from <= a] and [a + size <= to]. *)
Theorem balloc_alloc_aligned (size from to : Z) (s : balloc_state) :
  0 < size -> 0 <= from -> 0 <= to ->
  from + 64 + size <= 2 ^ 64 -> to + 64 + size <= 2 ^ 64 ->
  match balloc_alloc R size from to s with
  | Done (a, s') =>
      a <> to ->
      (8 | a) /\ (8 < size -> (16 | a)) /\ (16 < size -> (32 | a))
      /\ (32 < size -> (64 | a))
      /\ from <= a /\ a + size <= to
  | Bug => True
  | Stuck => False
  end.
Proof.
  intros Hsize Hfrom Hto Hf Ht. unfold balloc_alloc.
  assert (P : forall k, 3 <= k <= 6 ->
             match __balloc_alloc R size (2 ^ k) from to s with
             | Done (a, s') =>
                 a <> to -> (2 ^ k | a) /\ from <= a /\ a + size <= to
             | Bug => True
             | Stuck => False
             end).
  { intros k Hk.
    assert (Hle : 2 ^ k <= 2 ^ 6) by (apply Z.pow_le_mono_r; lia).
    pose proof (alloc_result size (2 ^ k) from to s) as H.
    destruct (__balloc_alloc R size (2 ^ k) from to s) as [[a s']| |];
      [|exact I|].
    - apply H; [exists k; split; [lia|reflexivity]|exact Hsize|].
      unfold request_fits. change (2 ^ 6) with 64 in Hle. lia.
    - apply H; [exists k; split; [lia|reflexivity]|exact Hsize|].
      unfold request_fits. change (2 ^ 6) with 64 in Hle. lia. }
  assert (D8_16 : (8 | 16)) by (exists 2; reflexivity).
  assert (D8_32 : (8 | 32)) by (exists 4; reflexivity).
  assert (D8_64 : (8 | 64)) by (exists 8; reflexivity).
  assert (D16_32 : (16 | 32)) by (exists 2; reflexivity).
  assert (D16_64 : (16 | 64)) by (exists 4; reflexivity).
  assert (D32_64 : (32 | 64)) by (exists 2; reflexivity).
  destruct (Z.leb_spec size 32) as [H32|H32];
    destruct (Z.leb_spec size 16) as [H16|H16];
    destruct (Z.leb_spec size 8) as [H8|H8]; try lia.
  - specialize (P 3 ltac:(lia)). change (2 ^ 3) with 8 in P.
    destruct (__balloc_alloc R size 8 from to s) as [[a s']| |];
      [|exact I|exact P].
    intros Hne. destruct (P Hne) as (D & ? & ?). fin 8.
  - specialize (P 4 ltac:(lia)). change (2 ^ 4) with 16 in P.
    destruct (__balloc_alloc R size 16 from to s) as [[a s']| |];
      [|exact I|exact P].
    intros Hne. destruct (P Hne) as (D & ? & ?). fin 16.
  - specialize (P 5 ltac:(lia)). change (2 ^ 5) with 32 in P.
    destruct (__balloc_alloc R size 32 from to s) as [[a s']| |];
      [|exact I|exact P].
    intros Hne. destruct (P Hne) as (D & ? & ?). fin 32.
  - specialize (P 6 ltac:(lia)). change (2 ^ 6) with 64 in P.
    destruct (__balloc_alloc R size 64 from to s) as [[a s']| |];
      [|exact I|exact P].
    intros Hne. destruct (P Hne) as (D & ? & ?). fin 64.
Qed.

(** X9: a request that cannot fit its window fails without touching
    anything: when [to - from < size] (in particular when the window is
    empty or inverted), [alloc(size, align, from, to)] returns [to] and
    the state is the one it was called in, whatever the free set holds. *)
Theorem alloc_window_too_small (size align from to : Z) (s : balloc_state) :
  power_of_two align -> 0 < size -> request_fits size align from to ->
  to - from < size ->
  __balloc_alloc R size align from to s = Done (to, s).
Proof.
  intros Hpow Hsize Hfit Hsmall.
  pose proof (alloc_result size align from to s Hpow Hsize Hfit) as H.
  rewrite alloc_unfold in *.
  destruct (alloc_search size align from to s) as [[p addr]|] eqn:Hsearch;
    [|reflexivity].
  exfalso.
  destruct (alloc_search_hit size align from to s p addr Hsearch)
    as (Hbp & Htest & Haddr).
  destruct (alloc_test_true (balloc_nodes s) size align from to p
              Hpow Hsize Hfit Hbp) as (_ & Hfrom & _ & _ & Hiff).
  rewrite <- Haddr in Hfrom, Hiff. apply Hiff in Htest. lia.
Qed.

End BeyondAlloc.

(** X10: the descent that opens [__balloc_remove_range] and
    [__balloc_alloc].  On a tree whose ranges are ordered it returns the
    first node in order whose end is above [from], whatever the shape of
    the tree; it returns null exactly when no stored range ends above
    [from]. *)
Theorem first_above_is_first (nd : nat -> memory_node) (from : Z)
  (t : rb_node) :
  ordered_set (__balloc_dump_ranges nd t) ->
  match rb_first_above nd from t None with
  | Some p =>
      exists l1 l2,
        rb_inorder t = l1 ++ p :: l2
        /\ from < end_ (nd p)
        /\ Forall (fun n => end_ (nd n) <= from) l1
  | None => Forall (fun n => end_ (nd n) <= from) (rb_inorder t)
  end.
Proof.
  intros Hord. rewrite (first_above_find nd from t None Hord).
  pose proof (find_split (fun n => from <? end_ (nd n)) (rb_inorder t)) as H.
  destruct (find _ _) as [p|].
  - destruct H as (l1 & l2 & E & Hp & Hl1). exists l1, l2.
    split; [exact E|]. split; [now apply Z.ltb_lt|].
    eapply Forall_impl; [|exact Hl1]. cbn beta. intros n Hn.
    now apply Z.ltb_ge.
  - eapply Forall_impl; [|exact H]. cbn beta. intros n Hn.
    now apply Z.ltb_ge.
Qed.

(** X11: the descent of [__balloc_add_range] with [rb_link].  On a tree
    whose ranges are ordered the new node is linked, whatever the shape
    of the tree, right after the ranges that begin below [from] and
    before those that begin at [from] or above; the other nodes keep
    their order. *)
Theorem link_descent_position (nd : nat -> memory_node) (from : Z)
  (new : nat) (t : rb_node) :
  ordered_set (__balloc_dump_ranges nd t) ->
  exists l1 l2,
    rb_inorder t = l1 ++ l2
    /\ rb_inorder (rb_link_descent nd from new t) = l1 ++ new :: l2
    /\ Forall (fun n => begin (nd n) < from) l1
    /\ Forall (fun n => from <= begin (nd n)) l2.
Proof.
  intros Hord.
  pose proof (link_descent_view nd from new t Hord) as Hl.
  pose proof Hord as Hord'. rewrite <- view_of_ranges in Hord'.
  destruct (v_split_spec from _ Hord') as [Ha Hb].
  pose proof (v_split_app from (view_of nd (rb_inorder t))) as Happ.
  set (a := fst (v_split from (view_of nd (rb_inorder t)))) in *.
  set (b := snd (v_split from (view_of nd (rb_inorder t)))) in *.
  destruct (view_of_split nd (rb_inorder t) a b (eq_sym Happ))
    as (Hids & Hva & Hvb).
  exists (map fst a), (map fst b).
  split; [exact Hids|]. split; [exact Hl|].
  rewrite Hva in Ha. rewrite Hvb in Hb.
  unfold view_of in Ha, Hb. rewrite Forall_map in Ha, Hb.
  split; [exact Ha|exact Hb].
Qed.

(** ** Beyond the claims: [balloc_setup] as a whole *)

(** The ranges that [v_add] leaves depend on the ranges it is given, not
    on the slots that hold them. *)
Lemma v_split_ranges (from : Z) (v1 : list vnode) :
  forall v2 : list vnode,
    map snd v1 = map snd v2 ->
    map snd (fst (v_split from v1)) = map snd (fst (v_split from v2))
    /\ map snd (snd (v_split from v1)) = map snd (snd (v_split from v2)).
Proof.
  induction v1 as [|x v1 IH]; intros [|y v2] H; try discriminate.
  - now split.
  - cbn [map] in H. injection H as Hx Ht. cbn [v_split].
    unfold vbegin. rewrite Hx.
    destruct (fst (snd y) <? from); cbn [fst snd map].
    + destruct (IH v2 Ht) as [E1 E2]. now rewrite E1, E2, Hx.
    + now rewrite Hx, Ht.
Qed.

Lemma v_absorb_prev_ranges (a1 a2 : list vnode) (nr : Z * Z) :
  map snd a1 = map snd a2 ->
  map snd (fst (fst (v_absorb_prev a1 nr)))
  = map snd (fst (fst (v_absorb_prev a2 nr)))
  /\ snd (fst (v_absorb_prev a1 nr)) = snd (fst (v_absorb_prev a2 nr)).
Proof.
  intros H. unfold v_absorb_prev.
  assert (Hr : map snd (rev a1) = map snd (rev a2))
    by now rewrite !map_rev, H.
  destruct (rev a1) as [|p1 r1]; destruct (rev a2) as [|p2 r2];
    try discriminate; cbn [fst snd].
  - now split.
  - cbn [map] in Hr. injection Hr as Hp Ht. unfold vend, vbegin.
    rewrite Hp. destruct (fst nr <=? snd (snd p2)); cbn [fst snd].
    + now rewrite !map_rev, Ht.
    + now split.
Qed.

Lemma v_absorb_next_ranges (b1 b2 : list vnode) (nr : Z * Z) :
  map snd b1 = map snd b2 ->
  map snd (fst (fst (v_absorb_next b1 nr)))
  = map snd (fst (fst (v_absorb_next b2 nr)))
  /\ snd (fst (v_absorb_next b1 nr)) = snd (fst (v_absorb_next b2 nr)).
Proof.
  intros H. unfold v_absorb_next.
  destruct b1 as [|q1 b1]; destruct b2 as [|q2 b2]; try discriminate;
    cbn [fst snd].
  - now split.
  - cbn [map] in H. injection H as Hq Ht. unfold vend, vbegin.
    rewrite Hq. destruct (fst (snd q2) <=? snd nr); cbn [fst snd map].
    + now split.
    + now rewrite Hq, Ht.
Qed.

Lemma v_add_ranges_only (v1 v2 : list vnode) (n1 n2 : nat) (from to : Z) :
  map snd v1 = map snd v2 ->
  map snd (fst (v_add v1 n1 from to)) = map snd (fst (v_add v2 n2 from to)).
Proof.
  intros H. unfold v_add.
  destruct (v_split_ranges from v1 v2 H) as [Ea Eb].
  destruct (v_absorb_prev_ranges _ _ (from, to) Ea) as [Ea' Enr].
  destruct (v_absorb_prev (fst (v_split from v1)) (from, to))
    as [[a1 nr1] f1].
  destruct (v_absorb_prev (fst (v_split from v2)) (from, to))
    as [[a2 nr2] f2].
  cbn [fst snd] in Ea', Enr. subst nr2.
  destruct (v_absorb_next_ranges _ _ nr1 Eb) as [Eb' Enr'].
  destruct (v_absorb_next (snd (v_split from v1)) nr1) as [[b1 m1] g1].
  destruct (v_absorb_next (snd (v_split from v2)) nr1) as [[b2 m2] g2].
  cbn [fst snd] in *. subst m2.
  rewrite !map_app. cbn [map snd]. now rewrite Ea', Eb'.
Qed.

Lemma v_add_nonempty (v : list vnode) (new : nat) (from to : Z) :
  fst (v_add v new from to) <> [].
Proof.
  unfold v_add.
  destruct (v_absorb_prev _ _) as [[a nr1] f1].
  destruct (v_absorb_next _ _) as [[b nr2] f2].
  cbn [fst]. now destruct a.
Qed.

Section BeyondSetup.

Variable R : rbtree_lib.

(** One range added to [memory_map] and then to [free_ranges], as both
    loops of the bootstrap and the kernel image do it. *)
Lemma add_pair (from to : Z) (s : balloc_state) :
  NoDup (all_nodes s) ->
  ordered_set (set_ranges s Memory_map) ->
  set_ranges s Memory_map = set_ranges s Free_ranges ->
  from <= to ->
  match (s1 <- __balloc_add_range R Memory_map from to s ;;
         __balloc_add_range R Free_ranges from to s1) with
  | Done s2 =>
      NoDup (all_nodes s2)
      /\ ordered_set (set_ranges s2 Memory_map)
      /\ set_ranges s2 Memory_map = set_ranges s2 Free_ranges
      /\ set_ranges s2 Memory_map <> []
      /\ (length (balloc_free_list s) <= length (balloc_free_list s2) + 2)%nat
  | Bug => (length (balloc_free_list s) < 2)%nat
  | Stuck => False
  end.
Proof.
  intros Hnd Hk Heq Hft.
  assert (Hf : ordered_set (set_ranges s Free_ranges)) by now rewrite <- Heq.
  destruct (__balloc_add_range R Memory_map from to s) as [s1| |] eqn:E1;
    cbn [bind].
  2:{ rewrite (add_range_bug R _ _ _ _ E1). cbn. lia. }
  2:{ now apply (add_range_not_stuck R _ _ _ _ E1). }
  pose proof (add_range_nodes R _ _ _ _ _ Hnd E1) as P1.
  assert (Hnd1 : NoDup (all_nodes s1))
    by (eapply Permutation_NoDup; [symmetry; exact P1|exact Hnd]).
  pose proof (add_range_keeps_ordered R Memory_map Memory_map _ _ s s1
                Hnd Hk Hk Hft E1) as Hk1.
  pose proof (add_range_keeps_ordered R Memory_map Free_ranges _ _ s s1
                Hnd Hk Hf Hft E1) as Hf1.
  pose proof (add_range_pool R _ _ _ _ _ Hnd Hk E1) as L1.
  destruct (add_range_ranges R Memory_map from to s s1 Hnd Hk E1)
    as (n1 & Er1).
  pose proof (add_range_other R Memory_map from to s s1 Hnd Hk E1) as O1.
  cbn [other_tree] in O1.
  destruct (__balloc_add_range R Free_ranges from to s1) as [s2| |] eqn:E2.
  2:{ rewrite (add_range_bug R _ _ _ _ E2) in L1. cbn [length] in L1. lia. }
  2:{ now apply (add_range_not_stuck R _ _ _ _ E2). }
  pose proof (add_range_nodes R _ _ _ _ _ Hnd1 E2) as P2.
  pose proof (add_range_keeps_ordered R Free_ranges Memory_map _ _ s1 s2
                Hnd1 Hf1 Hk1 Hft E2) as Hk2.
  pose proof (add_range_pool R _ _ _ _ _ Hnd1 Hf1 E2) as L2.
  destruct (add_range_ranges R Free_ranges from to s1 s2 Hnd1 Hf1 E2)
    as (n2 & Er2).
  pose proof (add_range_other R Free_ranges from to s1 s2 Hnd1 Hf1 E2) as O2.
  cbn [other_tree] in O2.
  assert (EM : set_ranges s2 Memory_map = set_ranges s1 Memory_map)
    by now rewrite <- !set_view_ranges, O2.
  split; [eapply Permutation_NoDup; [symmetry; exact P2|exact Hnd1]|].
  split; [exact Hk2|]. split; [|split; [|lia]].
  - rewrite EM, Er1, Er2. apply v_add_ranges_only.
    rewrite O1, !set_view_ranges. exact Heq.
  - rewrite EM, Er1. intros H. apply map_eq_nil in H.
    now apply (v_add_nonempty _ _ _ _ H).
Qed.

Lemma add_entries_run (entries : list mboot_mmap_entry) :
  Forall entry_fits entries ->
  forall s,
    NoDup (all_nodes s) ->
    ordered_set (set_ranges s Memory_map) ->
    set_ranges s Memory_map = set_ranges s Free_ranges ->
    match add_entries R entries s with
    | Done s' =>
        NoDup (all_nodes s')
        /\ ordered_set (set_ranges s' Memory_map)
        /\ set_ranges s' Memory_map = set_ranges s' Free_ranges
        /\ (length (balloc_free_list s)
            <= length (balloc_free_list s') + 2 * length entries)%nat
    | Bug => (length (balloc_free_list s) < 2 * length entries)%nat
    | Stuck => False
    end.
Proof.
  induction 1 as [|e entries He _ IH]; intros s Hnd Hk Heq;
    cbn [add_entries].
  - split; [exact Hnd|]. split; [exact Hk|]. split; [exact Heq|].
    cbn [length]. lia.
  - rewrite (entry_end_fits e He).
    assert (Hle : entry_addr e <= entry_addr e + entry_length e)
      by (destruct He as (_ & ? & _); lia).
    pose proof (add_pair _ _ s Hnd Hk Heq Hle) as H.
    destruct (__balloc_add_range R Memory_map _ _ s) as [s1| |];
      cbn [bind length] in *; [|lia|exact H].
    destruct (__balloc_add_range R Free_ranges _ _ s1) as [s2| |];
      cbn [bind] in *; [|lia|exact H].
    destruct H as (Hnd2 & Hk2 & Heq2 & _ & L).
    specialize (IH s2 Hnd2 Hk2 Heq2).
    destruct (add_entries R entries s2) as [s'| |]; [|lia|exact IH].
    destruct IH as (I1 & I2 & I3 & I4).
    split; [exact I1|]. split; [exact I2|]. split; [exact I3|]. lia.
Qed.

Lemma remove_busy_entries_run (entries : list mboot_mmap_entry) :
  Forall entry_fits entries ->
  forall s,
    NoDup (all_nodes s) ->
    ordered_set (set_ranges s Free_ranges) ->
    match remove_busy_entries R entries s with
    | Done s' =>
        NoDup (all_nodes s')
        /\ ordered_set (set_ranges s' Free_ranges)
        /\ set_view s' Memory_map = set_view s Memory_map
        /\ (forall x, covered s' Free_ranges x -> covered s Free_ranges x)
        /\ (length (balloc_free_list s)
            <= length (balloc_free_list s') + length entries)%nat
    | Bug => (length (balloc_free_list s) < length entries + 1)%nat
    | Stuck => False
    end.
Proof.
  induction 1 as [|e entries He _ IH]; intros s Hnd Hord;
    cbn [remove_busy_entries].
  - split; [exact Hnd|]. split; [exact Hord|]. split; [reflexivity|].
    split; [tauto|cbn [length]; lia].
  - rewrite (entry_end_fits e He).
    assert (Hle : entry_addr e <= entry_addr e + entry_length e)
      by (destruct He as (_ & ? & _); lia).
    destruct (Z.eqb_spec (entry_type e) 1) as [Ety|Nty]; cbn [bind length].
    + specialize (IH s Hnd Hord).
      destruct (remove_busy_entries R entries s) as [s'| |];
        [|lia|exact IH].
      destruct IH as (I1 & I2 & I3 & I4 & I5).
      split; [exact I1|]. split; [exact I2|]. split; [exact I3|].
      split; [exact I4|lia].
    + pose proof (remove_range_pool R Free_ranges _ _ s Hnd Hord Hle) as H.
      destruct (__balloc_remove_range R Free_ranges _ _ s) as [s1| |];
        cbn [bind]; [|lia|exact H].
      destruct H as (Hnd1 & E1 & O1 & L1). cbn [other_tree] in O1.
      assert (Hord1 : ordered_set (set_ranges s1 Free_ranges))
        by (rewrite E1; now apply cut_list_ordered).
      specialize (IH s1 Hnd1 Hord1).
      destruct (remove_busy_entries R entries s1) as [s'| |];
        [|lia|exact IH].
      destruct IH as (I1 & I2 & Ho & Hc & I5).
      split; [exact I1|]. split; [exact I2|]. split; [congruence|].
      split; [|lia].
      intros x Hx. apply Hc in Hx. unfold covered in *.
      rewrite E1 in Hx. now apply covers_cut_list in Hx.
Qed.

(** Where a run of [balloc_setup] ends. *)
Lemma setup_run (info : mboot_info) (kbegin kend : Z) (im : Z * Z) :
  Forall entry_fits (mmap info) ->
  kbegin <= kend ->
  fst im <= snd im ->
  match balloc_setup R info kbegin kend im boot_state with
  | Done s =>
      Z.land (flags info) (Z.shiftl 1 6) <> 0
      /\ ordered_set (set_ranges s Memory_map)
      /\ ordered_set (set_ranges s Free_ranges)
      /\ set_ranges s Memory_map <> []
      /\ (forall x, covered s Free_ranges x -> covered s Memory_map x)
  | Bug =>
      Z.land (flags info) (Z.shiftl 1 6) = 0
      \/ (41 < length (mmap info))%nat
  | Stuck => False
  end.
Proof.
  intros Hmap Hk Him. unfold balloc_setup, balloc_parse_mmap.
  destruct (Z.eqb_spec (Z.land (flags info) (Z.shiftl 1 6)) 0) as [Hfl|Hfl];
    [now left|].
  pose proof (pool_invariant_nodup _ setup_nodes_pool) as Hnd0.
  destruct setup_nodes_state as (Efl & Ef & Em).
  assert (L0 : length (balloc_free_list (balloc_setup_nodes boot_state))
               = 128%nat)
    by (rewrite Efl, length_rev, length_seq; reflexivity).
  assert (Hr0 : forall tr,
             set_ranges (balloc_setup_nodes boot_state) tr = []).
  { intros tr. unfold set_ranges, __balloc_dump_ranges.
    destruct tr; cbn [get_tree]; rewrite ?Ef, ?Em; reflexivity. }
  pose proof (add_entries_run _ Hmap _ Hnd0) as H1.
  rewrite !Hr0 in H1. specialize (H1 ordered_set_nil eq_refl).
  destruct (add_entries R (mmap info) _) as [s1| |];
    cbn [bind]; [|right; lia|exact H1].
  destruct H1 as (Hnd1 & Hk1 & Heq1 & L1).
  pose proof (add_pair kbegin kend s1 Hnd1 Hk1 Heq1 Hk) as H2.
  destruct (__balloc_add_range R Memory_map kbegin kend s1) as [s2| |];
    cbn [bind] in *; [|right; lia|exact H2].
  destruct (__balloc_add_range R Free_ranges kbegin kend s2) as [s3| |];
    cbn [bind] in *; [|right; lia|exact H2].
  destruct H2 as (Hnd3 & Hk3 & Heq3 & Hne3 & L3).
  assert (Hf3 : ordered_set (set_ranges s3 Free_ranges))
    by now rewrite <- Heq3.
  pose proof (remove_busy_entries_run _ Hmap s3 Hnd3 Hf3) as H4.
  destruct (remove_busy_entries R (mmap info) s3) as [s4| |];
    cbn [bind]; [|right; lia|exact H4].
  destruct H4 as (Hnd4 & Hf4 & O4 & Hc4 & L4).
  pose proof (remove_range_pool R Free_ranges _ _ s4 Hnd4 Hf4 Him) as H5.
  destruct (__balloc_remove_range R Free_ranges (fst im) (snd im) s4)
    as [s5| |]; cbn [bind]; [|right; lia|exact H5].
  destruct H5 as (Hnd5 & E5 & O5 & L5). cbn [other_tree] in O5.
  assert (Hf5 : ordered_set (set_ranges s5 Free_ranges))
    by (rewrite E5; now apply cut_list_ordered).
  pose proof (remove_range_pool R Free_ranges _ _ s5 Hnd5 Hf5 Hk) as H6.
  destruct (__balloc_remove_range R Free_ranges kbegin kend s5)
    as [s| |]; [|right; lia|exact H6].
  destruct H6 as (Hnd6 & E6 & O6 & L6). cbn [other_tree] in O6.
  assert (EM : set_ranges s Memory_map = set_ranges s3 Memory_map)
    by (rewrite <- !set_view_ranges; congruence).
  split; [exact Hfl|]. rewrite EM.
  split; [exact Hk3|].
  split; [rewrite E6; now apply cut_list_ordered|].
  split; [exact Hne3|].
  intros x Hx. unfold covered in *. rewrite EM, Heq3. apply Hc4.
  unfold covered. rewrite E6 in Hx. apply covers_cut_list in Hx; [|exact Hk].
  destruct Hx as [Hx _]. rewrite E5 in Hx.
  apply covers_cut_list in Hx; [|exact Him]. tauto.
Qed.

(** X12: the pool is large enough for a boot map of up to 41 entries.
    When every entry describes a range of 64-bit addresses and the kernel
    image and the boot module are given with begin <= end,
    [balloc_setup] on such a map completes if and only if bit 6 of
    [flags] is set: the [BUG_ON] of [balloc_alloc_node] cannot fire. *)
Theorem setup_completes (info : mboot_info) (kbegin kend : Z) (im : Z * Z) :
  Forall entry_fits (mmap info) ->
  kbegin <= kend ->
  fst im <= snd im ->
  (length (mmap info) <= 41)%nat ->
  (exists s, balloc_setup R info kbegin kend im boot_state = Done s)
  <-> Z.land (flags info) (Z.shiftl 1 6) <> 0.
Proof.
  intros Hmap Hk Him Hlen.
  pose proof (setup_run info kbegin kend im Hmap Hk Him) as H. split.
  - intros (s & E). rewrite E in H. tauto.
  - intros Hfl.
    destruct (balloc_setup R info kbegin kend im boot_state) as [s| |];
      [now exists s|exfalso; lia|contradiction].
Qed.

(** X13: after [balloc_setup] both sets are ordered (their dumps list
    ranges that neither overlap nor touch, by increasing begin) and every
    address of the free set is an address of [memory_map]: nothing is
    free that was not reported as memory. *)
Theorem setup_free_within_known (info : mboot_info) (kbegin kend : Z)
  (im : Z * Z) :
  Forall entry_fits (mmap info) ->
  kbegin <= kend ->
  fst im <= snd im ->
  match balloc_setup R info kbegin kend im boot_state with
  | Done s =>
      ordered_set (set_ranges s Memory_map)
      /\ ordered_set (set_ranges s Free_ranges)
      /\ (forall x, covered s Free_ranges x -> covered s Memory_map x)
  | Bug => True
  | Stuck => False
  end.
Proof.
  intros Hmap Hk Him.
  pose proof (setup_run info kbegin kend im Hmap Hk Him) as H.
  destruct (balloc_setup R info kbegin kend im boot_state) as [s| |];
    [|exact I|exact H].
  tauto.
Qed.

(** X14: [balloc_memory] after [balloc_setup].  The set [memory_map] is
    not empty once setup has completed (the kernel image is in it), so
    [balloc_memory] finds a right-most node; the value it returns is the
    end of a stored range and lies above every address of
    [memory_map]. *)
Theorem balloc_memory_after_setup (info : mboot_info) (kbegin kend : Z)
  (im : Z * Z) :
  Forall entry_fits (mmap info) ->
  kbegin <= kend ->
  fst im <= snd im ->
  match balloc_setup R info kbegin kend im boot_state with
  | Done s =>
      exists top,
        balloc_memory s = Done top
        /\ In top (map snd (set_ranges s Memory_map))
        /\ forall x, covered s Memory_map x -> x < top
  | Bug => True
  | Stuck => False
  end.
Proof.
  intros Hmap Hk Him.
  pose proof (setup_run info kbegin kend im Hmap Hk Him) as H.
  destruct (balloc_setup R info kbegin kend im boot_state) as [s| |];
    [|exact I|exact H].
  destruct H as (_ & Hord & _ & Hne & _).
  rewrite balloc_memory_view. unfold covered.
  rewrite <- set_view_ranges in *.
  destruct (rev (set_view s Memory_map)) as [|q rv] eqn:Erev.
  - apply (f_equal (@rev _)) in Erev. rewrite rev_involutive in Erev.
    now rewrite Erev in Hne.
  - apply rev_eq_cons in Erev. rewrite Erev in *.
    exists (vend q). split; [reflexivity|]. split.
    + unfold vend. rewrite map_map.
      apply (in_map (fun y : vnode => snd (snd y))).
      apply in_or_app. right. now left.
    + intros x Hx. apply covers_view_app in Hx. destruct Hx as [Hx|Hx].
      * assert (Hlt : x < vbegin q);
          [apply (covers_below (rev rv) _ x); [ord_split; fall|exact Hx]|].
        ord_split. vlia.
      * apply covers_view_cons in Hx. destruct Hx as [Hx|Hx]; [lia|].
        now apply covers_view_nil in Hx.
Qed.

End BeyondSetup.

(** ** Beyond the claims: calls that follow one another *)

Section BeyondSequences.

Variable R : rbtree_lib.

(** X15: two allocations in a row never hand out the same address twice:
    when [alloc] succeeds and a second [alloc] on the resulting state
    succeeds as well (each with [size > 0], [align] a power of two and a
    request that keeps every sum inside the 64-bit range), the two blocks
    [[a1, a1 + size1)] and [[a2, a2 + size2)] are disjoint. *)
Theorem allocs_do_not_overlap (size1 align1 from1 to1 : Z)
  (size2 align2 from2 to2 : Z) (s s1 s2 : balloc_state) (a1 a2 : Z) :
  NoDup (all_nodes s) ->
  interval_set (set_ranges s Free_ranges) ->
  power_of_two align1 -> 0 < size1 -> request_fits size1 align1 from1 to1 ->
  power_of_two align2 -> 0 < size2 -> request_fits size2 align2 from2 to2 ->
  __balloc_alloc R size1 align1 from1 to1 s = Done (a1, s1) ->
  a1 <> to1 ->
  __balloc_alloc R size2 align2 from2 to2 s1 = Done (a2, s2) ->
  a2 <> to2 ->
  a1 + size1 <= a2 \/ a2 + size2 <= a1.
Proof.
  intros Hnd Hset Hp1 Hs1 Hf1 Hp2 Hs2 Hf2 A1 N1 A2 N2.
  destruct (alloc_ranges_cut R size1 align1 from1 to1 s s1 a1
              Hnd Hset Hp1 Hs1 Hf1 A1 N1) as (E1 & _ & Hnd1 & _).
  assert (Hle : a1 <= a1 + size1) by lia.
  assert (Hset1 : interval_set (set_ranges s1 Free_ranges))
    by (rewrite E1; now apply cut_list_interval_set).
  destruct (alloc_ranges_cut R size2 align2 from2 to2 s1 s2 a2
              Hnd1 Hset1 Hp2 Hs2 Hf2 A2 N2) as (_ & Hcov2 & _).
  destruct (Z.le_gt_cases (a1 + size1) a2) as [|H1]; [now left|].
  destruct (Z.le_gt_cases (a2 + size2) a1) as [|H2]; [now right|].
  exfalso.
  assert (Hx : covered s1 Free_ranges (Z.max a1 a2))
    by (apply Hcov2; lia).
  unfold covered in Hx. rewrite E1 in Hx.
  apply covers_cut_list in Hx; [|exact Hle]. lia.
Qed.

(** X16: removing a range a second time changes nothing: after
    [remove_range(set, from, to)] with [from <= to] has returned on an
    interval set, the same call again returns unless the pool holds fewer
    than two nodes and leaves the stored ranges as the first call left
    them. *)
Theorem remove_range_twice (tr : tree_ref) (from to : Z)
  (s s1 : balloc_state) :
  NoDup (all_nodes s) ->
  interval_set (set_ranges s tr) ->
  from <= to ->
  __balloc_remove_range R tr from to s = Done s1 ->
  match __balloc_remove_range R tr from to s1 with
  | Done s2 => set_ranges s2 tr = set_ranges s1 tr
  | Bug => (length (balloc_free_list s1) < 2)%nat
  | Stuck => False
  end.
Proof.
  intros Hnd Hset Hft Hrem.
  pose proof (remove_range_pool R tr from to s Hnd
                (interval_set_ordered _ Hset) Hft) as H.
  rewrite Hrem in H. destruct H as (Hnd1 & E1 & _ & _).
  assert (Hset1 : interval_set (set_ranges s1 tr))
    by (rewrite E1; now apply cut_list_interval_set).
  pose proof (remove_range_pool R tr from to s1 Hnd1
                (interval_set_ordered _ Hset1) Hft) as H.
  destruct (__balloc_remove_range R tr from to s1) as [s2| |];
    [|exact H|exact H].
  destruct H as (_ & E2 & _).
  apply interval_set_unique;
    [rewrite E2; now apply cut_list_interval_set|exact Hset1|].
  intros x. rewrite E2, covers_cut_list by exact Hft.
  rewrite E1, covers_cut_list by exact Hft. tauto.
Qed.

(** X17: removing a range of which no address is covered changes nothing:
    on an interval set, when no address of [[from, to)], [from <= to], is
    covered, [remove_range(set, from, to)] leaves the stored ranges as
    they were. *)
Theorem remove_uncovered_is_noop (tr : tree_ref) (from to : Z)
  (s : balloc_state) :
  NoDup (all_nodes s) ->
  interval_set (set_ranges s tr) ->
  from <= to ->
  (forall x, from <= x < to -> ~ covered s tr x) ->
  match __balloc_remove_range R tr from to s with
  | Done s' => set_ranges s' tr = set_ranges s tr
  | Bug => (length (balloc_free_list s) < 2)%nat
  | Stuck => False
  end.
Proof.
  intros Hnd Hset Hft Hno.
  pose proof (remove_range_pool R tr from to s Hnd
                (interval_set_ordered _ Hset) Hft) as H.
  destruct (__balloc_remove_range R tr from to s) as [s'| |];
    [|exact H|exact H].
  destruct H as (_ & E & _).
  apply interval_set_unique;
    [rewrite E; now apply cut_list_interval_set|exact Hset|].
  intros x. rewrite E, covers_cut_list by exact Hft.
  specialize (Hno x). unfold covered in Hno. tauto.
Qed.

End BeyondSequences.

(** ** Beyond the claims: when [alloc] gives up *)

Lemma alloc_walk_none (nd : nat -> memory_node) (size align from to : Z)
  (cands : list nat) :
  alloc_walk nd size align from to cands = None ->
  exists c1 c2,
    cands = c1 ++ c2
    /\ Forall (fun q => begin (nd q) < to
                        /\ alloc_test nd size align from to q = false) c1
    /\ match c2 with
       | [] => True
       | q :: _ => to <= begin (nd q)
       end.
Proof.
  induction cands as [|q cands IH]; intros H.
  - exists [], []. repeat split. constructor.
  - rewrite alloc_walk_cons in H.
    destruct (Z.ltb_spec (begin (nd q)) to) as [Hlt|Hge].
    + destruct (alloc_test nd size align from to q) eqn:Et; [discriminate|].
      destruct (IH H) as (c1 & c2 & -> & Hc1 & Hc2).
      exists (q :: c1), c2. split; [reflexivity|]. split; [|exact Hc2].
      constructor; [now split|exact Hc1].
    + exists [], (q :: cands). split; [reflexivity|].
      split; [constructor|exact Hge].
Qed.

(** Where a search that finds nothing has looked: every stored range
    ends at or below [from], failed the test, or begins at [to] or
    above. *)
Lemma alloc_search_none (size align from to : Z) (s : balloc_state) :
  NoDup (all_nodes s) ->
  ordered_set (set_ranges s Free_ranges) ->
  alloc_search size align from to s = None ->
  Forall (fun q => vend q <= from
                   \/ (vbegin q < to
                       /\ alloc_test (balloc_nodes s) size align from to
                                     (fst q) = false)
                   \/ to <= vbegin q)
         (set_view s Free_ranges).
Proof.
  intros Hnd Hord. unfold alloc_search.
  rewrite first_above_find by exact Hord.
  pose proof (find_split (fun n => from <? end_ (balloc_nodes s n))
                (rb_inorder (free_ranges s))) as Hf.
  unfold set_view, view_of. cbn [get_tree]. rewrite Forall_map.
  destruct (find _ _) as [p0|].
  - destruct Hf as (l1 & l2 & Hids & Hp0 & Hl1).
    pose proof (all_nodes_tree_nodup Free_ranges s Hnd) as Hndt.
    cbn [get_tree] in Hndt. rewrite Hids in Hndt.
    assert (Hp0l : ~ In p0 l1).
    { apply NoDup_remove_2 in Hndt. intros H. apply Hndt.
      apply in_or_app. now left. }
    rewrite Hids, seq_from_mid by exact Hp0l.
    intros H. apply alloc_walk_none in H.
    destruct H as (c1 & c2 & Hc & Hc1 & Hc2).
    rewrite Hc. apply Forall_app. split; [|apply Forall_app; split].
    + eapply Forall_impl; [|exact Hl1]. cbn beta. intros n Hn.
      apply Z.ltb_ge in Hn. left. exact Hn.
    + eapply Forall_impl; [|exact Hc1]. cbn beta. intros n Hn.
      right. left. exact Hn.
    + destruct c2 as [|q c2]; [constructor|].
      rewrite <- set_view_ranges in Hord. unfold set_view in Hord.
      cbn [get_tree] in Hord. rewrite Hids, Hc in Hord.
      rewrite !view_of_app in Hord. cbn [view_of map] in Hord.
      fold (view_of (balloc_nodes s) c2) in Hord.
      ord_split.
      constructor; [right; right; exact Hc2|].
      unfold view_of in *.
      match goal with
      | H : Forall _ (map _ c2) |- _ => rewrite Forall_map in H
      end.
      match goal with
      | H : Forall _ c2 |- _ =>
          eapply Forall_impl; [|exact H]; cbn beta; intros n Hn
      end.
      right. right. vlia.
  - intros _. eapply Forall_impl; [|exact Hf]. cbn beta. intros n Hn.
    apply Z.ltb_ge in Hn. left. exact Hn.
Qed.

Section BeyondSearch.

Variable R : rbtree_lib.

(** X18: [alloc] gives up only when nothing fits.  For [size > 0],
    [align] a power of two and a request that keeps every sum inside the
    64-bit range, on an interval set: when [alloc] returns [to], there is
    no address [a'] that is a multiple of [align] with [from <= a'],
    [a' + size <= to] and [[a', a' + size)] covered by the free set. *)
Theorem alloc_fails_only_when_nothing_fits (size align from to : Z)
  (s : balloc_state) :
  NoDup (all_nodes s) ->
  interval_set (set_ranges s Free_ranges) ->
  power_of_two align -> 0 < size -> request_fits size align from to ->
  match __balloc_alloc R size align from to s with
  | Done (a, s') =>
      a = to ->
      forall a', ~ feasible (set_ranges s Free_ranges) size align from to a'
  | Bug => True
  | Stuck => False
  end.
Proof.
  intros Hnd Hset Hpow Hsize Hfit.
  pose proof (alloc_result R size align from to s Hpow Hsize Hfit) as Hres.
  destruct (__balloc_alloc R size align from to s) as [[a s']| |] eqn:Halloc;
    [|exact I|exact Hres].
  intros -> a' (Hdiv & Hfrom & Hto & Hcov).
  assert (Hnone : alloc_search size align from to s = None).
  { rewrite alloc_unfold in Halloc.
    destruct (alloc_search size align from to s) as [[p addr]|] eqn:Hs;
      [|reflexivity].
    exfalso.
    destruct (alloc_search_hit size align from to s p addr Hs)
      as (Hbp & Htest & Haddr).
    destruct (alloc_test_true (balloc_nodes s) size align from to p
                Hpow Hsize Hfit Hbp) as (_ & _ & _ & _ & Hiff).
    rewrite <- Haddr in Hiff. apply Hiff in Htest.
    destruct (carve R Free_ranges p addr _ _) as [s4| |]; try discriminate.
    cbn [bind] in Halloc. injection Halloc as E _. lia. }
  pose proof (alloc_search_none size align from to s Hnd
                (interval_set_ordered _ Hset) Hnone) as Hall.
  destruct (block_in_one_range _ a' (a' + size) Hset ltac:(lia) Hcov)
    as (r & Hr & Hlo & Hhi).
  rewrite <- set_view_ranges in Hr. apply in_map_iff in Hr.
  destruct Hr as (q & <- & Hq).
  rewrite Forall_forall in Hall. specialize (Hall q Hq).
  assert (Hq' : In q (set_view s Free_ranges)) by exact Hq.
  unfold set_view, view_of in Hq'. apply in_map_iff in Hq'.
  destruct Hq' as (n & <- & _).
  unfold vbegin, vend in Hall. cbn [fst snd] in *.
  destruct Hall as [H|[[Hb Ht]|H]]; [lia| |lia].
  destruct (alloc_test_true (balloc_nodes s) size align from to n
              Hpow Hsize Hfit Hb) as (_ & _ & _ & Hmin & Hiff).
  assert (Htrue : alloc_test (balloc_nodes s) size align from to n = true).
  { apply Hiff. specialize (Hmin a' Hdiv Hfrom Hlo). lia. }
  congruence.
Qed.

End BeyondSearch.

(** ** The further theorems on concrete inputs *)

(** The input on which the second merge cuts the added range short:
    [{[10, 20)}] and [[0, 100)] give [{[0, 20)}], inside the bounds. *)
Lemma add_range_bounds_witness :
  exists s',
    __balloc_add_range plain_tree Free_ranges 0 100 (single_range 10 20)
    = Done s'
    /\ set_ranges s' Free_ranges = [(0, 20)]
    /\ interval_set (set_ranges s' Free_ranges)
    /\ (forall x, covered (single_range 10 20) Free_ranges x ->
                  covered s' Free_ranges x)
    /\ (forall x, covered s' Free_ranges x ->
                  covered (single_range 10 20) Free_ranges x
                  \/ 0 <= x < 100)
    /\ covered s' Free_ranges 0.
Proof.
  assert (E : exists s',
             __balloc_add_range plain_tree Free_ranges 0 100
               (single_range 10 20) = Done s'
             /\ set_ranges s' Free_ranges = [(0, 20)]) by run_concrete.
  destruct E as (s' & E & Er). exists s'.
  split; [exact E|]. split; [exact Er|].
  pose proof (add_range_bounds plain_tree Free_ranges 0 100
                (single_range 10 20)) as H.
  rewrite E in H. apply H.
  - apply single_range_nodup.
  - apply single_range_set. lia.
  - lia.
Defined.

Lemma free_covered_is_noop_witness :
  exists s',
    balloc_free plain_tree 40 60 (single_range 0 100) = Done s'
    /\ set_ranges s' Free_ranges = [(0, 100)]
    /\ set_ranges s' Free_ranges
       = set_ranges (single_range 0 100) Free_ranges.
Proof.
  assert (E : exists s',
             balloc_free plain_tree 40 60 (single_range 0 100) = Done s'
             /\ set_ranges s' Free_ranges = [(0, 100)]) by run_concrete.
  destruct E as (s' & E & Er). exists s'.
  split; [exact E|]. split; [exact Er|].
  pose proof (free_covered_is_noop plain_tree 40 60 (single_range 0 100))
    as H.
  rewrite E in H. apply H.
  - apply single_range_nodup.
  - apply single_range_set. lia.
  - lia.
  - intros x Hx. unfold covered. rewrite single_range_ranges.
    exists (0, 100). split; [now left|cbn [fst snd]; lia].
Defined.

(** Away from every stored range the empty range gets a node of its
    own. *)
Lemma free_empty_range_covers_same_witness :
  exists s',
    balloc_free plain_tree 50 50 (single_range 10 20) = Done s'
    /\ set_ranges s' Free_ranges = [(10, 20); (50, 50)]
    /\ ordered_set (set_ranges s' Free_ranges)
    /\ forall y, covered s' Free_ranges y
                 <-> covered (single_range 10 20) Free_ranges y.
Proof.
  assert (E : exists s',
             balloc_free plain_tree 50 50 (single_range 10 20) = Done s'
             /\ set_ranges s' Free_ranges = [(10, 20); (50, 50)])
    by run_concrete.
  destruct E as (s' & E & Er). exists s'.
  split; [exact E|]. split; [exact Er|].
  pose proof (free_empty_range_covers_same plain_tree 50
                (single_range 10 20)) as H.
  rewrite E in H. apply H.
  - apply single_range_nodup.
  - apply single_range_set. lia.
Defined.

Lemma alloc_then_free_restores_witness :
  exists s1 s2,
    __balloc_alloc plain_tree 10 16 0 100 (single_range 5 100)
    = Done (16, s1)
    /\ set_ranges s1 Free_ranges = [(5, 16); (26, 100)]
    /\ balloc_free plain_tree 16 (16 + 10) s1 = Done s2
    /\ set_ranges s2 Free_ranges
       = set_ranges (single_range 5 100) Free_ranges.
Proof.
  assert (E : exists s1,
             __balloc_alloc plain_tree 10 16 0 100 (single_range 5 100)
             = Done (16, s1)
             /\ set_ranges s1 Free_ranges = [(5, 16); (26, 100)]
             /\ exists s2,
                 balloc_free plain_tree 16 (16 + 10) s1 = Done s2).
  { eexists. split; [vm_compute; reflexivity|].
    split; [vm_compute; reflexivity|].
    eexists. vm_compute. reflexivity. }
  destruct E as (s1 & E1 & Er & s2 & E2). exists s1, s2.
  split; [exact E1|]. split; [exact Er|]. split; [exact E2|].
  pose proof (alloc_then_free_restores plain_tree 10 16 0 100
                (single_range 5 100) s1 16) as H.
  rewrite E2 in H. apply H.
  - apply single_range_nodup.
  - apply single_range_set. lia.
  - exact power_of_two_16.
  - lia.
  - exact request_fits_small.
  - exact E1.
  - lia.
Defined.

Lemma remove_then_add_restores_witness :
  exists s2,
    (s1 <- __balloc_remove_range plain_tree Free_ranges 40 60
             (single_range 0 100) ;;
     __balloc_add_range plain_tree Free_ranges 40 60 s1) = Done s2
    /\ set_ranges s2 Free_ranges = [(0, 100)]
    /\ set_ranges s2 Free_ranges
       = set_ranges (single_range 0 100) Free_ranges.
Proof.
  assert (E : exists s2,
             (s1 <- __balloc_remove_range plain_tree Free_ranges 40 60
                      (single_range 0 100) ;;
              __balloc_add_range plain_tree Free_ranges 40 60 s1) = Done s2
             /\ set_ranges s2 Free_ranges = [(0, 100)]) by run_concrete.
  destruct E as (s2 & E & Er). exists s2.
  split; [exact E|]. split; [exact Er|].
  pose proof (remove_then_add_restores plain_tree Free_ranges 40 60
                (single_range 0 100)) as H.
  rewrite E in H. apply H.
  - apply single_range_nodup.
  - apply single_range_set. lia.
  - lia.
  - intros x Hx. unfold covered. rewrite single_range_ranges.
    exists (0, 100). split; [now left|cbn [fst snd]; lia].
Defined.

Lemma alloc_as_remove_range_witness :
  exists s1 s2,
    __balloc_alloc plain_tree 10 16 0 100 (single_range 5 100)
    = Done (16, s1)
    /\ __balloc_remove_range plain_tree Free_ranges 16 (16 + 10)
         (single_range 5 100) = Done s2
    /\ set_ranges s2 Free_ranges = [(5, 16); (26, 100)]
    /\ set_ranges s2 Free_ranges = set_ranges s1 Free_ranges.
Proof.
  assert (E1 : exists s1,
             __balloc_alloc plain_tree 10 16 0 100 (single_range 5 100)
             = Done (16, s1)
             /\ set_ranges s1 Free_ranges = [(5, 16); (26, 100)])
    by run_concrete.
  assert (E2 : exists s2,
             __balloc_remove_range plain_tree Free_ranges 16 (16 + 10)
               (single_range 5 100) = Done s2
             /\ set_ranges s2 Free_ranges = [(5, 16); (26, 100)])
    by run_concrete.
  destruct E1 as (s1 & E1 & _). destruct E2 as (s2 & E2 & Er2).
  exists s1, s2. split; [exact E1|]. split; [exact E2|].
  split; [exact Er2|].
  pose proof (alloc_as_remove_range plain_tree 10 16 0 100
                (single_range 5 100) s1 16) as H.
  rewrite E2 in H. apply H.
  - apply single_range_nodup.
  - apply single_range_set. lia.
  - exact power_of_two_16.
  - lia.
  - exact request_fits_small.
  - exact E1.
  - lia.
Defined.

(** After the bootstrap scenario, one allocation and one release. *)
Lemma alloc_and_free_keep_memory_map_witness :
  exists s,
    balloc_setup plain_tree
      (mk_info 64 [mk_entry 20 0 0x100000 1; mk_entry 20 0x1000 0x1000 2])
      0x2000 0x3000 (0x3000, 0x4000) boot_state = Done s
    /\ set_ranges s Memory_map = [(0, 0x100000)]
    /\ match balloc_alloc plain_tree 16 0x4000 0x100000 s with
       | Done (a, s') =>
           set_ranges s' Memory_map = set_ranges s Memory_map
           /\ balloc_memory s' = balloc_memory s
       | Bug => True
       | Stuck => False
       end
    /\ match balloc_free plain_tree 0x2000 0x3000 s with
       | Done s' =>
           set_ranges s' Memory_map = set_ranges s Memory_map
           /\ balloc_memory s' = balloc_memory s
       | Bug => True
       | Stuck => False
       end.
Proof.
  assert (E : exists s,
             balloc_setup plain_tree
               (mk_info 64 [mk_entry 20 0 0x100000 1;
                            mk_entry 20 0x1000 0x1000 2])
               0x2000 0x3000 (0x3000, 0x4000) boot_state = Done s
             /\ set_ranges s Memory_map = [(0, 0x100000)]
             /\ set_ranges s Free_ranges = [(0, 0x1000); (0x4000, 0x100000)]
             /\ distinct (all_nodes s) = true).
  { eexists. split; [vm_compute; reflexivity|].
    split; [vm_compute; reflexivity|].
    split; vm_compute; reflexivity. }
  destruct E as (s & E & Em & Ef & Hd). exists s.
  split; [exact E|]. split; [exact Em|].
  apply (alloc_and_free_keep_memory_map plain_tree 16 0x4000 0x100000
           0x2000 0x3000 s).
  - apply distinct_NoDup. exact Hd.
  - rewrite Ef. split; repeat constructor; cbn [fst snd]; lia.
Defined.

(** A request of 24 bytes is served at a multiple of 32. *)
Lemma balloc_alloc_aligned_witness :
  exists s',
    balloc_alloc plain_tree 24 0 100 (single_range 5 100) = Done (32, s')
    /\ (8 | 32) /\ (8 < 24 -> (16 | 32)) /\ (16 < 24 -> (32 | 32))
    /\ (32 < 24 -> (64 | 32))
    /\ 0 <= 32 /\ 32 + 24 <= 100.
Proof.
  assert (E : exists s',
             balloc_alloc plain_tree 24 0 100 (single_range 5 100)
             = Done (32, s')
             /\ set_ranges s' Free_ranges = [(5, 32); (56, 100)])
    by run_concrete.
  destruct E as (s' & E & _). exists s'. split; [exact E|].
  pose proof (balloc_alloc_aligned plain_tree 24 0 100 (single_range 5 100))
    as H.
  rewrite E in H. apply H; lia.
Defined.

Lemma alloc_window_too_small_witness :
  __balloc_alloc plain_tree 10 16 50 55 (single_range 0 100)
  = Done (55, single_range 0 100).
Proof.
  apply (alloc_window_too_small plain_tree 10 16 50 55 (single_range 0 100)).
  - exact power_of_two_16.
  - lia.
  - unfold request_fits. lia.
  - lia.
Defined.

(** Three ranges [[0,5)], [[10,15)], [[20,25)] in a tree rooted at the
    middle one: the descent for [from = 7] ends at the middle range. *)
Lemma first_above_is_first_witness :
  rb_first_above (fun n => mk_node (10 * Z.of_nat n) (10 * Z.of_nat n + 5)) 7
    (rb_fork RB_BLACK (rb_fork RB_RED rb_null 0 rb_null) 1
             (rb_fork RB_RED rb_null 2 rb_null)) None = Some 1%nat
  /\ exists l1 l2,
      [0; 1; 2]%nat = l1 ++ 1%nat :: l2
      /\ 7 < 10 * Z.of_nat 1 + 5
      /\ Forall (fun n => 10 * Z.of_nat n + 5 <= 7) l1.
Proof.
  split; [reflexivity|].
  apply (first_above_is_first
           (fun n => mk_node (10 * Z.of_nat n) (10 * Z.of_nat n + 5)) 7
           (rb_fork RB_BLACK (rb_fork RB_RED rb_null 0 rb_null) 1
                    (rb_fork RB_RED rb_null 2 rb_null))).
  split; repeat constructor; cbn; lia.
Defined.

(** The same tree: a node for a range that begins at 12 is linked
    between the second and the third range. *)
Lemma link_descent_position_witness :
  rb_inorder
    (rb_link_descent
       (fun n => mk_node (10 * Z.of_nat n) (10 * Z.of_nat n + 5)) 12 7
       (rb_fork RB_BLACK (rb_fork RB_RED rb_null 0 rb_null) 1
                (rb_fork RB_RED rb_null 2 rb_null)))
  = [0; 1; 7; 2]%nat
  /\ exists l1 l2,
      rb_inorder (rb_fork RB_BLACK (rb_fork RB_RED rb_null 0 rb_null) 1
                          (rb_fork RB_RED rb_null 2 rb_null))
      = l1 ++ l2
      /\ rb_inorder
           (rb_link_descent
              (fun n => mk_node (10 * Z.of_nat n) (10 * Z.of_nat n + 5)) 12 7
              (rb_fork RB_BLACK (rb_fork RB_RED rb_null 0 rb_null) 1
                       (rb_fork RB_RED rb_null 2 rb_null)))
         = l1 ++ 7%nat :: l2
      /\ Forall (fun n => begin (mk_node (10 * Z.of_nat n)
                                         (10 * Z.of_nat n + 5)) < 12) l1
      /\ Forall (fun n => 12 <= begin (mk_node (10 * Z.of_nat n)
                                               (10 * Z.of_nat n + 5))) l2.
Proof.
  split; [reflexivity|].
  apply (link_descent_position
           (fun n => mk_node (10 * Z.of_nat n) (10 * Z.of_nat n + 5)) 12 7
           (rb_fork RB_BLACK (rb_fork RB_RED rb_null 0 rb_null) 1
                    (rb_fork RB_RED rb_null 2 rb_null))).
  split; repeat constructor; cbn; lia.
Defined.

Lemma setup_completes_witness :
  (exists s,
      balloc_setup plain_tree
        (mk_info 64 [mk_entry 20 0 0x100000 1; mk_entry 20 0x1000 0x1000 2])
        0x2000 0x3000 (0x3000, 0x4000) boot_state = Done s)
  <-> Z.land 64 (Z.shiftl 1 6) <> 0.
Proof.
  apply (setup_completes plain_tree
           (mk_info 64 [mk_entry 20 0 0x100000 1; mk_entry 20 0x1000 0x1000 2])
           0x2000 0x3000 (0x3000, 0x4000)).
  - repeat constructor; cbn; lia.
  - lia.
  - cbn. lia.
  - cbn. lia.
Defined.

(** Two overlapping available entries and the kernel image outside both:
    the free set stays inside [memory_map]. *)
Lemma setup_free_within_known_witness :
  exists s,
    balloc_setup plain_tree
      (mk_info 64 [mk_entry 20 0x1000 0x2000 1; mk_entry 20 0x2000 0x3000 1])
      0x8000 0x9000 (0x2000, 0x2800) boot_state = Done s
    /\ balloc_dump_ranges s
       = ([(0x1000, 0x5000); (0x8000, 0x9000)],
          [(0x1000, 0x2000); (0x2800, 0x5000)])
    /\ ordered_set (set_ranges s Memory_map)
    /\ ordered_set (set_ranges s Free_ranges)
    /\ (forall x, covered s Free_ranges x -> covered s Memory_map x).
Proof.
  assert (E : exists s,
             balloc_setup plain_tree
               (mk_info 64 [mk_entry 20 0x1000 0x2000 1;
                            mk_entry 20 0x2000 0x3000 1])
               0x8000 0x9000 (0x2000, 0x2800) boot_state = Done s
             /\ balloc_dump_ranges s
                = ([(0x1000, 0x5000); (0x8000, 0x9000)],
                   [(0x1000, 0x2000); (0x2800, 0x5000)]))
    by run_concrete.
  destruct E as (s & E & Er). exists s.
  split; [exact E|]. split; [exact Er|].
  pose proof (setup_free_within_known plain_tree
                (mk_info 64 [mk_entry 20 0x1000 0x2000 1;
                             mk_entry 20 0x2000 0x3000 1])
                0x8000 0x9000 (0x2000, 0x2800)) as H.
  rewrite E in H. apply H.
  - repeat constructor; cbn; lia.
  - lia.
  - cbn. lia.
Defined.

Lemma balloc_memory_after_setup_witness :
  exists s,
    balloc_setup plain_tree
      (mk_info 64 [mk_entry 20 0x1000 0x2000 1; mk_entry 20 0x2000 0x3000 1])
      0x8000 0x9000 (0x2000, 0x2800) boot_state = Done s
    /\ balloc_memory s = Done 0x9000
    /\ exists top,
        balloc_memory s = Done top
        /\ In top (map snd (set_ranges s Memory_map))
        /\ forall x, covered s Memory_map x -> x < top.
Proof.
  assert (E : exists s,
             balloc_setup plain_tree
               (mk_info 64 [mk_entry 20 0x1000 0x2000 1;
                            mk_entry 20 0x2000 0x3000 1])
               0x8000 0x9000 (0x2000, 0x2800) boot_state = Done s
             /\ balloc_memory s = Done 0x9000) by run_concrete.
  destruct E as (s & E & Em). exists s.
  split; [exact E|]. split; [exact Em|].
  pose proof (balloc_memory_after_setup plain_tree
                (mk_info 64 [mk_entry 20 0x1000 0x2000 1;
                             mk_entry 20 0x2000 0x3000 1])
                0x8000 0x9000 (0x2000, 0x2800)) as H.
  rewrite E in H. apply H.
  - repeat constructor; cbn; lia.
  - lia.
  - cbn. lia.
Defined.

Lemma allocs_do_not_overlap_witness :
  exists s1 s2,
    __balloc_alloc plain_tree 10 16 0 100 (single_range 5 100)
    = Done (16, s1)
    /\ __balloc_alloc plain_tree 10 16 0 100 s1 = Done (32, s2)
    /\ (16 + 10 <= 32 \/ 32 + 10 <= 16).
Proof.
  assert (E : exists s1,
             __balloc_alloc plain_tree 10 16 0 100 (single_range 5 100)
             = Done (16, s1)
             /\ exists s2,
                 __balloc_alloc plain_tree 10 16 0 100 s1 = Done (32, s2)).
  { eexists. split; [vm_compute; reflexivity|].
    eexists. vm_compute. reflexivity. }
  destruct E as (s1 & E1 & s2 & E2). exists s1, s2.
  split; [exact E1|]. split; [exact E2|].
  apply (allocs_do_not_overlap plain_tree 10 16 0 100 10 16 0 100
           (single_range 5 100) s1 s2 16 32).
  - apply single_range_nodup.
  - apply single_range_set. lia.
  - exact power_of_two_16.
  - lia.
  - exact request_fits_small.
  - exact power_of_two_16.
  - lia.
  - exact request_fits_small.
  - exact E1.
  - lia.
  - exact E2.
  - lia.
Defined.

Lemma remove_range_twice_witness :
  exists s1 s2,
    __balloc_remove_range plain_tree Free_ranges 40 60 (single_range 0 100)
    = Done s1
    /\ __balloc_remove_range plain_tree Free_ranges 40 60 s1 = Done s2
    /\ set_ranges s2 Free_ranges = [(0, 40); (60, 100)]
    /\ set_ranges s2 Free_ranges = set_ranges s1 Free_ranges.
Proof.
  assert (E : exists s1,
             __balloc_remove_range plain_tree Free_ranges 40 60
               (single_range 0 100) = Done s1
             /\ exists s2,
                 __balloc_remove_range plain_tree Free_ranges 40 60 s1
                 = Done s2
                 /\ set_ranges s2 Free_ranges = [(0, 40); (60, 100)]).
  { eexists. split; [vm_compute; reflexivity|]. run_concrete. }
  destruct E as (s1 & E1 & s2 & E2 & Er). exists s1, s2.
  split; [exact E1|]. split; [exact E2|]. split; [exact Er|].
  pose proof (remove_range_twice plain_tree Free_ranges 40 60
                (single_range 0 100) s1) as H.
  rewrite E2 in H. apply H.
  - apply single_range_nodup.
  - apply single_range_set. lia.
  - lia.
  - exact E1.
Defined.

Lemma remove_uncovered_is_noop_witness :
  exists s',
    __balloc_remove_range plain_tree Free_ranges 20 40 (single_range 10 20)
    = Done s'
    /\ set_ranges s' Free_ranges
       = set_ranges (single_range 10 20) Free_ranges.
Proof.
  assert (E : exists s',
             __balloc_remove_range plain_tree Free_ranges 20 40
               (single_range 10 20) = Done s'
             /\ set_ranges s' Free_ranges = [(10, 20)]) by run_concrete.
  destruct E as (s' & E & _). exists s'. split; [exact E|].
  pose proof (remove_uncovered_is_noop plain_tree Free_ranges 20 40
                (single_range 10 20)) as H.
  rewrite E in H. apply H.
  - apply single_range_nodup.
  - apply single_range_set. lia.
  - lia.
  - unfold covered. rewrite single_range_ranges.
    intros x Hx (r & [<-|[]] & Hr). cbn [fst snd] in Hr. lia.
Defined.

(** [{[5, 20)}] has no block of 10 bytes at a multiple of 16. *)
Lemma alloc_fails_only_when_nothing_fits_witness :
  __balloc_alloc plain_tree 10 16 0 100 (single_range 5 20)
  = Done (100, single_range 5 20)
  /\ forall a',
       ~ feasible (set_ranges (single_range 5 20) Free_ranges) 10 16 0 100 a'.
Proof.
  assert (E : __balloc_alloc plain_tree 10 16 0 100 (single_range 5 20)
              = Done (100, single_range 5 20)) by reflexivity.
  split; [exact E|].
  pose proof (alloc_fails_only_when_nothing_fits plain_tree 10 16 0 100
                (single_range 5 20)) as H.
  rewrite E in H. apply H.
  - apply single_range_nodup.
  - apply single_range_set. lia.
  - exact power_of_two_16.
  - lia.
  - exact request_fits_small.
  - reflexivity.
Defined.
